(** * SubscriptionManager of graphql-toolkit: a shallow embedding

    The class [SubscriptionManager], as it stands in
    [src/implementations/PerformanceMonitor.ts], and the interfaces of
    [src/interfaces/ISubscriptionManager.ts] it works on.

    - JS numbers that only ever hold integers (counters, millisecond
      timestamps, byte counts) are [Z]; the two that hold fractions
      ([errorRate], the heap size in MB) are [Q], every finite double being a
      rational.  A number that a caller passes and the code adds up is a
      double ([spec_float], binary64); a limit that a caller sets is a
      finite double, an infinity, [NaN] or [undefined].
    - [Map<string, V>] is [gmap string V].  [Set<string>] is a [list string]
      in insertion order, which is the order a JS Set iterates in.
    - Connection records are JS objects that the manager and its callers
      share: the manager's [connections] map holds references, and the
      records live in an object store ([heap]).
    - The logger is the list of entries written so far, oldest first.
    - [Date.now()], [new Date()], [Math.random()] and
      [process.memoryUsage()] are inputs of the operations that read them.
    - A function that a caller passes returns a value or throws one; what
      is kept of a thrown value is what reading its [message] gives.
    - An [async] method is given twice: as the call that nothing runs into,
      and as its stretches between [await]s, for calls that overlap.

    The classes [QueryComplexityAnalyzer] and [PerformanceMonitor] and the
    dependency handling of [SchemaComposer], of the same file, follow the
    manager, with the same conventions. *)

From Stdlib Require Import ZArith QArith Qround Lqa Ascii String List Lia SpecFloat.
From stdpp Require Import base option list sorting gmap strings.

Local Open Scope string_scope.
Local Open Scope Z_scope.

(** ** Interfaces *)

Record ISubscriptionMetadata := {
  timestamp : Z;
  source : string;
  version : option string;
  correlationId : option string
}.

Record ISubscriptionPayload (T : Type) := {
  data : T;
  payload_metadata : option ISubscriptionMetadata
}.
Arguments data {T} _.
Arguments payload_metadata {T} _.

(** How a call ends: with a value, or with a thrown [Error] (its message). *)
Inductive Completion (A : Type) : Type :=
| Normal (a : A)
| Throw (e : string).
Arguments Normal {A} _.
Arguments Throw {A} _.

(** What caller-supplied code can throw: any value.  The manager reads only
    the [message] of what it catches.  A value that is not [null] or
    [undefined] gives its [message], if it has one; [null] and [undefined]
    have no properties, and reading one throws a [TypeError] (the wording is
    that of Node); a [message] that is a getter can throw as well. *)
Inductive Thrown :=
| ThrownValue (message : option string)
| ThrownNull
| ThrownUndefined
| ThrownTrap (error : string).

(** [(error as Error).message] *)
Definition message_of (error : Thrown) : Completion (option string) :=
  match error with
  | ThrownValue message => Normal message
  | ThrownNull => Throw "Cannot read properties of null (reading 'message')"
  | ThrownUndefined => Throw "Cannot read properties of undefined (reading 'message')"
  | ThrownTrap e => Throw e
  end.

(** How a call into caller-supplied code ends. *)
Inductive Outcome (A : Type) : Type :=
| Returns (a : A)
| Throws (error : Thrown).
Arguments Returns {A} _.
Arguments Throws {A} _.

Module Connection.
Record ISubscriptionConnection := {
  id : string;
  userId : option string;
  startTime : Z;
  lastActivity : Z;
  subscriptions : list string;
  metadata : gmap string string;
  isActive : bool
}.
End Connection.
Export Connection.

(** [filter(payload, variables, context)]: the manager always calls it with
    [variables = {}] and [context = { connection }], so the model passes the
    payload and the connection record. *)
Definition ISubscriptionFilter (T : Type) : Type :=
  ISubscriptionPayload T → ISubscriptionConnection → Outcome bool.

(** The manager stores resolvers and never calls into them: the iterator
    factory is an opaque handle and the optional members are presence flags. *)
Record ISubscriptionResolver := {
  subscribe_handle : nat;
  has_resolve : bool;
  has_filter : bool
}.

Record ISubscriptionOptions := {
  bufferSize : option Z;
  keepAlive : option bool;
  keepAliveInterval : option Z;
  connectionTimeout : option Z;
  maxConnections : option Z;
  enableCompression : option bool;
  enableBatching : option bool
}.

(** [DEFAULT_SUBSCRIPTION_OPTIONS] of [src/index.ts]. *)
Definition DEFAULT_SUBSCRIPTION_OPTIONS : ISubscriptionOptions := {|
  bufferSize := Some 100;
  keepAlive := Some true;
  keepAliveInterval := Some 30000;
  connectionTimeout := Some 300000;
  maxConnections := Some 1000;
  enableCompression := Some true;
  enableBatching := Some false
|}.

Record ISubscriptionStats := {
  activeConnections : Z;
  totalSubscriptions : Z;
  messagesSent : Z;
  messagesReceived : Z;
  averageConnectionDuration : Q;
  peakConnections : Z;
  errorRate : Q;
  uptime : Z
}.

(** What [healthCheck] reports in [errors] and [warnings].  The source builds
    a message string around the number; the model keeps the number. *)
Inductive HealthMessage :=
| StaleConnectionsDetected (staleConnections : Z)
| HighErrorRate (rate : Q)
| HighMemoryUsage (megabytes : Q).

Record ISubscriptionHealth := {
  healthy : bool;
  health_connections : Z;
  memoryUsage : Q;
  latency : Z;
  errors : list HealthMessage;
  warnings : list HealthMessage
}.

(** ** The logger *)

Inductive LogLevel := LDebug | LInfo | LWarn | LError.

(** One call of [logger.debug/info/warn/error]: the level, the message and
    the id the structured fields are about (subscription id, connection id
    or topic). *)
Record LogEntry := {
  level : LogLevel;
  message : string;
  subject : string
}.

(** ** JS [Set<string>] *)

Definition Set_has (x : string) (s : list string) : bool := bool_decide (x ∈ s).

Definition Set_add (x : string) (s : list string) : list string :=
  if Set_has x s then s else (s ++ [x])%list.

Definition Set_delete (x : string) (s : list string) : list string :=
  filter (λ y, y ≠ x) s.

(** ** State *)

Definition ref := nat.

Record State := {
  subscriptions : gmap string ISubscriptionResolver;
  connections : gmap string ref;
  subscriptionConnections : gmap string (list string);
  stats : ISubscriptionStats;
  logger : list LogEntry;
  heap : ref → ISubscriptionConnection
}.

(** The field initialisers of the class; [uptime] is [Date.now()] at
    construction. *)
Definition new_SubscriptionManager (now : Z) (objects : ref → ISubscriptionConnection) : State := {|
  subscriptions := ∅;
  connections := ∅;
  subscriptionConnections := ∅;
  stats := {|
    activeConnections := 0;
    totalSubscriptions := 0;
    messagesSent := 0;
    messagesReceived := 0;
    averageConnectionDuration := 0%Q;
    peakConnections := 0;
    errorRate := 0%Q;
    uptime := now
  |};
  logger := [];
  heap := objects
|}.

Definition set_subscriptions (f : gmap string ISubscriptionResolver → gmap string ISubscriptionResolver) (s : State) : State :=
  {| subscriptions := f (subscriptions s); connections := connections s;
     subscriptionConnections := subscriptionConnections s; stats := stats s;
     logger := logger s; heap := heap s |}.

Definition set_connections (f : gmap string ref → gmap string ref) (s : State) : State :=
  {| subscriptions := subscriptions s; connections := f (connections s);
     subscriptionConnections := subscriptionConnections s; stats := stats s;
     logger := logger s; heap := heap s |}.

Definition set_subscriptionConnections (f : gmap string (list string) → gmap string (list string)) (s : State) : State :=
  {| subscriptions := subscriptions s; connections := connections s;
     subscriptionConnections := f (subscriptionConnections s); stats := stats s;
     logger := logger s; heap := heap s |}.

Definition set_stats (f : ISubscriptionStats → ISubscriptionStats) (s : State) : State :=
  {| subscriptions := subscriptions s; connections := connections s;
     subscriptionConnections := subscriptionConnections s; stats := f (stats s);
     logger := logger s; heap := heap s |}.

Definition set_heap (f : (ref → ISubscriptionConnection) → ref → ISubscriptionConnection) (s : State) : State :=
  {| subscriptions := subscriptions s; connections := connections s;
     subscriptionConnections := subscriptionConnections s; stats := stats s;
     logger := logger s; heap := f (heap s) |}.

Definition write_log (l : LogLevel) (msg subj : string) (s : State) : State :=
  {| subscriptions := subscriptions s; connections := connections s;
     subscriptionConnections := subscriptionConnections s; stats := stats s;
     logger := (logger s ++ [{| level := l; message := msg; subject := subj |}])%list;
     heap := heap s |}.

(** Writes to one object of the store. *)
Definition store (r : ref) (c : ISubscriptionConnection) (h : ref → ISubscriptionConnection) : ref → ISubscriptionConnection :=
  λ r', if decide (r' = r) then c else h r'.

Definition with_lastActivity (t : Z) (c : ISubscriptionConnection) : ISubscriptionConnection :=
  {| id := id c; userId := userId c; startTime := startTime c; lastActivity := t;
     Connection.subscriptions := Connection.subscriptions c; metadata := metadata c;
     isActive := isActive c |}.

Definition with_isActive (b : bool) (c : ISubscriptionConnection) : ISubscriptionConnection :=
  {| id := id c; userId := userId c; startTime := startTime c; lastActivity := lastActivity c;
     Connection.subscriptions := Connection.subscriptions c; metadata := metadata c;
     isActive := b |}.

Definition with_subscriptions (f : list string → list string) (c : ISubscriptionConnection) : ISubscriptionConnection :=
  {| id := id c; userId := userId c; startTime := startTime c; lastActivity := lastActivity c;
     Connection.subscriptions := f (Connection.subscriptions c); metadata := metadata c;
     isActive := isActive c |}.

Definition stats_with_activeConnections (v : Z) (st : ISubscriptionStats) : ISubscriptionStats :=
  {| activeConnections := v; totalSubscriptions := totalSubscriptions st;
     messagesSent := messagesSent st; messagesReceived := messagesReceived st;
     averageConnectionDuration := averageConnectionDuration st;
     peakConnections := peakConnections st; errorRate := errorRate st; uptime := uptime st |}.

Definition stats_with_totalSubscriptions (v : Z) (st : ISubscriptionStats) : ISubscriptionStats :=
  {| activeConnections := activeConnections st; totalSubscriptions := v;
     messagesSent := messagesSent st; messagesReceived := messagesReceived st;
     averageConnectionDuration := averageConnectionDuration st;
     peakConnections := peakConnections st; errorRate := errorRate st; uptime := uptime st |}.

Definition stats_with_messagesSent (v : Z) (st : ISubscriptionStats) : ISubscriptionStats :=
  {| activeConnections := activeConnections st; totalSubscriptions := totalSubscriptions st;
     messagesSent := v; messagesReceived := messagesReceived st;
     averageConnectionDuration := averageConnectionDuration st;
     peakConnections := peakConnections st; errorRate := errorRate st; uptime := uptime st |}.

Definition stats_with_peakConnections (v : Z) (st : ISubscriptionStats) : ISubscriptionStats :=
  {| activeConnections := activeConnections st; totalSubscriptions := totalSubscriptions st;
     messagesSent := messagesSent st; messagesReceived := messagesReceived st;
     averageConnectionDuration := averageConnectionDuration st;
     peakConnections := v; errorRate := errorRate st; uptime := uptime st |}.

(** ** The monad of the async methods: state and exceptions *)

Definition M (A : Type) : Type := State → Completion A * State.

Definition ret {A} (a : A) : M A := λ s, (Normal a, s).

Definition throw {A} (e : string) : M A := λ s, (Throw e, s).

Definition bind {A B} (m : M A) (k : A → M B) : M B :=
  λ s, match m s with
       | (Normal a, s') => k a s'
       | (Throw e, s') => (Throw e, s')
       end.

(** [try { body } catch (error) { handler }] *)
Definition try_catch {A} (body : M A) (handler : string → M A) : M A :=
  λ s, match body s with
       | (Normal a, s') => (Normal a, s')
       | (Throw e, s') => handler e s'
       end.

Definition get : M State := λ s, (Normal s, s).

Definition modify (f : State → State) : M unit := λ s, (Normal tt, f s).

Definition log (l : LogLevel) (msg subj : string) : M unit := modify (write_log l msg subj).

Notation "x <- c1 ;; c2" := (bind c1 (λ x, c2))
  (at level 100, c1 at next level, right associativity).
Notation "c1 ;; c2" := (bind c1 (λ _, c2))
  (at level 100, right associativity).

(** [for (const x of xs) { body }] with the loop's local variables as an
    accumulator; [continue] is returning the accumulator. *)
Fixpoint for_of {A S} (xs : list A) (body : S → A → M S) (acc : S) : M S :=
  match xs with
  | [] => ret acc
  | x :: xs' => acc' <- body acc x ;; for_of xs' body acc'
  end.

(** The same loop, told apart by how it ends: the accumulator as it was when
    the loop was left, and the exception that left it, if one did. *)
Fixpoint for_of_until {A S} (xs : list A) (body : S → A → M S) (acc : S)
    : M (S * option string) :=
  match xs with
  | [] => ret (acc, None)
  | x :: xs' =>
      λ s, match body acc x s with
           | (Normal acc', s') => for_of_until xs' body acc' s'
           | (Throw e, s') => (Normal (acc, Some e), s')
           end
  end.

(** [try { call } catch (error) { handler }] around a call into
    caller-supplied code that ends with [call]. *)
Definition try_call {A} (call : Outcome A) (handler : Thrown → M A) : M A :=
  match call with
  | Returns a => ret a
  | Throws error => handler error
  end.

(** Calling an async function runs its body at once (there is no [await]
    inside [publishToConnection]) and hands back a promise that is already
    fulfilled or rejected: the exception does not reach the caller. *)
Definition settle {A} (m : M A) : M (Completion A) :=
  λ s, let '(c, s') := m s in (Normal c, s').

(** A step that ends with [c] and leaves the state as it is. *)
Definition lift {A} (c : Completion A) : M A := λ s, (c, s).

(** [await Promise.allSettled(promises)], each promise being
    [p.then(() => { successCount++; }).catch(onRejected)]: the reactions run
    in the order the promises were pushed. *)
Fixpoint allSettled (promises : list (string * Completion unit))
    (onRejected : string → string → M unit) (successCount : Z) : M Z :=
  match promises with
  | [] => ret successCount
  | (_, Normal _) :: rest => allSettled rest onRejected (successCount + 1)
  | (connectionId, Throw e) :: rest =>
      onRejected connectionId e ;; allSettled rest onRejected successCount
  end.

(** ** [generateId] *)

Definition digit36 (d : Z) : ascii :=
  nth (Z.to_nat d) (list_ascii_of_string "0123456789abcdefghijklmnopqrstuvwxyz") "0"%char.

Fixpoint digits36 (fuel : nat) (n : Z) (acc : string) : string :=
  match fuel with
  | O => acc
  | S fuel' =>
      let acc' := String (digit36 (n mod 36)) acc in
      if n <? 36 then acc' else digits36 fuel' (n / 36) acc'
  end.

(** [n.toString(36)] for an integer [n]. *)
Definition toString36 (n : Z) : string :=
  if n <? 0 then String "-"%char (digits36 (S (Z.to_nat (Z.log2 (- n)))) (- n) "")
  else digits36 (S (Z.to_nat (Z.log2 n))) n "".

(** [Math.random().toString(36).substring(2) + Date.now().toString(36)].
    [random] is the string [Math.random().toString(36).substring(2)], the
    base-36 digits of the fraction drawn; [now] is [Date.now()]. *)
Definition generateId (random : string) (now : Z) : string :=
  random +:+ toString36 now.

(** ** The methods of [SubscriptionManager] *)

Definition subscribe (random : string) (now : Z) (name : string)
    (resolver : ISubscriptionResolver) (options : option ISubscriptionOptions) : M string :=
  let subscriptionId := generateId random now in
  log LDebug "Creating subscription" subscriptionId ;;
  try_catch
    (modify (set_subscriptions (insert subscriptionId resolver)) ;;
     s <- get ;;
     (match subscriptionConnections s !! name with
      | Some _ => ret tt
      | None => modify (set_subscriptionConnections (insert name []))
      end) ;;
     modify (set_stats (λ st, stats_with_totalSubscriptions (totalSubscriptions st + 1) st)) ;;
     log LInfo "Subscription created successfully" subscriptionId ;;
     ret subscriptionId)
    (λ error,
      log LError "Failed to create subscription" subscriptionId ;;
      throw error).

Definition unsubscribe (subscriptionId : string) : M bool :=
  log LDebug "Unsubscribing" subscriptionId ;;
  try_catch
    (s <- get ;;
     let removed := bool_decide (is_Some (subscriptions s !! subscriptionId)) in
     modify (set_subscriptions (delete subscriptionId)) ;;
     (if removed then
        modify (set_subscriptionConnections (fmap (Set_delete subscriptionId))) ;;
        modify (set_stats (λ st, stats_with_totalSubscriptions (totalSubscriptions st - 1) st)) ;;
        log LInfo "Subscription removed successfully" subscriptionId
      else ret tt) ;;
     ret removed)
    (λ error,
      log LError "Failed to unsubscribe" subscriptionId ;;
      ret false).

Definition publishToConnection {T} (now : Z) (connectionId topic : string)
    (payload : ISubscriptionPayload T) : M unit :=
  s <- get ;;
  match connections s !! connectionId with
  | Some connection =>
      if isActive (heap s connection) then
        modify (set_heap (λ h, store connection (with_lastActivity now (h connection)) h)) ;;
        log LDebug "Published to connection" connectionId
      else throw ("Connection " +:+ connectionId +:+ " is not active")
  | None => throw ("Connection " +:+ connectionId +:+ " is not active")
  end.

(** The body of the [for] loop of [publish]: the call of
    [publishToConnection] runs at once and its promise, with the reactions
    chained on it, is pushed.  [clock connectionId] is what [new Date()]
    gives when the delivery to [connectionId] runs. *)
Definition publish_each {T} (clock : string → Z) (topic : string)
    (payload : ISubscriptionPayload T)
    (publishPromises : list (string * Completion unit)) (connectionId : string)
    : M (list (string * Completion unit)) :=
  p <- settle (publishToConnection (clock connectionId) connectionId topic payload) ;;
  ret (publishPromises ++ [(connectionId, p)])%list.

Definition publish {T} (clock : string → Z) (topic : string)
    (payload : ISubscriptionPayload T) : M Z :=
  log LDebug "Publishing to topic" topic ;;
  try_catch
    (s <- get ;;
     match subscriptionConnections s !! topic with
     | None | Some [] =>
         log LDebug "No subscribers for topic" topic ;;
         ret 0
     | Some connectionIds =>
         publishPromises <- for_of connectionIds (publish_each clock topic payload) [] ;;
         successCount <-
           allSettled publishPromises
             (λ connectionId _, log LWarn "Failed to publish to connection" connectionId) 0 ;;
         modify (set_stats (λ st, stats_with_messagesSent (messagesSent st + successCount) st)) ;;
         log LInfo "Published to subscribers" topic ;;
         ret successCount
     end)
    (λ error,
      log LError "Failed to publish to topic" topic ;;
      throw error).

(** The body of the [for] loop of [publishToSubscribers]; each [continue]
    returns the promises pushed so far.  The handler of the filter's
    exception reads the [message] of what it caught before it logs, and that
    read can throw. *)
Definition publishToSubscribers_each {T} (clock : string → Z) (topic : string)
    (payload : ISubscriptionPayload T) (filter : ISubscriptionFilter T)
    (publishPromises : list (string * Completion unit)) (connectionId : string)
    : M (list (string * Completion unit)) :=
  s <- get ;;
  match connections s !! connectionId with
  | None => ret publishPromises
  | Some connection =>
      shouldPublish <-
        try_call (filter payload (heap s connection))
          (λ filterError,
            _ <- lift (message_of filterError) ;;
            log LWarn "Subscription filter error" connectionId ;;
            ret false) ;;
      if shouldPublish : bool then
        p <- settle (publishToConnection (clock connectionId) connectionId topic payload) ;;
        ret (publishPromises ++ [(connectionId, p)])%list
      else ret publishPromises
  end.

(** An exception that leaves the loop reaches the [catch] of the method,
    which logs it and throws it again: the call rejects before it comes to
    [Promise.allSettled], so the candidates after the one that threw are not
    looked at and [messagesSent] is not written.  The promises pushed before
    have their reactions run once the call has rejected; the state given is
    the one they leave. *)
Definition publishToSubscribers {T} (clock : string → Z) (topic : string)
    (payload : ISubscriptionPayload T) (filter : ISubscriptionFilter T) : M Z :=
  log LDebug "Publishing to filtered subscribers" topic ;;
  s <- get ;;
  match subscriptionConnections s !! topic with
  | None | Some [] => ret 0
  | Some connectionIds =>
      loop <-
        for_of_until connectionIds (publishToSubscribers_each clock topic payload filter) [] ;;
      match loop with
      | (publishPromises, None) =>
          successCount <-
            allSettled publishPromises
              (λ connectionId _,
                 log LWarn "Failed to publish to filtered connection" connectionId) 0 ;;
          modify (set_stats (λ st, stats_with_messagesSent (messagesSent st + successCount) st)) ;;
          log LInfo "Published to filtered subscribers" topic ;;
          ret successCount
      | (publishPromises, Some error) =>
          log LError "Failed to publish to filtered subscribers" topic ;;
          allSettled publishPromises
            (λ connectionId _,
               log LWarn "Failed to publish to filtered connection" connectionId) 0 ;;
          throw error
      end
  end.

(** [new Map(this.connections)]: a copy of the map, holding the same records. *)
Definition getConnections (s : State) : gmap string ref := connections s.

Definition getConnection (connectionId : string) (s : State) : option ISubscriptionConnection :=
  heap s <$> connections s !! connectionId.

(** The body of the [for] loop of [closeConnection].  [closeConnection]
    below is the call when no other call runs between its [await]s; the
    stretches between them come after the methods. *)
Definition closeConnection_each (_ : unit) (subscriptionId : string) : M unit :=
  _ <- unsubscribe subscriptionId ;; ret tt.

Definition closeConnection (connectionId : string) : M bool :=
  log LDebug "Closing connection" connectionId ;;
  try_catch
    (s <- get ;;
     match connections s !! connectionId with
     | None => ret false
     | Some connection =>
         modify (set_heap (λ h, store connection (with_isActive false (h connection)) h)) ;;
         s' <- get ;;
         for_of (Connection.subscriptions (heap s' connection)) closeConnection_each tt ;;
         modify (set_connections (delete connectionId)) ;;
         modify (set_stats (λ st, stats_with_activeConnections (activeConnections st - 1) st)) ;;
         log LInfo "Connection closed" connectionId ;;
         ret true
     end)
    (λ error,
      log LError "Failed to close connection" connectionId ;;
      ret false).

Definition getStats (s : State) : ISubscriptionStats := stats s.

Definition Qgtb (x y : Q) : bool := negb (Qle_bool x y).

(** The double that the literal [0.1] denotes. *)
Definition double_0_1 : Q := 3602879701896397 # 36028797018963968.

Definition calculateAverageLatency : Z := 50.

(** [now] is [Date.now()] and [heapUsed] is [process.memoryUsage().heapUsed],
    a byte count. *)
Definition healthCheck (now heapUsed : Z) : M ISubscriptionHealth :=
  s <- get ;;
  let staleConnections :=
    Z.of_nat (length (filter (λ kv, 300000 < now - lastActivity (heap s kv.2))
                             (map_to_list (connections s)))) in
  let warnings1 :=
    if 0 <? staleConnections then [StaleConnectionsDetected staleConnections] else [] in
  let errors :=
    if Qgtb (errorRate (stats s)) double_0_1 then [HighErrorRate (errorRate (stats s))] else [] in
  let memoryUsage := (inject_Z heapUsed / 1024 / 1024)%Q in
  let warnings2 :=
    if Qgtb memoryUsage 512 then (warnings1 ++ [HighMemoryUsage memoryUsage])%list else warnings1 in
  let healthy := bool_decide (length errors = 0%nat) in
  let latency := calculateAverageLatency in
  ret {| healthy := healthy;
         health_connections := activeConnections (stats s);
         memoryUsage := memoryUsage;
         latency := latency;
         errors := errors;
         warnings := warnings2 |}.

Definition registerConnection (connection : ref) : M unit :=
  s <- get ;;
  modify (set_connections (insert (id (heap s connection)) connection)) ;;
  modify (set_stats (λ st, stats_with_activeConnections (activeConnections st + 1) st)) ;;
  modify (set_stats (λ st, stats_with_peakConnections (Z.max (peakConnections st) (activeConnections st)) st)) ;;
  log LInfo "Connection registered" (id (heap s connection)).

Definition addSubscriptionToConnection (connectionId subscriptionId topic : string) : M unit :=
  s <- get ;;
  match connections s !! connectionId with
  | Some connection =>
      modify (set_heap (λ h, store connection (with_subscriptions (Set_add subscriptionId) (h connection)) h)) ;;
      s' <- get ;;
      let topicConnections := default [] (subscriptionConnections s' !! topic) in
      modify (set_subscriptionConnections (insert topic (Set_add connectionId topicConnections)))
  | None => ret tt
  end.

(** ** The methods between their [await]s

    [closeConnection] awaits each [unsubscribe] of its loop, and [publish]
    and [publishToSubscribers] await [Promise.allSettled].  When the caller
    does not await one call before making the next, other calls run between
    the stretches of a call.  The definitions above give a call that nothing
    runs into; here are its stretches.  A call on hold at an [await] is the
    data that the rest of it needs. *)

Inductive Value := VBoolean (b : bool) | VNumber (n : Z).

Inductive Task :=
| Closing (connectionId : string) (connection : ref) (visited : nat)
| Publishing (filtered : bool) (topic : string)
    (publishPromises : list (string * Completion unit)).

(** The loop of [closeConnection] and what follows it, up to the next
    [await].  The iterator of [connection.subscriptions] goes by position:
    [visited] ids have been through the loop, and an id added to the set
    meanwhile is come to as well.  Nothing in the [try] throws,
    [unsubscribe] catching what it throws, so the [catch] is never
    entered. *)
Definition closeConnection_loop (connectionId : string) (connection : ref) (visited : nat)
    : M (Value + Task) :=
  s <- get ;;
  match Connection.subscriptions (heap s connection) !! visited with
  | Some subscriptionId =>
      _ <- unsubscribe subscriptionId ;;
      ret (inr (Closing connectionId connection (S visited)))
  | None =>
      modify (set_connections (delete connectionId)) ;;
      modify (set_stats (λ st, stats_with_activeConnections (activeConnections st - 1) st)) ;;
      log LInfo "Connection closed" connectionId ;;
      ret (inl (VBoolean true))
  end.

Definition closeConnection_begin (connectionId : string) : M (Value + Task) :=
  log LDebug "Closing connection" connectionId ;;
  s <- get ;;
  match connections s !! connectionId with
  | None => ret (inl (VBoolean false))
  | Some connection =>
      modify (set_heap (λ h, store connection (with_isActive false (h connection)) h)) ;;
      closeConnection_loop connectionId connection 0
  end.

Definition publish_begin {T} (clock : string → Z) (topic : string)
    (payload : ISubscriptionPayload T) : M (Value + Task) :=
  log LDebug "Publishing to topic" topic ;;
  s <- get ;;
  match subscriptionConnections s !! topic with
  | None | Some [] =>
      log LDebug "No subscribers for topic" topic ;;
      ret (inl (VNumber 0))
  | Some connectionIds =>
      publishPromises <- for_of connectionIds (publish_each clock topic payload) [] ;;
      ret (inr (Publishing false topic publishPromises))
  end.

(** When the loop is left by an exception the call rejects without coming
    to an [await]. *)
Definition publishToSubscribers_begin {T} (clock : string → Z) (topic : string)
    (payload : ISubscriptionPayload T) (filter : ISubscriptionFilter T) : M (Value + Task) :=
  log LDebug "Publishing to filtered subscribers" topic ;;
  s <- get ;;
  match subscriptionConnections s !! topic with
  | None | Some [] => ret (inl (VNumber 0))
  | Some connectionIds =>
      loop <-
        for_of_until connectionIds (publishToSubscribers_each clock topic payload filter) [] ;;
      match loop with
      | (publishPromises, None) => ret (inr (Publishing true topic publishPromises))
      | (publishPromises, Some error) =>
          log LError "Failed to publish to filtered subscribers" topic ;;
          allSettled publishPromises
            (λ connectionId _,
               log LWarn "Failed to publish to filtered connection" connectionId) 0 ;;
          throw error
      end
  end.

(** A call on hold runs on to its next [await] or to its end.  The
    reactions of the promises awaited write to the log only; they are run
    with what follows the [await]. *)
Definition resume (task : Task) : M (Value + Task) :=
  match task with
  | Closing connectionId connection visited =>
      closeConnection_loop connectionId connection visited
  | Publishing filtered topic publishPromises =>
      successCount <-
        allSettled publishPromises
          (λ connectionId _,
             log LWarn (if filtered then "Failed to publish to filtered connection"
                        else "Failed to publish to connection") connectionId) 0 ;;
      modify (set_stats (λ st, stats_with_messagesSent (messagesSent st + successCount) st)) ;;
      log LInfo (if filtered then "Published to filtered subscribers"
                 else "Published to subscribers") topic ;;
      ret (inl (VNumber successCount))
  end.

(** The call with nothing between its stretches: at most [awaits] of
    them. *)
Fixpoint resume_alone (awaits : nat) (task : Task) : M (Value + Task) :=
  match awaits with
  | O => ret (inr task)
  | S awaits =>
      next <- resume task ;;
      match next with
      | inl value => ret (inl value)
      | inr task => resume_alone awaits task
      end
  end.

(** ** Running the methods *)

(** The state a call leaves behind. *)
Definition exec {A} (m : M A) (s : State) : State := (m s).2.

(** A call of [subscribe] or [unsubscribe], with what the id generator reads
    from the environment. *)
Inductive Call :=
| CallSubscribe (random : string) (now : Z) (name : string)
    (resolver : ISubscriptionResolver) (options : option ISubscriptionOptions)
| CallUnsubscribe (subscriptionId : string).

Definition call (_ : unit) (c : Call) : M unit :=
  match c with
  | CallSubscribe random now name resolver options =>
      _ <- subscribe random now name resolver options ;; ret tt
  | CallUnsubscribe subscriptionId =>
      _ <- unsubscribe subscriptionId ;; ret tt
  end.

Definition run_calls (calls : list Call) : M unit := for_of calls call tt.

(** ** Vocabulary of the statements *)

(** The connection ids in the topic's set, [[]] when the topic has none. *)
Definition subscribers (s : State) (topic : string) : list string :=
  default [] (subscriptionConnections s !! topic).

Definition live_subscriptions (s : State) : Z := Z.of_nat (size (subscriptions s)).

(** [publishToConnection] would succeed: the id is registered and its record
    is active. *)
Definition deliverable (s : State) (connectionId : string) : bool :=
  match connections s !! connectionId with
  | Some connection => isActive (heap s connection)
  | None => false
  end.

Definition not_active_error (connectionId : string) : string :=
  "Connection " +:+ connectionId +:+ " is not active".

Definition delivery_outcome (s : State) (connectionId : string) : Completion unit :=
  if deliverable s connectionId then Normal tt else Throw (not_active_error connectionId).

Definition fulfilled (p : string * Completion unit) : bool :=
  match p.2 with Normal _ => true | Throw _ => false end.

(** The caller's filter returns [true] on the record of [connectionId]. *)
Definition filter_passes {T} (filter : ISubscriptionFilter T) (payload : ISubscriptionPayload T)
    (s : State) (connectionId : string) : bool :=
  match connections s !! connectionId with
  | Some connection =>
      match filter payload (heap s connection) with
      | Returns b => b
      | Throws _ => false
      end
  | None => false
  end.

(** What the handler of the filter's exception throws on [connectionId]:
    the filter throws on its record, and the [message] of what it threw
    cannot be read. *)
Definition filter_error {T} (filter : ISubscriptionFilter T) (payload : ISubscriptionPayload T)
    (s : State) (connectionId : string) : option string :=
  match connections s !! connectionId with
  | Some connection =>
      match filter payload (heap s connection) with
      | Returns _ => None
      | Throws error =>
          match message_of error with Normal _ => None | Throw e => Some e end
      end
  | None => None
  end.

(** The candidates before the first one on which the handler throws: all of
    them when there is none. *)
Fixpoint tested {T} (filter : ISubscriptionFilter T) (payload : ISubscriptionPayload T)
    (s : State) (connectionIds : list string) : list string :=
  match connectionIds with
  | [] => []
  | connectionId :: rest =>
      match filter_error filter payload s connectionId with
      | Some _ => []
      | None => connectionId :: tested filter payload s rest
      end
  end.

(** What the handler throws on that first candidate. *)
Fixpoint rejection {T} (filter : ISubscriptionFilter T) (payload : ISubscriptionPayload T)
    (s : State) (connectionIds : list string) : option string :=
  match connectionIds with
  | [] => None
  | connectionId :: rest =>
      match filter_error filter payload s connectionId with
      | Some e => Some e
      | None => rejection filter payload s rest
      end
  end.

Definition selected {T} (filter : ISubscriptionFilter T) (payload : ISubscriptionPayload T)
    (s : State) (connectionId : string) : bool :=
  filter_passes filter payload s connectionId && deliverable s connectionId.

(** What the loop of [publishToSubscribers] pushes for one candidate. *)
Definition pushed {T} (filter : ISubscriptionFilter T) (payload : ISubscriptionPayload T)
    (s : State) (connectionId : string) : list (string * Completion unit) :=
  if filter_passes filter payload s connectionId
  then [(connectionId, delivery_outcome s connectionId)] else [].

Definition published_entry (connectionId : string) : LogEntry :=
  {| level := LDebug; message := "Published to connection"; subject := connectionId |}.

Definition filter_error_entry (connectionId : string) : LogEntry :=
  {| level := LWarn; message := "Subscription filter error"; subject := connectionId |}.


(** The record [after] is the record [before] with [isActive] set to [b]:
    field by field. *)
Definition isActive_only (b : bool) (before after : ISubscriptionConnection) : Prop :=
  isActive after = b
  ∧ id after = id before
  ∧ userId after = userId before
  ∧ startTime after = startTime before
  ∧ lastActivity after = lastActivity before
  ∧ Connection.subscriptions after = Connection.subscriptions before
  ∧ metadata after = metadata before.


(** Everything but the object store and the log is the same. *)
Definition same_tables (s s' : State) : Prop :=
  subscriptions s' = subscriptions s ∧ connections s' = connections s
  ∧ subscriptionConnections s' = subscriptionConnections s ∧ stats s' = stats s.

Definition log_extends (s s' : State) : Prop := ∃ more, logger s' = (logger s ++ more)%list.

(** Every counter but [totalSubscriptions] is the same. *)
Definition same_stats_but_total (st st' : ISubscriptionStats) : Prop :=
  activeConnections st' = activeConnections st
  ∧ messagesSent st' = messagesSent st
  ∧ messagesReceived st' = messagesReceived st
  ∧ averageConnectionDuration st' = averageConnectionDuration st
  ∧ peakConnections st' = peakConnections st
  ∧ errorRate st' = errorRate st
  ∧ uptime st' = uptime st.

(** No [subscribe] of the sequence draws an id that is live when it runs. *)
Fixpoint fresh_ids (calls : list Call) (s : State) : bool :=
  match calls with
  | [] => true
  | c :: rest =>
      match c with
      | CallSubscribe random now _ _ _ =>
          bool_decide (subscriptions s !! generateId random now = None)
      | CallUnsubscribe _ => true
      end && fresh_ids rest (exec (call tt c) s)
  end.

(** The representation invariant: a JS Set holds no element twice, and a
    record is stored under its own [id] ([registerConnection] is the only
    writer of [connections], and nothing writes [id]). *)
Definition topics_NoDup (s : State) : Prop :=
  map_Forall (λ _ members, NoDup members) (subscriptionConnections s).

Definition well_formed (s : State) : Prop :=
  topics_NoDup s
  ∧ map_Forall (λ connectionId connection, id (heap s connection) = connectionId) (connections s).

#[global] Instance well_formed_dec (s : State) : Decision (well_formed s).
Proof. unfold well_formed, topics_NoDup. apply _. Defined.


(** The connections [healthCheck] finds stale at time [now]. *)
Definition stale_connections (now : Z) (s : State) : Z :=
  Z.of_nat (length (filter (λ kv, 300000 < now - lastActivity (heap s kv.2))
                           (map_to_list (connections s)))).

(** Reading base 36 back, to tell timestamps apart by their digits. *)
Definition alphabet36 : list ascii :=
  list_ascii_of_string "0123456789abcdefghijklmnopqrstuvwxyz".

Definition value36 (c : ascii) : Z :=
  match list_find (λ x, x = c) alphabet36 with
  | Some (i, _) => Z.of_nat i
  | None => 0
  end.

Definition parse36 (s : string) : Z :=
  fold_left (λ acc c, acc * 36 + value36 c) (list_ascii_of_string s) 0.

(** ** Scenarios *)

Definition connection_record (i : string) (active : bool) : ISubscriptionConnection :=
  {| id := i; userId := None; startTime := 0; lastActivity := 0;
     Connection.subscriptions := []; metadata := ∅; isActive := active |}.

(** Three active connection records [c1], [c2], [c3] behind references 0, 1
    and 2, and an inactive [c4] behind every other one. *)
Definition objects : ref → ISubscriptionConnection := λ r,
  match r with
  | 0%nat => connection_record "c1" true
  | 1%nat => connection_record "c2" true
  | 2%nat => connection_record "c3" true
  | _ => connection_record "c4" false
  end.

Definition resolver0 : ISubscriptionResolver :=
  {| subscribe_handle := 0; has_resolve := false; has_filter := false |}.

Definition payload0 : ISubscriptionPayload Z := {| data := 1; payload_metadata := None |}.

Definition options_max2 : ISubscriptionOptions := {|
  bufferSize := None; keepAlive := None; keepAliveInterval := None;
  connectionTimeout := None; maxConnections := Some 2;
  enableCompression := None; enableBatching := None
|}.

Definition clock0 (connectionId : string) : Z :=
  1700000000100 + Z.of_nat (String.length connectionId).

Definition s_empty : State := new_SubscriptionManager 1700000000000 objects.

(** A subscription made with [maxConnections: 2], then [c1] and [c2]
    registered. *)
Definition s_two : State :=
  exec (subscribe "a7" 1700000000000 "orders" resolver0 (Some options_max2) ;;
        registerConnection 0%nat ;; registerConnection 1%nat) s_empty.

Definition sub_a : string := generateId "a7" 1700000000000.
Definition sub_b : string := generateId "b7" 1700000000001.
Definition sub_c : string := generateId "c7" 1700000000002.

(** Subscriptions A, B, C on "orders", each linked to a connection of its
    own. *)
Definition s_orders : State :=
  exec (registerConnection 0%nat ;; registerConnection 1%nat ;; registerConnection 2%nat ;;
        subscribe "a7" 1700000000000 "orders" resolver0 None ;;
        subscribe "b7" 1700000000001 "orders" resolver0 None ;;
        subscribe "c7" 1700000000002 "orders" resolver0 None ;;
        addSubscriptionToConnection "c1" sub_a "orders" ;;
        addSubscriptionToConnection "c2" sub_b "orders" ;;
        addSubscriptionToConnection "c3" sub_c "orders") s_empty.

(** Subscriptions A, B, C on "orders", all three linked to connection [c1]. *)
Definition s_shared : State :=
  exec (registerConnection 0%nat ;;
        subscribe "a7" 1700000000000 "orders" resolver0 None ;;
        subscribe "b7" 1700000000001 "orders" resolver0 None ;;
        subscribe "c7" 1700000000002 "orders" resolver0 None ;;
        addSubscriptionToConnection "c1" sub_a "orders" ;;
        addSubscriptionToConnection "c1" sub_b "orders" ;;
        addSubscriptionToConnection "c1" sub_c "orders") s_empty.

(** Connection [c1] linked on "orders" under a subscription id that was never
    subscribed and that spells like the connection's own id. *)
Definition s_clash : State :=
  exec (registerConnection 0%nat ;;
        addSubscriptionToConnection "c1" "c1" "orders") s_empty.



Definition calls0 : list Call :=
  [CallSubscribe "a7" 1700000000000 "orders" resolver0 None;
   CallSubscribe "b7" 1700000000001 "payments" resolver0 None;
   CallUnsubscribe sub_a].

(** * Sequences of calls on the manager *)

Local Open Scope list_scope.

(** One call of a method of [SubscriptionManager], with what it reads from
    its environment. *)
Inductive Method (T : Type) :=
| DoSubscribe (random : string) (now : Z) (name : string)
    (resolver : ISubscriptionResolver) (options : option ISubscriptionOptions)
| DoUnsubscribe (subscriptionId : string)
| DoPublish (clock : string → Z) (topic : string) (payload : ISubscriptionPayload T)
| DoPublishToSubscribers (clock : string → Z) (topic : string)
    (payload : ISubscriptionPayload T) (filter : ISubscriptionFilter T)
| DoCloseConnection (connectionId : string)
| DoHealthCheck (now heapUsed : Z)
| DoRegisterConnection (connection : ref)
| DoAddSubscriptionToConnection (connectionId subscriptionId topic : string).
Arguments DoSubscribe {T} _ _ _ _ _.
Arguments DoUnsubscribe {T} _.
Arguments DoPublish {T} _ _ _.
Arguments DoPublishToSubscribers {T} _ _ _ _.
Arguments DoCloseConnection {T} _.
Arguments DoHealthCheck {T} _ _.
Arguments DoRegisterConnection {T} _.
Arguments DoAddSubscriptionToConnection {T} _ _ _.

(** The state the call leaves behind. *)
Definition invoke {T} (m : Method T) (s : State) : State :=
  match m with
  | DoSubscribe random now name resolver options =>
      exec (subscribe random now name resolver options) s
  | DoUnsubscribe subscriptionId => exec (unsubscribe subscriptionId) s
  | DoPublish clock topic payload => exec (publish clock topic payload) s
  | DoPublishToSubscribers clock topic payload filter =>
      exec (publishToSubscribers clock topic payload filter) s
  | DoCloseConnection connectionId => exec (closeConnection connectionId) s
  | DoHealthCheck now heapUsed => exec (healthCheck now heapUsed) s
  | DoRegisterConnection connection => exec (registerConnection connection) s
  | DoAddSubscriptionToConnection connectionId subscriptionId topic =>
      exec (addSubscriptionToConnection connectionId subscriptionId topic) s
  end.

Definition run_methods {T} (methods : list (Method T)) (s : State) : State :=
  fold_left (λ s m, invoke m s) methods s.

(** Calls that overlap.  A world is the manager, the calls on hold at an
    [await], and what the calls of [closeConnection] have returned so far,
    oldest first.  An event starts a call, which runs to its first [await]
    or to its end, or lets the [i]-th call on hold run on to its next
    [await] or to its end.  The methods without an [await] run whole. *)
Record World := {
  manager : State;
  on_hold : list Task;
  closed : list (string * bool)
}.

Inductive Event (T : Type) :=
| Started (m : Method T)
| Resumed (i : nat).
Arguments Started {T} _.
Arguments Resumed {T} _.

Definition closing_id (task : Task) : option string :=
  match task with
  | Closing connectionId _ _ => Some connectionId
  | Publishing _ _ _ => None
  end.

(** One stretch of a call: [others] are the other calls on hold, and
    [closing] is the id the call is closing, if it is a [closeConnection]. *)
Definition stretch (closing : option string) (call : M (Value + Task)) (others : list Task)
    (w : World) : World :=
  match call (manager w) with
  | (Normal (inr task), s) =>
      {| manager := s; on_hold := others ++ [task]; closed := closed w |}
  | (Normal (inl (VBoolean b)), s) =>
      {| manager := s; on_hold := others;
         closed := closed w ++ match closing with
                               | Some connectionId => [(connectionId, b)]
                               | None => []
                               end |}
  | (_, s) => {| manager := s; on_hold := others; closed := closed w |}
  end.

Definition step {T} (e : Event T) (w : World) : World :=
  match e with
  | Started (DoCloseConnection connectionId) =>
      stretch (Some connectionId) (closeConnection_begin connectionId) (on_hold w) w
  | Started (DoPublish clock topic payload) =>
      stretch None (publish_begin clock topic payload) (on_hold w) w
  | Started (DoPublishToSubscribers clock topic payload filter) =>
      stretch None (publishToSubscribers_begin clock topic payload filter) (on_hold w) w
  | Started m => {| manager := invoke m (manager w); on_hold := on_hold w; closed := closed w |}
  | Resumed i =>
      match on_hold w !! i with
      | Some task => stretch (closing_id task) (resume task) (delete i (on_hold w)) w
      | None => w
      end
  end.

Definition run {T} (events : list (Event T)) (w : World) : World :=
  fold_left (λ w e, step e w) events w.

(** The manager with no call on hold. *)
Definition at_rest (s : State) : World := {| manager := s; on_hold := []; closed := [] |}.

(** No [closeConnection] of an id is started while an earlier one of the
    same id is on hold. *)
Fixpoint closes_apart {T} (events : list (Event T)) (w : World) : bool :=
  match events with
  | [] => true
  | e :: rest =>
      match e with
      | Started (DoCloseConnection connectionId) =>
          bool_decide (connectionId ∉ omap closing_id (on_hold w))
      | _ => true
      end && closes_apart rest (step e w)
  end.

(** The last stretch of [closeConnection]: what it leaves. *)
Definition closed_state (connectionId : string) (s : State) : State :=
  write_log LInfo "Connection closed" connectionId
    (set_stats (λ st, stats_with_activeConnections (activeConnections st - 1) st)
       (set_connections (delete connectionId) s)).

Definition is_closing (task : Task) : Prop := is_Some (closing_id task).

(** How the counters may move in one call: the four that nothing writes
    stay, the two monotonic ones do not fall. *)
Definition stats_evolve (st st' : ISubscriptionStats) : Prop :=
  errorRate st' = errorRate st
  ∧ messagesReceived st' = messagesReceived st
  ∧ averageConnectionDuration st' = averageConnectionDuration st
  ∧ uptime st' = uptime st
  ∧ peakConnections st ≤ peakConnections st'
  ∧ messagesSent st ≤ messagesSent st'.

(** The gauges never undercount: there are at least as many registrations
    counted as records held, at least as many subscriptions counted as
    resolvers held, and the peak is at least the current count. *)
Definition gauges_cover (s : State) : Prop :=
  Z.of_nat (size (connections s)) ≤ activeConnections (stats s)
  ∧ Z.of_nat (size (subscriptions s)) ≤ totalSubscriptions (stats s)
  ∧ activeConnections (stats s) ≤ peakConnections (stats s).

(** The gauges cover, no two calls of [closeConnection] on hold are closing
    one id, and every id that is being closed is still registered. *)
Definition closes_cover (w : World) : Prop :=
  gauges_cover (manager w)
  ∧ NoDup (omap closing_id (on_hold w))
  ∧ ∀ connectionId, connectionId ∈ omap closing_id (on_hold w) →
      is_Some (connections (manager w) !! connectionId).

(** * QueryComplexityAnalyzer

    The class walks a parsed document with graphql-js [visit], which calls
    the visitor's [enter] on a node, walks the node's children in order and
    then calls its [leave].  Only what the class's visitors look at is kept
    of the AST: definitions, selection sets, and on a field its name and its
    arguments.  [Field] nodes occur in selection sets and nowhere else. *)

#[local] Unset Elimination Schemes.
Inductive SelectionNode :=
| FieldNode (name : string) (arguments : list string) (selectionSet : list SelectionNode)
| FragmentSpreadNode (name : string)
| InlineFragmentNode (selectionSet : list SelectionNode).
#[local] Set Elimination Schemes.

Inductive OperationTypeNode := OperationQuery | OperationMutation | OperationSubscription.

Inductive DefinitionNode :=
| OperationDefinitionNode (operation : OperationTypeNode) (name : option string)
    (selectionSet : list SelectionNode)
| FragmentDefinitionNode (name : string) (selectionSet : list SelectionNode)
| TypeSystemDefinitionNode.

Definition DocumentNode : Type := list DefinitionNode.

(** A visitor, with the state its callbacks close over.  None of the
    callbacks of the class returns a value, so the walk is never cut short. *)
Record Visitor (S : Type) := {
  OperationDefinition_enter : DefinitionNode → S → S;
  Field_enter : string → list string → S → S;
  Field_leave : S → S;
  FragmentSpread_enter : S → S;
  InlineFragment_enter : S → S
}.
Arguments OperationDefinition_enter {S} _ _ _.
Arguments Field_enter {S} _ _ _ _.
Arguments Field_leave {S} _ _.
Arguments FragmentSpread_enter {S} _ _.
Arguments InlineFragment_enter {S} _ _.

Fixpoint visit_selection {S} (visitor : Visitor S) (node : SelectionNode) (s : S) : S :=
  match node with
  | FieldNode name arguments selectionSet =>
      Field_leave visitor
        ((fix visit_all (nodes : list SelectionNode) (s : S) : S :=
            match nodes with
            | [] => s
            | child :: rest => visit_all rest (visit_selection visitor child s)
            end) selectionSet (Field_enter visitor name arguments s))
  | FragmentSpreadNode _ => FragmentSpread_enter visitor s
  | InlineFragmentNode selectionSet =>
      (fix visit_all (nodes : list SelectionNode) (s : S) : S :=
         match nodes with
         | [] => s
         | child :: rest => visit_all rest (visit_selection visitor child s)
         end) selectionSet (InlineFragment_enter visitor s)
  end.

Definition visit_selections {S} (visitor : Visitor S) (nodes : list SelectionNode) (s : S) : S :=
  fold_left (λ s child, visit_selection visitor child s) nodes s.

Definition visit_definition {S} (visitor : Visitor S) (node : DefinitionNode) (s : S) : S :=
  match node with
  | OperationDefinitionNode _ _ selectionSet =>
      visit_selections visitor selectionSet (OperationDefinition_enter visitor node s)
  | FragmentDefinitionNode _ selectionSet => visit_selections visitor selectionSet s
  | TypeSystemDefinitionNode => s
  end.

(** [visit(document, visitor)] *)
Definition visit {S} (visitor : Visitor S) (document : DocumentNode) (s : S) : S :=
  fold_left (λ s definition, visit_definition visitor definition s) document s.

(** [s.endsWith(searchString)] and [s.includes(searchString)] *)
Fixpoint endsWith (s searchString : string) : bool :=
  String.eqb s searchString
  || match s with
     | EmptyString => false
     | String _ rest => endsWith rest searchString
     end.

Fixpoint includes (s searchString : string) : bool :=
  String.prefix searchString s
  || match s with
     | EmptyString => false
     | String _ rest => includes rest searchString
     end.

(** [Math.round]: the nearest integer, a half going up. *)
Definition Math_round (x : Q) : Z := Qfloor (x + (1 # 2)).

(** The [Field.enter] callback of [calculateComplexity].  Every value it
    handles is a multiple of one half, which doubles hold exactly. *)
Definition complexity_Field_enter (name : string) (arguments : list string) (complexity : Q) : Q :=
  let complexity := (complexity + 1)%Q in
  let complexity :=
    if (0 <? length arguments)%nat
    then (complexity + inject_Z (Z.of_nat (length arguments)) * (1 # 2))%Q
    else complexity in
  let complexity :=
    if endsWith name "s" || includes name "list" || includes name "all"
    then (complexity + 2)%Q else complexity in
  let complexity :=
    if includes name "connection" || includes name "edges"
    then (complexity + 3)%Q else complexity in
  complexity.

Definition calculateComplexity (document : DocumentNode) : Z :=
  Math_round
    (visit {| OperationDefinition_enter := λ _ complexity, complexity;
              Field_enter := complexity_Field_enter;
              Field_leave := λ complexity, complexity;
              FragmentSpread_enter := λ complexity, (complexity + 1)%Q;
              InlineFragment_enter := λ complexity, (complexity + (1 # 2))%Q |}
       document 0%Q).

(** [calculateNodeDepth(node, currentDepth)] of [calculateDepth]; the state
    of its visitor is [depth], local to the call, and [maxDepth], shared by
    all the calls.  It returns [depth]. *)
Definition calculateNodeDepth (node : DefinitionNode) (currentDepth maxDepth : Z) : Z * Z :=
  visit_definition
    {| OperationDefinition_enter := λ _ s, s;
       Field_enter := λ _ _ '(depth, maxDepth), (depth + 1, maxDepth);
       Field_leave := λ '(depth, maxDepth), (depth - 1, Z.max maxDepth depth);
       FragmentSpread_enter := λ s, s;
       InlineFragment_enter := λ s, s |}
    node (currentDepth, maxDepth).

Definition calculateDepth (document : DocumentNode) : Z :=
  visit {| OperationDefinition_enter := λ node maxDepth, (calculateNodeDepth node 0 maxDepth).2;
           Field_enter := λ _ _ maxDepth, maxDepth;
           Field_leave := λ maxDepth, maxDepth;
           FragmentSpread_enter := λ maxDepth, maxDepth;
           InlineFragment_enter := λ maxDepth, maxDepth |}
    document 0.

Definition countFields (document : DocumentNode) : Z :=
  visit {| OperationDefinition_enter := λ _ fieldCount, fieldCount;
           Field_enter := λ _ _ fieldCount, fieldCount + 1;
           Field_leave := λ fieldCount, fieldCount;
           FragmentSpread_enter := λ fieldCount, fieldCount;
           InlineFragment_enter := λ fieldCount, fieldCount |}
    document 0.

(** A number that a caller sets as a limit: a finite double is the rational
    it stands for. *)
Inductive JsNumber := Finite (q : Q) | PlusInfinity | MinusInfinity | NaN.

(** [x > limit] for an integer [x] and a limit that is a number or
    [undefined], which is [None]: [undefined] compares as [NaN], and every
    comparison with [NaN] is [false]. *)
Definition exceeds (x : Z) (limit : option JsNumber) : bool :=
  match limit with
  | Some (Finite q) => Qgtb (inject_Z x) q
  | Some MinusInfinity => true
  | Some PlusInfinity | Some NaN | None => false
  end.

(** The properties are declared [number]; a spread of a partial record can
    leave [undefined] in one, which is [None]. *)
Record IPerformanceThresholds := {
  maxQueryComplexity : option JsNumber;
  maxQueryDepth : option JsNumber;
  slowQueryThreshold : option JsNumber;
  maxMemoryUsage : option JsNumber;
  maxConcurrentQueries : option JsNumber;
  dataLoaderBatchThreshold : option JsNumber
}.

(** [Partial<IPerformanceThresholds>]: [None] is a property that is not
    there, [Some None] one that is there with the value [undefined]. *)
Module Partial.
Record IPerformanceThresholds := {
  maxQueryComplexity : option (option JsNumber);
  maxQueryDepth : option (option JsNumber);
  slowQueryThreshold : option (option JsNumber);
  maxMemoryUsage : option (option JsNumber);
  maxConcurrentQueries : option (option JsNumber);
  dataLoaderBatchThreshold : option (option JsNumber)
}.
End Partial.

(** [{ ...thresholds, ...partial }]: every property that is in [partial]
    is copied, whatever its value. *)
Definition spread (thresholds : IPerformanceThresholds) (partial : option Partial.IPerformanceThresholds)
    : IPerformanceThresholds :=
  match partial with
  | None => thresholds
  | Some p =>
      {| maxQueryComplexity := default (maxQueryComplexity thresholds) (Partial.maxQueryComplexity p);
         maxQueryDepth := default (maxQueryDepth thresholds) (Partial.maxQueryDepth p);
         slowQueryThreshold := default (slowQueryThreshold thresholds) (Partial.slowQueryThreshold p);
         maxMemoryUsage := default (maxMemoryUsage thresholds) (Partial.maxMemoryUsage p);
         maxConcurrentQueries :=
           default (maxConcurrentQueries thresholds) (Partial.maxConcurrentQueries p);
         dataLoaderBatchThreshold :=
           default (dataLoaderBatchThreshold thresholds) (Partial.dataLoaderBatchThreshold p) |}
  end.

(** The thresholds as the partial record that sets every property. *)
Definition all_of (thresholds : IPerformanceThresholds) : Partial.IPerformanceThresholds :=
  {| Partial.maxQueryComplexity := Some (maxQueryComplexity thresholds);
     Partial.maxQueryDepth := Some (maxQueryDepth thresholds);
     Partial.slowQueryThreshold := Some (slowQueryThreshold thresholds);
     Partial.maxMemoryUsage := Some (maxMemoryUsage thresholds);
     Partial.maxConcurrentQueries := Some (maxConcurrentQueries thresholds);
     Partial.dataLoaderBatchThreshold := Some (dataLoaderBatchThreshold thresholds) |}.

Definition defaultThresholds : IPerformanceThresholds :=
  {| maxQueryComplexity := Some (Finite 100); maxQueryDepth := Some (Finite 10);
     slowQueryThreshold := Some (Finite 1000); maxMemoryUsage := Some (Finite 512);
     maxConcurrentQueries := Some (Finite 100);
     dataLoaderBatchThreshold := Some (Finite 10) |}.

Inductive ViolationType :=
| ViolationComplexity | ViolationDepth | ViolationFieldCount | ViolationTime | ViolationMemory.

(** The source also builds a message string around the two numbers. *)
Record IThresholdViolation := {
  violation_type : ViolationType;
  violation_value : Z;
  violation_threshold : option JsNumber
}.

Module QueryValidation.
Record IQueryValidationResult := {
  valid : bool;
  complexity : Z;
  depth : Z;
  fieldCount : Z;
  violations : list IThresholdViolation;
  (** each warning is "High field count: n", kept as [n] *)
  warnings : list Z
}.
End QueryValidation.

(** [variables] is passed along and never read. *)
Definition validateQuery (document : DocumentNode) (variables : option (gmap string string))
    (thresholds : option Partial.IPerformanceThresholds)
    : QueryValidation.IQueryValidationResult :=
  let effectiveThresholds := spread defaultThresholds thresholds in
  let complexity := calculateComplexity document in
  let depth := calculateDepth document in
  let fieldCount := countFields document in
  let violations :=
    if exceeds complexity (maxQueryComplexity effectiveThresholds)
    then [{| violation_type := ViolationComplexity; violation_value := complexity;
             violation_threshold := maxQueryComplexity effectiveThresholds |}]
    else [] in
  let violations :=
    if exceeds depth (maxQueryDepth effectiveThresholds)
    then (violations ++ [{| violation_type := ViolationDepth; violation_value := depth;
                            violation_threshold := maxQueryDepth effectiveThresholds |}])%list
    else violations in
  let warnings := if 50 <? fieldCount then [fieldCount] else [] in
  {| QueryValidation.valid := bool_decide (length violations = 0%nat);
     QueryValidation.complexity := complexity;
     QueryValidation.depth := depth;
     QueryValidation.fieldCount := fieldCount;
     QueryValidation.violations := violations;
     QueryValidation.warnings := warnings |}.

(** The visitors of [calculateNodeDepth] and of [calculateComplexity]. *)
Definition depth_visitor : Visitor (Z * Z) :=
  {| OperationDefinition_enter := λ _ s, s;
     Field_enter := λ _ _ '(depth, maxDepth), (depth + 1, maxDepth);
     Field_leave := λ '(depth, maxDepth), (depth - 1, Z.max maxDepth depth);
     FragmentSpread_enter := λ s, s;
     InlineFragment_enter := λ s, s |}.

Definition complexity_visitor : Visitor Q :=
  {| OperationDefinition_enter := λ _ complexity, complexity;
     Field_enter := complexity_Field_enter;
     Field_leave := λ complexity, complexity;
     FragmentSpread_enter := λ complexity, (complexity + 1)%Q;
     InlineFragment_enter := λ complexity, (complexity + (1 # 2))%Q |}.

(** How deep fields are nested in a selection, read off the tree: a field
    is one level above the deepest of its selections, a fragment spread is
    not followed, an inline fragment adds no level. *)
Fixpoint nesting (node : SelectionNode) : Z :=
  match node with
  | FieldNode _ _ selectionSet =>
      1 + (fix deepest (nodes : list SelectionNode) : Z :=
             match nodes with
             | [] => 0
             | child :: rest => Z.max (nesting child) (deepest rest)
             end) selectionSet
  | FragmentSpreadNode _ => 0
  | InlineFragmentNode selectionSet =>
      (fix deepest (nodes : list SelectionNode) : Z :=
         match nodes with
         | [] => 0
         | child :: rest => Z.max (nesting child) (deepest rest)
         end) selectionSet
  end.

Definition deepest (nodes : list SelectionNode) : Z :=
  fold_right (λ child m, Z.max (nesting child) m) 0 nodes.

(** The deepest nesting among the operations of a document; fragment
    definitions have no part in it. *)
Definition operation_depth (definition : DefinitionNode) : Z :=
  match definition with
  | OperationDefinitionNode _ _ selectionSet => deepest selectionSet
  | _ => 0
  end.

Definition deepest_operation (document : DocumentNode) : Z :=
  fold_right (λ definition m, Z.max (operation_depth definition) m) 0 document.

(** The number of [Field] nodes, read off the tree. *)
Fixpoint fields_in (node : SelectionNode) : Z :=
  match node with
  | FieldNode _ _ selectionSet =>
      1 + (fix total (nodes : list SelectionNode) : Z :=
             match nodes with
             | [] => 0
             | child :: rest => fields_in child + total rest
             end) selectionSet
  | FragmentSpreadNode _ => 0
  | InlineFragmentNode selectionSet =>
      (fix total (nodes : list SelectionNode) : Z :=
         match nodes with
         | [] => 0
         | child :: rest => fields_in child + total rest
         end) selectionSet
  end.

Definition fields_in_all (nodes : list SelectionNode) : Z :=
  fold_right (λ child n, fields_in child + n) 0 nodes.

Definition fields_of (definition : DefinitionNode) : Z :=
  match definition with
  | OperationDefinitionNode _ _ selectionSet => fields_in_all selectionSet
  | FragmentDefinitionNode _ selectionSet => fields_in_all selectionSet
  | TypeSystemDefinitionNode => 0
  end.

Definition fields_of_document (document : DocumentNode) : Z :=
  fold_right (λ definition n, fields_of definition + n) 0 document.

(** The visitor of [countFields]. *)
Definition count_visitor : Visitor Z :=
  {| OperationDefinition_enter := λ _ fieldCount, fieldCount;
     Field_enter := λ _ _ fieldCount, fieldCount + 1;
     Field_leave := λ fieldCount, fieldCount;
     FragmentSpread_enter := λ fieldCount, fieldCount;
     InlineFragment_enter := λ fieldCount, fieldCount |}.

(** [query { user(id: "1") { id name email } }] *)
Definition document_user : DocumentNode :=
  [OperationDefinitionNode OperationQuery None
     [FieldNode "user" ["id"]
        [FieldNode "id" [] []; FieldNode "name" [] []; FieldNode "email" [] []]]].

(** A query of 101 fields side by side. *)
Definition document_wide : DocumentNode :=
  [OperationDefinitionNode OperationQuery None (replicate 101 (FieldNode "id" [] []))].

(** [{ maxQueryComplexity: undefined, maxQueryDepth: undefined }] *)
Definition limits_undefined : Partial.IPerformanceThresholds :=
  {| Partial.maxQueryComplexity := Some None; Partial.maxQueryDepth := Some None;
     Partial.slowQueryThreshold := None; Partial.maxMemoryUsage := None;
     Partial.maxConcurrentQueries := None; Partial.dataLoaderBatchThreshold := None |}.

(** * PerformanceMonitor

    The class keeps its queries, field timings and alerts in private fields
    and changes them in place; its methods are functions on the record of
    those fields.  [times i] is what the [i]-th [new Date()] of a call
    gives.  The injected [complexityAnalyzer] is the
    [QueryComplexityAnalyzer] above, as the container binds it. *)

(** A number that a caller passes and the monitor adds up is a double:
    [+] is the IEEE 754 binary64 sum, rounded to nearest, ties to even. *)
Definition double_add : spec_float → spec_float → spec_float := SFadd 53 1024.

(** The double nearest to an integer. *)
Definition double_of_Z (n : Z) : spec_float := binary_normalize 53 1024 n 0 false.

Module QueryMetrics.
Record IQueryMetrics := {
  queryId : string;
  operation : string;
  operationType : OperationTypeNode;
  startTime : Z;
  endTime : option Z;
  duration : option Z;
  complexity : Z;
  depth : Z;
  fieldCount : Z;
  variables : gmap string string;
  errors : option (list string);
  cacheHits : Z;
  cacheMisses : Z;
  dataLoaderBatches : Z;
  dataLoaderCacheHits : spec_float;
  userId : option string;
  requestId : option string
}.

Definition finish (endTime' duration' : Z) (errors' : option (list string)) (m : IQueryMetrics)
    : IQueryMetrics :=
  {| queryId := queryId m; operation := operation m; operationType := operationType m;
     startTime := startTime m; endTime := Some endTime'; duration := Some duration';
     complexity := complexity m; depth := depth m; fieldCount := fieldCount m;
     variables := variables m; errors := errors';
     cacheHits := cacheHits m; cacheMisses := cacheMisses m;
     dataLoaderBatches := dataLoaderBatches m; dataLoaderCacheHits := dataLoaderCacheHits m;
     userId := userId m; requestId := requestId m |}.

Definition with_cache (cacheHits' cacheMisses' : Z) (m : IQueryMetrics) : IQueryMetrics :=
  {| queryId := queryId m; operation := operation m; operationType := operationType m;
     startTime := startTime m; endTime := endTime m; duration := duration m;
     complexity := complexity m; depth := depth m; fieldCount := fieldCount m;
     variables := variables m; errors := errors m;
     cacheHits := cacheHits'; cacheMisses := cacheMisses';
     dataLoaderBatches := dataLoaderBatches m; dataLoaderCacheHits := dataLoaderCacheHits m;
     userId := userId m; requestId := requestId m |}.

Definition with_dataLoader (batches' : Z) (hits' : spec_float) (m : IQueryMetrics)
    : IQueryMetrics :=
  {| queryId := queryId m; operation := operation m; operationType := operationType m;
     startTime := startTime m; endTime := endTime m; duration := duration m;
     complexity := complexity m; depth := depth m; fieldCount := fieldCount m;
     variables := variables m; errors := errors m;
     cacheHits := cacheHits m; cacheMisses := cacheMisses m;
     dataLoaderBatches := batches'; dataLoaderCacheHits := hits';
     userId := userId m; requestId := requestId m |}.
End QueryMetrics.

Module FieldMetrics.
Record IFieldMetrics := {
  fieldName : string;
  typeName : string;
  path : list string;
  startTime : Z;
  endTime : option Z;
  duration : option Z;
  cacheHit : bool;
  errors : option (list string);
  resolverComplexity : Z;
  dataFetched : bool
}.

Definition finish (endTime' duration' : Z) (errors' : option (list string)) (m : IFieldMetrics)
    : IFieldMetrics :=
  {| fieldName := fieldName m; typeName := typeName m; path := path m;
     startTime := startTime m; endTime := Some endTime'; duration := Some duration';
     cacheHit := cacheHit m; errors := errors';
     resolverComplexity := resolverComplexity m; dataFetched := dataFetched m |}.

Definition with_cacheHit (hit : bool) (m : IFieldMetrics) : IFieldMetrics :=
  {| fieldName := fieldName m; typeName := typeName m; path := path m;
     startTime := startTime m; endTime := endTime m; duration := duration m;
     cacheHit := hit; errors := errors m;
     resolverComplexity := resolverComplexity m; dataFetched := dataFetched m |}.
End FieldMetrics.

Inductive AlertType := AlertThreshold | AlertAnomaly | AlertError.
Inductive Severity := SeverityLow | SeverityMedium | SeverityHigh | SeverityCritical.

#[global] Instance Severity_eq_dec : EqDecision Severity.
Proof. solve_decision. Defined.

(** The text of an alert: the message of a violation, or
    "Slow query detected: [duration]ms". *)
Inductive AlertMessage :=
| ViolationMessage (violation : IThresholdViolation)
| SlowQueryDetected (duration : Z).

Module Alert.
Record IPerformanceAlert := {
  type : AlertType;
  severity : Severity;
  message : AlertMessage;
  metric : ViolationType;
  value : Z;
  threshold : option JsNumber;
  timestamp : Z;
  queryId : option string;
  operation : option string
}.
End Alert.

(** [array.slice(-n)] and [array.slice(0, end)] *)
Definition slice_last {A} (n : nat) (l : list A) : list A := drop (length l - n) l.

Definition slice_to {A} (finish : Z) (l : list A) : list A :=
  let len := Z.of_nat (length l) in
  take (Z.to_nat (if finish <? 0 then Z.max (len + finish) 0 else Z.min finish len)) l.

(** [array.sort(compareFn)]: the order [compareFn] asks for, elements that
    compare equal staying in the order they had. *)
Fixpoint sort_insert {A} (compareFn : A → A → Z) (x : A) (sorted : list A) : list A :=
  match sorted with
  | [] => [x]
  | y :: rest =>
      if compareFn x y <=? 0 then x :: y :: rest else y :: sort_insert compareFn x rest
  end.

Definition Array_sort {A} (compareFn : A → A → Z) (l : list A) : list A :=
  fold_right (sort_insert compareFn) [] l.

(** [array.join(separator)] of strings *)
Fixpoint join (separator : string) (parts : list string) : string :=
  match parts with
  | [] => ""
  | [part] => part
  | part :: rest => part +:+ separator +:+ join separator rest
  end.

Module PerformanceMonitor.

Record t := {
  activeQueries : gmap string QueryMetrics.IQueryMetrics;
  completedQueries : list QueryMetrics.IQueryMetrics;
  fieldMetrics : gmap string (list FieldMetrics.IFieldMetrics);
  alerts : list Alert.IPerformanceAlert;
  thresholds : IPerformanceThresholds;
  logger : list LogEntry
}.

Definition new (_ : unit) : t :=
  {| activeQueries := ∅; completedQueries := []; fieldMetrics := ∅; alerts := [];
     thresholds := defaultThresholds; logger := [] |}.

Definition set_activeQueries (f : gmap string QueryMetrics.IQueryMetrics → gmap string QueryMetrics.IQueryMetrics) (s : t) : t :=
  {| activeQueries := f (activeQueries s); completedQueries := completedQueries s;
     fieldMetrics := fieldMetrics s; alerts := alerts s; thresholds := thresholds s;
     logger := logger s |}.

Definition set_completedQueries (f : list QueryMetrics.IQueryMetrics → list QueryMetrics.IQueryMetrics) (s : t) : t :=
  {| activeQueries := activeQueries s; completedQueries := f (completedQueries s);
     fieldMetrics := fieldMetrics s; alerts := alerts s; thresholds := thresholds s;
     logger := logger s |}.

Definition set_fieldMetrics (f : gmap string (list FieldMetrics.IFieldMetrics) → gmap string (list FieldMetrics.IFieldMetrics)) (s : t) : t :=
  {| activeQueries := activeQueries s; completedQueries := completedQueries s;
     fieldMetrics := f (fieldMetrics s); alerts := alerts s; thresholds := thresholds s;
     logger := logger s |}.

Definition set_alerts (f : list Alert.IPerformanceAlert → list Alert.IPerformanceAlert) (s : t) : t :=
  {| activeQueries := activeQueries s; completedQueries := completedQueries s;
     fieldMetrics := fieldMetrics s; alerts := f (alerts s); thresholds := thresholds s;
     logger := logger s |}.

Definition set_thresholds (f : IPerformanceThresholds → IPerformanceThresholds) (s : t) : t :=
  {| activeQueries := activeQueries s; completedQueries := completedQueries s;
     fieldMetrics := fieldMetrics s; alerts := alerts s; thresholds := f (thresholds s);
     logger := logger s |}.

Definition log (l : LogLevel) (msg subj : string) (s : t) : t :=
  {| activeQueries := activeQueries s; completedQueries := completedQueries s;
     fieldMetrics := fieldMetrics s; alerts := alerts s; thresholds := thresholds s;
     logger := (logger s ++ [{| level := l; message := msg; subject := subj |}])%list |}.

Definition createAlert (now : Z) (type : AlertType) (severity : Severity)
    (message : AlertMessage) (metric : ViolationType) (value : Z)
    (threshold : option JsNumber)
    (queryId operation : option string) (s : t) : t :=
  let alert :=
    {| Alert.type := type; Alert.severity := severity; Alert.message := message;
       Alert.metric := metric; Alert.value := value; Alert.threshold := threshold;
       Alert.timestamp := now; Alert.queryId := queryId; Alert.operation := operation |} in
  let s := set_alerts (λ alerts, alerts ++ [alert])%list s in
  let s := if (100 <? length (alerts s))%nat then set_alerts (slice_last 100) s else s in
  log LWarn "Performance alert created" (default "" queryId) s.

Fixpoint extractOperationName (document : DocumentNode) : string :=
  match document with
  | [] => "Unknown"
  | OperationDefinitionNode _ name _ :: _ =>
      match name with
      | Some value => if String.eqb value "" then "Anonymous" else value
      | None => "Anonymous"
      end
  | _ :: rest => extractOperationName rest
  end.

Fixpoint extractOperationType (document : DocumentNode) : OperationTypeNode :=
  match document with
  | [] => OperationQuery
  | OperationDefinitionNode operation _ _ :: _ => operation
  | _ :: rest => extractOperationType rest
  end.

(** [info.path] is a linked list from the field up to the root. *)
Definition pathToArray (path : list string) : list string :=
  fold_left (λ result key, key :: result) path [].

(** The [for] loop of [startQuery]; the [i]-th [new Date()] of the call
    stamps the alert. *)
Fixpoint createAlerts (times : nat → Z) (queryId : string) (i : nat)
    (violations : list IThresholdViolation) (s : t) : t :=
  match violations with
  | [] => s
  | violation :: rest =>
      createAlerts times queryId (S i) rest
        (createAlert (times i) AlertThreshold SeverityHigh
           (ViolationMessage violation) (violation_type violation)
           (violation_value violation) (violation_threshold violation)
           (Some queryId) None s)
  end.

Definition startQuery (times : nat → Z) (queryId : string) (document : DocumentNode)
    (variables : option (gmap string string)) (userId requestId : option string) (s : t)
    : QueryMetrics.IQueryMetrics * t :=
  let validation := validateQuery document variables (Some (all_of (thresholds s))) in
  let metrics :=
    {| QueryMetrics.queryId := queryId;
       QueryMetrics.operation := extractOperationName document;
       QueryMetrics.operationType := extractOperationType document;
       QueryMetrics.startTime := times 0%nat;
       QueryMetrics.endTime := None;
       QueryMetrics.duration := None;
       QueryMetrics.complexity := QueryValidation.complexity validation;
       QueryMetrics.depth := QueryValidation.depth validation;
       QueryMetrics.fieldCount := QueryValidation.fieldCount validation;
       QueryMetrics.variables := default ∅ variables;
       QueryMetrics.errors := None;
       QueryMetrics.cacheHits := 0;
       QueryMetrics.cacheMisses := 0;
       QueryMetrics.dataLoaderBatches := 0;
       QueryMetrics.dataLoaderCacheHits := S754_zero false;
       QueryMetrics.userId := userId;
       QueryMetrics.requestId := requestId |} in
  let s := set_activeQueries (insert queryId metrics) s in
  let s :=
    if negb (QueryValidation.valid validation)
    then createAlerts times queryId 1 (QueryValidation.violations validation) s
    else s in
  (metrics, log LDebug "Query monitoring started" queryId s).

(** [errors] holds the messages of the [Error]s passed. *)
Definition endQuery (times : nat → Z) (queryId : string) (errors : option (list string))
    (s : t) : t :=
  match activeQueries s !! queryId with
  | None => log LWarn "Attempted to end unknown query" queryId s
  | Some metrics =>
      let endTime := times 0%nat in
      let duration := endTime - QueryMetrics.startTime metrics in
      let metrics :=
        QueryMetrics.finish endTime duration
          (match errors with
           | Some (e :: es) => Some (e :: es)
           | _ => QueryMetrics.errors metrics
           end) metrics in
      let s :=
        if exceeds duration (slowQueryThreshold (thresholds s)) then
          createAlert (times 1%nat) AlertThreshold SeverityMedium (SlowQueryDetected duration)
            ViolationTime duration (slowQueryThreshold (thresholds s))
            (Some queryId) (Some (QueryMetrics.operation metrics)) s
        else s in
      let s := set_activeQueries (delete queryId) s in
      let s := set_completedQueries (λ completed, completed ++ [metrics])%list s in
      let s :=
        if (1000 <? length (completedQueries s))%nat
        then set_completedQueries (slice_last 1000) s else s in
      log LDebug "Query monitoring ended" queryId s
  end.

Definition fieldKey (queryId : string) (path : list string) : string :=
  queryId +:+ "-" +:+ join "." path.

(** [info] is read for [fieldName], [parentType.name] and [path]. *)
Definition startField (now : Z) (queryId fieldName typeName : string) (path : list string)
    (s : t) : FieldMetrics.IFieldMetrics * t :=
  let fieldMetrics :=
    {| FieldMetrics.fieldName := fieldName;
       FieldMetrics.typeName := typeName;
       FieldMetrics.path := pathToArray path;
       FieldMetrics.startTime := now;
       FieldMetrics.endTime := None;
       FieldMetrics.duration := None;
       FieldMetrics.cacheHit := false;
       FieldMetrics.errors := None;
       FieldMetrics.resolverComplexity := 1;
       FieldMetrics.dataFetched := false |} in
  let key := fieldKey queryId (FieldMetrics.path fieldMetrics) in
  let s :=
    match PerformanceMonitor.fieldMetrics s !! key with
    | Some _ => s
    | None => set_fieldMetrics (insert key []) s
    end in
  let s :=
    set_fieldMetrics
      (λ m, <[key := (default [] (m !! key) ++ [fieldMetrics])%list]> m) s in
  (fieldMetrics, s).

(** Writes to the last element of the array under [key], when there is
    one. *)
Definition update_last (key : string) (f : FieldMetrics.IFieldMetrics → FieldMetrics.IFieldMetrics)
    (s : t) : t :=
  match fieldMetrics s !! key with
  | Some metrics =>
      match last metrics with
      | Some fieldMetric =>
          set_fieldMetrics (insert key (take (length metrics - 1) metrics ++ [f fieldMetric])%list) s
      | None => s
      end
  | None => s
  end.

Definition endField (now : Z) (queryId : string) (fieldPath : list string)
    (errors : option (list string)) (s : t) : t :=
  update_last (fieldKey queryId fieldPath)
    (λ fieldMetric,
       FieldMetrics.finish now (now - FieldMetrics.startTime fieldMetric)
         (match errors with
          | Some (e :: es) => Some (e :: es)
          | _ => FieldMetrics.errors fieldMetric
          end) fieldMetric) s.

Definition recordCacheEvent (queryId : string) (fieldPath : list string) (hit : bool) (s : t) : t :=
  let s :=
    match activeQueries s !! queryId with
    | Some metrics =>
        set_activeQueries
          (insert queryId
             (if hit
              then QueryMetrics.with_cache (QueryMetrics.cacheHits metrics + 1)
                     (QueryMetrics.cacheMisses metrics) metrics
              else QueryMetrics.with_cache (QueryMetrics.cacheHits metrics)
                     (QueryMetrics.cacheMisses metrics + 1) metrics)) s
    | None => s
    end in
  update_last (fieldKey queryId fieldPath) (FieldMetrics.with_cacheHit hit) s.

Definition recordDataLoaderBatch (queryId loaderName : string) (batchSize : Z)
    (cacheHits : spec_float) (s : t) : t :=
  let s :=
    match activeQueries s !! queryId with
    | Some metrics =>
        set_activeQueries
          (insert queryId
             (QueryMetrics.with_dataLoader (QueryMetrics.dataLoaderBatches metrics + 1)
                (double_add (QueryMetrics.dataLoaderCacheHits metrics) cacheHits) metrics)) s
    | None => s
    end in
  log LDebug "DataLoader batch recorded" queryId s.

Definition getSlowQueries (limit : option Z) (s : t) : list QueryMetrics.IQueryMetrics :=
  slice_to (default 10 limit)
    (Array_sort (λ a b, default 0 (QueryMetrics.duration b) - default 0 (QueryMetrics.duration a))
       (filter (λ q, QueryMetrics.duration q ≠ None) (completedQueries s))).

Definition getComplexQueries (limit : option Z) (s : t) : list QueryMetrics.IQueryMetrics :=
  slice_to (default 10 limit)
    (Array_sort (λ a b, QueryMetrics.complexity b - QueryMetrics.complexity a)
       (completedQueries s)).

Definition getAlerts (severity : option Severity) (s : t) : list Alert.IPerformanceAlert :=
  match severity with
  | Some severity => filter (λ a, Alert.severity a = severity) (alerts s)
  | None => alerts s
  end.

Definition setThresholds (partial : Partial.IPerformanceThresholds) (s : t) : t :=
  log LInfo "Performance thresholds updated" ""
    (set_thresholds (λ thresholds, spread thresholds (Some partial)) s).

End PerformanceMonitor.

(** One call of a method of [PerformanceMonitor] that changes its state. *)
Inductive MonitorCall :=
| CallStartQuery (times : nat → Z) (queryId : string) (document : DocumentNode)
    (variables : option (gmap string string)) (userId requestId : option string)
| CallEndQuery (times : nat → Z) (queryId : string) (errors : option (list string))
| CallStartField (now : Z) (queryId fieldName typeName : string) (path : list string)
| CallEndField (now : Z) (queryId : string) (fieldPath : list string)
    (errors : option (list string))
| CallRecordCacheEvent (queryId : string) (fieldPath : list string) (hit : bool)
| CallRecordDataLoaderBatch (queryId loaderName : string) (batchSize : Z)
    (cacheHits : spec_float)
| CallSetThresholds (partial : Partial.IPerformanceThresholds).

Definition monitor_invoke (c : MonitorCall) (s : PerformanceMonitor.t) : PerformanceMonitor.t :=
  match c with
  | CallStartQuery times queryId document variables userId requestId =>
      (PerformanceMonitor.startQuery times queryId document variables userId requestId s).2
  | CallEndQuery times queryId errors => PerformanceMonitor.endQuery times queryId errors s
  | CallStartField now queryId fieldName typeName path =>
      (PerformanceMonitor.startField now queryId fieldName typeName path s).2
  | CallEndField now queryId fieldPath errors =>
      PerformanceMonitor.endField now queryId fieldPath errors s
  | CallRecordCacheEvent queryId fieldPath hit =>
      PerformanceMonitor.recordCacheEvent queryId fieldPath hit s
  | CallRecordDataLoaderBatch queryId loaderName batchSize cacheHits =>
      PerformanceMonitor.recordDataLoaderBatch queryId loaderName batchSize cacheHits s
  | CallSetThresholds partial => PerformanceMonitor.setThresholds partial s
  end.

Definition monitor_run (calls : list MonitorCall) (s : PerformanceMonitor.t) : PerformanceMonitor.t :=
  fold_left (λ s c, monitor_invoke c s) calls s.

(** The alert [startQuery] raises for a violation. *)
Definition violation_alert (now : Z) (queryId : string)
    (violation : IThresholdViolation) : Alert.IPerformanceAlert :=
  {| Alert.type := AlertThreshold; Alert.severity := SeverityHigh;
     Alert.message := ViolationMessage violation;
     Alert.metric := violation_type violation;
     Alert.value := violation_value violation;
     Alert.threshold := violation_threshold violation;
     Alert.timestamp := now;
     Alert.queryId := Some queryId; Alert.operation := None |}.

(** The alert [endQuery] raises for a slow query. *)
Definition slow_alert (now : Z) (queryId operation : string) (duration : Z)
    (threshold : option JsNumber) : Alert.IPerformanceAlert :=
  {| Alert.type := AlertThreshold; Alert.severity := SeverityMedium;
     Alert.message := SlowQueryDetected duration;
     Alert.metric := ViolationTime;
     Alert.value := duration;
     Alert.threshold := threshold;
     Alert.timestamp := now;
     Alert.queryId := Some queryId; Alert.operation := Some operation |}.

Definition duration_of (q : QueryMetrics.IQueryMetrics) : Z := default 0 (QueryMetrics.duration q).

(** What holds of a monitor after any calls: the two arrays are capped, a
    completed query has its end time and duration, an active one has
    neither and is filed under its own id, and the alerts are those
    [startQuery] and [endQuery] raise. *)
Definition completed_ok (q : QueryMetrics.IQueryMetrics) : Prop :=
  ∃ endTime,
    QueryMetrics.endTime q = Some endTime
    ∧ QueryMetrics.duration q = Some (endTime - QueryMetrics.startTime q).

Definition active_ok (queryId : string) (q : QueryMetrics.IQueryMetrics) : Prop :=
  QueryMetrics.queryId q = queryId
  ∧ QueryMetrics.endTime q = None ∧ QueryMetrics.duration q = None.

Definition alert_ok (a : Alert.IPerformanceAlert) : Prop :=
  Alert.type a = AlertThreshold
  ∧ (Alert.severity a = SeverityHigh ∨ Alert.severity a = SeverityMedium)
  ∧ is_Some (Alert.queryId a).

Record monitor_ok (s : PerformanceMonitor.t) : Prop := {
  alerts_capped : (length (PerformanceMonitor.alerts s) ≤ 100)%nat;
  completed_capped : (length (PerformanceMonitor.completedQueries s) ≤ 1000)%nat;
  completed_finished : Forall completed_ok (PerformanceMonitor.completedQueries s);
  active_unfinished : map_Forall active_ok (PerformanceMonitor.activeQueries s);
  alerts_raised : Forall alert_ok (PerformanceMonitor.alerts s)
}.

(** The record [endQuery] files under the completed queries. *)
Definition ended (times : nat → Z) (errors : option (list string))
    (metrics : QueryMetrics.IQueryMetrics) : QueryMetrics.IQueryMetrics :=
  QueryMetrics.finish (times 0%nat) (times 0%nat - QueryMetrics.startTime metrics)
    (match errors with
     | Some (e :: es) => Some (e :: es)
     | _ => QueryMetrics.errors metrics
     end) metrics.

(** A list in the order [sort((a, b) => key(b) - key(a))] asks for. *)
Definition descending {A} (key : A → Z) (l : list A) : Prop :=
  StronglySorted (λ a b, key b ≤ key a) l.

(** The first [limit] of a list split off the rest: the two parts hold the
    elements of [all], and nothing in [rest] has a larger key than anything
    in [top]. *)
Definition top_of {A} (key : A → Z) (all top : list A) : Prop :=
  descending key top
  ∧ ∃ rest, top ++ rest ≡ₚ all ∧ ∀ a b, a ∈ top → b ∈ rest → key b ≤ key a.

(** The cache events and the batches recorded for one query. *)
Definition record_cache_events (queryId : string) (events : list (list string * bool))
    (s : PerformanceMonitor.t) : PerformanceMonitor.t :=
  fold_left (λ s event, PerformanceMonitor.recordCacheEvent queryId event.1 event.2 s) events s.

Definition record_batches (queryId : string) (batches : list (string * Z * spec_float))
    (s : PerformanceMonitor.t) : PerformanceMonitor.t :=
  fold_left (λ s batch,
               PerformanceMonitor.recordDataLoaderBatch queryId batch.1.1 batch.1.2 batch.2 s)
    batches s.

Definition count_of (b : bool) (events : list (list string * bool)) : Z :=
  Z.of_nat (length (filter (λ event, event.2 = b) events)).

Definition sum_of (l : list Z) : Z := fold_right Z.add 0 l.

(** [start + x1 + ... + xn] in doubles, added from the left. *)
Definition double_sum (start : spec_float) (l : list spec_float) : spec_float :=
  fold_left double_add l start.

(** A monitor that has seen three queries, started at 0, 10 and 20 and
    ended at 1500, 40 and 2500. *)
Definition monitor_three : PerformanceMonitor.t :=
  monitor_run
    [CallStartQuery (λ _, 0) "q1" document_user None None None;
     CallStartQuery (λ _, 10) "q2" document_wide None None None;
     CallStartQuery (λ _, 20) "q3" document_user None None None;
     CallEndQuery (λ _, 1500) "q1" None;
     CallEndQuery (λ _, 40) "q2" None;
     CallEndQuery (λ _, 2500) "q3" None]
    (PerformanceMonitor.new ()).

(** * SchemaComposer: dependencies of the layers *)

(** What the composer reads of a [GraphQLSchema]: the names of its type
    map, each with the names of its fields when the type has fields. *)
Record GraphQLSchema := {
  getTypeMap : list (string * option (list string))
}.

Module Layer.
Record ISchemaLayer := {
  name : string;
  schema : GraphQLSchema;
  priority : Z;
  dependencies : option (list string)
}.
End Layer.
Export Layer.

Inductive ValidationErrorType := ErrorComposition | ErrorFederation | ErrorGraphql.
Inductive ValidationSeverity := SeverityError | SeverityWarning.

Module ValidationError.
Record IValidationError := {
  type : ValidationErrorType;
  message : string;
  layer : option string;
  severity : ValidationSeverity
}.
End ValidationError.

(** [new Set(array)] *)
Definition Set_of (l : list string) : list string :=
  fold_left (λ s x, Set_add x s) l [].

Module SchemaComposer.

(** [layers.find(l => l.name === depName)] *)
Definition find_layer (layers : list ISchemaLayer) (depName : string) : option ISchemaLayer :=
  List.find (λ l, String.eqb (name l) depName) layers.

(** The three locals of [sortLayersByDependencies] that [visit] closes
    over; the two sets are only asked [has]. *)
Record Locals := {
  sorted : list ISchemaLayer;
  visited : gset string;
  visiting : gset string
}.

(** [visit] calls itself through the loop over the dependencies.  [depth]
    bounds how deep the calls nest; [None] is a nesting deeper than that. *)
Fixpoint visit (depth : nat) (layers : list ISchemaLayer) (layer : ISchemaLayer) (st : Locals)
    : option (Completion Locals) :=
  match depth with
  | O => None
  | S depth =>
      if bool_decide (name layer ∈ visiting st) then
        Some (Throw ("Circular dependency detected: " +:+ name layer))
      else if bool_decide (name layer ∈ visited st) then Some (Normal st)
      else
        let st := {| sorted := sorted st; visited := visited st;
                     visiting := {[name layer]} ∪ visiting st |} in
        let loop :=
          fix loop (deps : list string) (st : Locals) : option (Completion Locals) :=
            match deps with
            | [] => Some (Normal st)
            | depName :: deps =>
                match find_layer layers depName with
                | Some depLayer =>
                    match visit depth layers depLayer st with
                    | Some (Normal st) => loop deps st
                    | other => other
                    end
                | None => loop deps st
                end
            end in
        match loop (default [] (dependencies layer)) st with
        | Some (Normal st) =>
            Some (Normal {| sorted := sorted st ++ [layer];
                            visited := {[name layer]} ∪ visited st;
                            visiting := visiting st ∖ {[name layer]} |})
        | other => other
        end
  end.

(** The loop over the dependencies of a layer, as [visit] runs it. *)
Fixpoint visit_dependencies (depth : nat) (layers : list ISchemaLayer) (deps : list string)
    (st : Locals) : option (Completion Locals) :=
  match deps with
  | [] => Some (Normal st)
  | depName :: deps =>
      match find_layer layers depName with
      | Some depLayer =>
          match visit depth layers depLayer st with
          | Some (Normal st) => visit_dependencies depth layers deps st
          | other => other
          end
      | None => visit_dependencies depth layers deps st
      end
  end.

(** The loop over the layers in priority order. *)
Fixpoint visit_all (depth : nat) (layers prioritySorted : list ISchemaLayer) (st : Locals)
    : option (Completion Locals) :=
  match prioritySorted with
  | [] => Some (Normal st)
  | layer :: rest =>
      match visit depth layers layer st with
      | Some (Normal st) => visit_all depth layers rest st
      | other => other
      end
  end.

(** No chain of calls of [visit] is longer than the layers are many: a
    call within a call has one more name in [visiting]. *)
Definition sortLayersByDependencies_within (depth : nat) (layers : list ISchemaLayer)
    : option (Completion (list ISchemaLayer)) :=
  let prioritySorted := Array_sort (λ a b, priority a - priority b) layers in
  match visit_all depth layers prioritySorted
          {| sorted := []; visited := ∅; visiting := ∅ |} with
  | Some (Normal st) => Some (Normal (sorted st))
  | Some (Throw e) => Some (Throw e)
  | None => None
  end.

Definition sortLayersByDependencies (layers : list ISchemaLayer)
    : option (Completion (list ISchemaLayer)) :=
  sortLayersByDependencies_within (S (length layers)) layers.

Definition composeSchemas (layers : list ISchemaLayer) : Completion GraphQLSchema :=
  match last layers with
  | None => Throw "Cannot compose empty schema layers"
  | Some layer => Normal (schema layer)
  end.

Definition validateDependencies (layers : list ISchemaLayer)
    (errors : list ValidationError.IValidationError) : list ValidationError.IValidationError :=
  let layerNames := Set_of (map name layers) in
  fold_left
    (λ errors layer,
       fold_left
         (λ errors depName,
            if negb (Set_has depName layerNames) then
              errors ++ [{| ValidationError.type := ErrorComposition;
                            ValidationError.message :=
                              "Layer '" +:+ name layer +:+ "' depends on '" +:+ depName
                              +:+ "' which is not available";
                            ValidationError.layer := Some (name layer);
                            ValidationError.severity := SeverityError |}]
            else errors)
         (default [] (dependencies layer)) errors)
    layers errors.

End SchemaComposer.

(** Vocabulary: the dependencies of a layer that name a layer of the
    list, and a list in which each layer comes after those. *)
Definition dependencies_of (layer : ISchemaLayer) : list string :=
  default [] (dependencies layer).

Definition dependencies_first (layers sorted : list ISchemaLayer) : Prop :=
  ∀ before layer after depName,
    sorted = before ++ layer :: after →
    depName ∈ dependencies_of layer →
    depName ∈ map name layers →
    depName ∈ map name before.

Definition unmet_dependencies (layers : list ISchemaLayer) : list (string * string) :=
  layer ← layers;
  depName ← filter (λ depName, depName ∉ map name layers) (dependencies_of layer);
  [(name layer, depName)].

(** Three layers: [api] needs [auth] and [core], [auth] needs [core]. *)
Definition layers_three : list ISchemaLayer :=
  [{| name := "api"; schema := {| getTypeMap := [] |}; priority := 1;
      dependencies := Some ["auth"; "core"] |};
   {| name := "auth"; schema := {| getTypeMap := [] |}; priority := 2;
      dependencies := Some ["core"] |};
   {| name := "core"; schema := {| getTypeMap := [] |}; priority := 3;
      dependencies := None |}].

(** The error [validateDependencies] pushes. *)
Definition dependency_error (layerName depName : string) : ValidationError.IValidationError :=
  {| ValidationError.type := ErrorComposition;
     ValidationError.message :=
       "Layer '" +:+ layerName +:+ "' depends on '" +:+ depName +:+ "' which is not available";
     ValidationError.layer := Some layerName;
     ValidationError.severity := SeverityError |}.

(** [a] names a layer that lists [b], the name of a layer, as a
    dependency. *)
Definition depends_on (layers : list ISchemaLayer) (a b : string) : Prop :=
  ∃ layer, layer ∈ layers ∧ name layer = a
           ∧ b ∈ dependencies_of layer ∧ b ∈ map name layers.

Definition circular (layers : list ISchemaLayer) (n : string) : Prop :=
  tc (depends_on layers) n n.

(** What holds of the locals of [sortLayersByDependencies] between the
    calls of [visit]. *)
Record locals_ok (layers : list ISchemaLayer) (st : SchemaComposer.Locals) : Prop := {
  sorted_visited :
    ∀ n, n ∈ map name (SchemaComposer.sorted st) ↔ n ∈ SchemaComposer.visited st;
  sorted_NoDup : NoDup (map name (SchemaComposer.sorted st));
  sorted_layers : ∀ layer, layer ∈ SchemaComposer.sorted st → layer ∈ layers;
  sorted_dependencies_first : dependencies_first layers (SchemaComposer.sorted st)
}.

(** What a call of [visit], or a loop of them, that returns has done to the
    locals. *)
Record visit_frame (st st' : SchemaComposer.Locals) : Prop := {
  visiting_restored : SchemaComposer.visiting st' = SchemaComposer.visiting st;
  visited_grows : SchemaComposer.visited st ⊆ SchemaComposer.visited st';
  visited_new :
    ∀ n, n ∈ SchemaComposer.visited st' →
         n ∈ SchemaComposer.visited st ∨ n ∉ SchemaComposer.visiting st;
  sorted_grows : ∃ more, SchemaComposer.sorted st' = SchemaComposer.sorted st ++ more
}.

(** The names of the layers, as a set. *)
Definition layer_names (layers : list ISchemaLayer) : gset string :=
  list_to_set (map name layers).

Definition circular_error (e : string) (layers : list ISchemaLayer) : Prop :=
  ∃ n, e = "Circular dependency detected: " +:+ n ∧ circular layers n.

(** * Lemmas *)

(** ** Base 36 *)

Lemma value36_digit36 (d : Z) : 0 ≤ d < 36 → value36 (digit36 d) = d.
Proof.
  intros Hd.
  assert (H : forallb (λ k, value36 (digit36 (Z.of_nat k)) =? Z.of_nat k) (seq 0 36) = true)
    by (vm_compute; reflexivity).
  rewrite forallb_forall in H.
  specialize (H (Z.to_nat d)). rewrite Z2Nat.id in H by lia.
  apply Z.eqb_eq, H, in_seq. lia.
Qed.

Lemma list_ascii_of_string_append (a b : string) :
  list_ascii_of_string (a +:+ b) = (list_ascii_of_string a ++ list_ascii_of_string b)%list.
Proof. induction a as [|c a IH]; simpl; [done | by rewrite IH]. Qed.

Lemma parse36_snoc (ds : string) (c : ascii) :
  parse36 (ds +:+ String c "") = parse36 ds * 36 + value36 c.
Proof.
  unfold parse36. rewrite list_ascii_of_string_append, fold_left_app. reflexivity.
Qed.

Lemma append_assoc_String (a : string) (c : ascii) (b : string) :
  a +:+ String c b = (a +:+ String c "") +:+ b.
Proof.
  induction a as [|x a IH]; [done|].
  change (String x (a +:+ String c b) = String x ((a +:+ String c "") +:+ b)).
  by rewrite IH.
Qed.

Lemma digits36_spec (fuel : nat) : ∀ (n : Z) (acc : string),
  0 ≤ n < 2 ^ Z.of_nat fuel →
  ∃ ds, digits36 fuel n acc = ds +:+ acc ∧ parse36 ds = n.
Proof.
  induction fuel as [|fuel IH]; intros n acc Hn.
  - exists "". simpl in *. split; [done|]. unfold parse36; simpl. lia.
  - simpl digits36. destruct (n <? 36) eqn:Hlt.
    + apply Z.ltb_lt in Hlt. exists (String (digit36 (n `mod` 36)) ""). split; [done|].
      unfold parse36; simpl. rewrite Z.mod_small by lia. rewrite value36_digit36; lia.
    + apply Z.ltb_ge in Hlt.
      destruct (IH (n / 36) (String (digit36 (n `mod` 36)) acc)) as (ds & Hds & Hp).
      { split; [apply Z.div_pos; lia|].
        apply Z.div_lt_upper_bound; [lia|].
        rewrite Nat2Z.inj_succ, Z.pow_succ_r in Hn by lia. lia. }
      exists (ds +:+ String (digit36 (n `mod` 36)) ""). split.
      * rewrite Hds. apply append_assoc_String.
      * rewrite parse36_snoc, Hp, value36_digit36 by (apply Z.mod_pos_bound; lia).
        pose proof (Z.div_mod n 36). lia.
Qed.

Lemma parse36_toString36 (n : Z) : 0 ≤ n → parse36 (toString36 n) = n.
Proof.
  intros Hn. unfold toString36. rewrite (proj2 (Z.ltb_ge n 0)) by lia.
  destruct (digits36_spec (S (Z.to_nat (Z.log2 n))) n "") as (ds & Hds & Hp).
  { split; [lia|]. destruct (decide (n = 0)) as [->|]; [simpl; lia|].
    rewrite Nat2Z.inj_succ, Z2Nat.id by apply Z.log2_nonneg.
    apply Z.log2_spec. lia. }
  rewrite Hds. clear Hds. revert Hp. generalize ds. intros d. 
  assert (d +:+ "" = d) as ->; [|done].
  induction d as [|x d IH]; [done|].
  change (String x (d +:+ "") = String x d). by rewrite IH.
Qed.

Lemma append_inj_same_length (r1 : string) : ∀ (r2 t1 t2 : string),
  String.length t1 = String.length t2 → r1 +:+ t1 = r2 +:+ t2 → r1 = r2 ∧ t1 = t2.
Proof.
  assert (Hlen : ∀ a b, String.length (a +:+ b) = (String.length a + String.length b)%nat).
  { induction a as [|x a IHa]; intros b; [done|].
    change (S (String.length (a +:+ b)) = S (String.length a + String.length b)).
    by rewrite IHa. }
  induction r1 as [|c r1 IH]; intros [|c' r2] t1 t2 Hl He.
  - done.
  - change (t1 = String c' (r2 +:+ t2)) in He. subst t1.
    change (S (String.length (r2 +:+ t2)) = String.length t2) in Hl.
    rewrite Hlen in Hl. lia.
  - change (String c (r1 +:+ t1) = t2) in He. subst t2.
    change (String.length t1 = S (String.length (r1 +:+ t1))) in Hl.
    rewrite Hlen in Hl. lia.
  - change (String c (r1 +:+ t1) = String c' (r2 +:+ t2)) in He.
    injection He as -> He. destruct (IH _ _ _ Hl He) as [-> ->]. done.
Qed.

Lemma generateId_inj (r1 r2 : string) (t1 t2 : Z) :
  0 ≤ t1 → 0 ≤ t2 →
  String.length (toString36 t1) = String.length (toString36 t2) →
  generateId r1 t1 = generateId r2 t2 → r1 = r2 ∧ t1 = t2.
Proof.
  intros H1 H2 Hl He. apply append_inj_same_length in He as [-> He]; [|done].
  split; [done|]. rewrite <- (parse36_toString36 t1), <- (parse36_toString36 t2) by done.
  by rewrite He.
Qed.

Lemma digits36_length (k : nat) : ∀ (fuel : nat) (n : Z) (acc : string),
  (k < fuel)%nat → 36 ^ Z.of_nat k ≤ n < 36 ^ (Z.of_nat k + 1) →
  String.length (digits36 fuel n acc) = (S k + String.length acc)%nat.
Proof.
  induction k as [|k IH]; intros [|fuel] n acc Hfuel Hn; try lia.
  - cbn [digits36]. change (36 ^ (Z.of_nat 0 + 1)) with 36 in Hn.
    by rewrite (proj2 (Z.ltb_lt n 36)) by lia.
  - cbn [digits36]. rewrite Nat2Z.inj_succ in Hn.
    rewrite <- Z.add_1_r in Hn. rewrite !Z.pow_add_r, Z.pow_1_r in Hn by lia.
    assert (0 < 36 ^ Z.of_nat k) by (apply Z.pow_pos_nonneg; lia).
    rewrite (proj2 (Z.ltb_ge n 36)) by nia.
    rewrite IH; [cbn; lia | lia |].
    rewrite Z.pow_add_r, Z.pow_1_r by lia. split.
    + apply Z.div_le_lower_bound; lia.
    + apply Z.div_lt_upper_bound; lia.
Qed.

(** Every timestamp from [36^7] ms (1972) up to [36^8] ms (2059) has eight
    base-36 digits. *)
Lemma toString36_length_8 (n : Z) :
  36 ^ 7 ≤ n < 36 ^ 8 → String.length (toString36 n) = 8%nat.
Proof.
  intros Hn. unfold toString36. rewrite (proj2 (Z.ltb_ge n 0)) by lia.
  rewrite (digits36_length 7); [done| |exact Hn].
  assert (36 ≤ Z.log2 n) by (apply Z.log2_le_pow2; lia). lia.
Qed.

(** ** The fan-out of [publish] *)

Lemma same_tables_refl s : same_tables s s.
Proof. by repeat split. Qed.

Lemma same_tables_trans s1 s2 s3 : same_tables s1 s2 → same_tables s2 s3 → same_tables s1 s3.
Proof. unfold same_tables. intros (?&?&?&?) (?&?&?&?). repeat split; congruence. Qed.

Lemma log_extends_refl s : log_extends s s.
Proof. exists []. by rewrite app_nil_r. Qed.

Lemma log_extends_trans s1 s2 s3 : log_extends s1 s2 → log_extends s2 s3 → log_extends s1 s3.
Proof. intros [m1 H1] [m2 H2]. exists (m1 ++ m2)%list. by rewrite H2, H1, app_assoc. Qed.

Lemma log_extends_elem s s' e : log_extends s s' → e ∈ logger s → e ∈ logger s'.
Proof. intros [m ->] H. apply elem_of_app. by left. Qed.

Lemma log_extends_write l msg subj s : log_extends s (write_log l msg subj s).
Proof. by eexists. Qed.

Lemma with_lastActivity_idem t t' c :
  with_lastActivity t' (with_lastActivity t c) = with_lastActivity t' c.
Proof. reflexivity. Qed.

Lemma publishToConnection_ok {T} now connectionId topic (payload : ISubscriptionPayload T) s connection :
  connections s !! connectionId = Some connection →
  isActive (heap s connection) = true →
  publishToConnection now connectionId topic payload s =
    (Normal tt,
     write_log LDebug "Published to connection" connectionId
       (set_heap (store connection (with_lastActivity now (heap s connection))) s)).
Proof.
  intros Hc Ha. unfold publishToConnection, bind, get. rewrite Hc, Ha. reflexivity.
Qed.

Lemma publishToConnection_fail {T} now connectionId topic (payload : ISubscriptionPayload T) s :
  deliverable s connectionId = false →
  publishToConnection now connectionId topic payload s = (Throw (not_active_error connectionId), s).
Proof.
  unfold deliverable, publishToConnection, bind, get.
  destruct (connections s !! connectionId) as [connection|]; [|done].
  by intros ->.
Qed.

Lemma publish_each_spec {T} clock topic (payload : ISubscriptionPayload T) acc connectionId s :
  ∃ s', publish_each clock topic payload acc connectionId s =
          (Normal (acc ++ [(connectionId, delivery_outcome s connectionId)])%list, s')
    ∧ same_tables s s' ∧ log_extends s s'
    ∧ match connections s !! connectionId with
      | Some connection =>
          if isActive (heap s connection)
          then heap s' = store connection (with_lastActivity (clock connectionId) (heap s connection)) (heap s)
               ∧ published_entry connectionId ∈ logger s'
          else heap s' = heap s
      | None => heap s' = heap s
      end.
Proof.
  unfold publish_each, bind, settle, ret, delivery_outcome.
  destruct (deliverable s connectionId) eqn:Hd.
  - unfold deliverable in Hd. destruct (connections s !! connectionId) as [connection|] eqn:Hc; [|done].
    rewrite (publishToConnection_ok _ _ _ _ _ _ Hc Hd). rewrite Hd.
    eexists. split; [reflexivity|]. split; [by repeat split|].
    split; [by eexists|]. split; [done|].
    cbn. apply elem_of_app. right. by apply list_elem_of_singleton.
  - rewrite (publishToConnection_fail _ _ _ _ _ Hd).
    exists s. split; [reflexivity|]. split; [apply same_tables_refl|].
    split; [apply log_extends_refl|].
    unfold deliverable in Hd. destruct (connections s !! connectionId); [by rewrite Hd|done].
Qed.

Lemma store_eq r c h : store r c h r = c.
Proof. unfold store. by rewrite decide_True. Qed.

Lemma store_ne r r' c h : r' ≠ r → store r c h r' = h r'.
Proof. intros H. unfold store. by rewrite decide_False. Qed.

Lemma publish_each_pointwise {T} clock topic (payload : ISubscriptionPayload T) acc connectionId s :
  ∃ s', publish_each clock topic payload acc connectionId s =
          (Normal (acc ++ [(connectionId, delivery_outcome s connectionId)])%list, s')
    ∧ same_tables s s' ∧ log_extends s s'
    ∧ (∀ r, heap s' r = heap s r
            ∨ (connections s !! connectionId = Some r ∧ isActive (heap s r) = true
               ∧ heap s' r = with_lastActivity (clock connectionId) (heap s r)))
    ∧ (∀ r, connections s !! connectionId = Some r → isActive (heap s r) = true →
            heap s' r = with_lastActivity (clock connectionId) (heap s r)
            ∧ published_entry connectionId ∈ logger s').
Proof.
  destruct (publish_each_spec clock topic payload acc connectionId s) as (s' & He & Ht & Hl & Hh).
  exists s'. split; [done|]. split; [done|]. split; [done|].
  destruct (connections s !! connectionId) as [connection|] eqn:Hc.
  - destruct (isActive (heap s connection)) eqn:Ha.
    + destruct Hh as [Hh Hp]. split.
      * intros r. destruct (decide (r = connection)) as [->|Hne].
        -- right. rewrite Hh, store_eq. done.
        -- left. by rewrite Hh, store_ne.
      * intros r [= <-] _. by rewrite Hh, store_eq.
    + split; [intros r; left; by rewrite Hh|]. intros r [= <-]. congruence.
  - split; [intros r; left; by rewrite Hh|]. done.
Qed.

Lemma deliverable_ext s s' connectionId :
  connections s' = connections s → (∀ r, isActive (heap s' r) = isActive (heap s r)) →
  deliverable s' connectionId = deliverable s connectionId.
Proof. intros Hc Ha. unfold deliverable. rewrite Hc. by destruct (connections s !! connectionId). Qed.

Lemma publish_loop {T} clock topic (payload : ISubscriptionPayload T) (connectionIds : list string) :
  ∀ acc s,
  ∃ s', for_of connectionIds (publish_each clock topic payload) acc s =
          (Normal (acc ++ map (λ cid, (cid, delivery_outcome s cid)) connectionIds)%list, s')
    ∧ same_tables s s' ∧ log_extends s s'
    ∧ (∀ r, heap s' r = heap s r
            ∨ ∃ cid, cid ∈ connectionIds ∧ connections s !! cid = Some r
                     ∧ isActive (heap s r) = true
                     ∧ heap s' r = with_lastActivity (clock cid) (heap s r))
    ∧ (∀ cid r, cid ∈ connectionIds → connections s !! cid = Some r →
                isActive (heap s r) = true →
                (∃ cid', cid' ∈ connectionIds ∧ connections s !! cid' = Some r
                         ∧ heap s' r = with_lastActivity (clock cid') (heap s r))
                ∧ published_entry cid ∈ logger s').
Proof.
  induction connectionIds as [|cid0 rest IH]; intros acc s.
  - exists s. cbn. rewrite app_nil_r. split; [done|].
    split; [apply same_tables_refl|]. split; [apply log_extends_refl|].
    split; [by left|]. intros ? ? H. by apply elem_of_nil in H.
  - destruct (publish_each_pointwise clock topic payload acc cid0 s)
      as (s1 & He & Ht & Hl & Hh & Hp).
    destruct (IH (acc ++ [(cid0, delivery_outcome s cid0)])%list s1)
      as (s' & He' & Ht' & Hl' & Hh' & Hp').
    assert (Hconn : connections s1 = connections s) by apply Ht.
    assert (Hact : ∀ r, isActive (heap s1 r) = isActive (heap s r)).
    { intros r. destruct (Hh r) as [->|(_ & _ & ->)]; done. }
    exists s'. split.
    { cbn [for_of]. unfold bind at 1. rewrite He, He'. f_equal. f_equal.
      rewrite <- app_assoc. cbn. do 2 f_equal.
      apply map_ext. intros cid. unfold delivery_outcome.
      by rewrite (deliverable_ext s s1). }
    split; [by eapply same_tables_trans|]. split; [by eapply log_extends_trans|].
    split.
    + intros r. destruct (Hh' r) as [E'|(cid & Hin & Hc & Ha & E')].
      * destruct (Hh r) as [E|(Hc & Ha & E)].
        -- left. congruence.
        -- right. exists cid0. rewrite E', E. split; [left|]. done.
      * right. exists cid. rewrite Hconn in Hc. rewrite Hact in Ha.
        split; [by right|]. split; [done|]. split; [done|].
        rewrite E'. destruct (Hh r) as [->|(_ & _ & ->)]; done.
    + intros cid r Hin Hc Ha. apply elem_of_cons in Hin as [->|Hin].
      * destruct (Hp r Hc Ha) as [E Hlog]. split; [|by eapply log_extends_elem].
        destruct (Hh' r) as [E'|(cid & Hin & Hc' & Ha' & E')].
        -- exists cid0. split; [left|]. split; [done|]. congruence.
        -- exists cid. rewrite Hconn in Hc'. split; [by right|]. split; [done|].
           rewrite E', E. done.
      * destruct (Hp' cid r Hin) as [(cid' & Hin' & Hc' & E') Hlog].
        { by rewrite Hconn. } { by rewrite Hact. }
        split; [|done]. exists cid'. rewrite Hconn in Hc'. split; [by right|].
        split; [done|]. rewrite E'. destruct (Hh r) as [->|(_ & _ & ->)]; done.
Qed.

Lemma allSettled_spec (msg : string) (promises : list (string * Completion unit)) :
  ∀ successCount s,
  ∃ s', allSettled promises (λ connectionId _, log LWarn msg connectionId) successCount s =
          (Normal (successCount + Z.of_nat (length (filter (λ p, fulfilled p = true) promises))), s')
    ∧ same_tables s s' ∧ log_extends s s' ∧ heap s' = heap s.
Proof.
  induction promises as [|[cid [[]|e]] rest IH]; intros n s.
  - exists s. cbn. rewrite Z.add_0_r. split; [done|].
    split; [apply same_tables_refl|]. split; [apply log_extends_refl|done].
  - destruct (IH (n + 1) s) as (s' & He & H). exists s'. split; [|done].
    cbn [allSettled]. rewrite He. rewrite filter_cons_True by done. cbn [length].
    do 2 f_equal. lia.
  - destruct (IH n (write_log LWarn msg cid s)) as (s' & He & Ht & Hl & Hh).
    exists s'. split.
    { cbn [allSettled]. unfold bind. cbn beta.
      change (log LWarn msg cid s) with (Normal tt, write_log LWarn msg cid s).
      cbn beta iota. rewrite He.
      by rewrite filter_cons_False by done. }
    split; [by eapply same_tables_trans; [|exact Ht]; repeat split|].
    split; [by eapply log_extends_trans; [apply log_extends_write|]|done].
Qed.

Lemma fulfilled_outcomes (s : State) (connectionIds : list string) :
  length (filter (λ p, fulfilled p = true) (map (λ cid, (cid, delivery_outcome s cid)) connectionIds))
  = length (filter (λ cid, deliverable s cid = true) connectionIds).
Proof.
  induction connectionIds as [|cid rest IH]; [done|]. cbn [map].
  destruct (deliverable s cid) eqn:Hd.
  - rewrite !filter_cons_True; [cbn; by rewrite IH|done|].
    unfold fulfilled, delivery_outcome. cbn. by rewrite Hd.
  - rewrite !filter_cons_False; [done|by rewrite Hd|].
    unfold fulfilled, delivery_outcome. cbn. by rewrite Hd.
Qed.

Lemma stats_with_messagesSent_0 st : stats_with_messagesSent (messagesSent st + 0) st = st.
Proof. destruct st. unfold stats_with_messagesSent. cbn. by rewrite Z.add_0_r. Qed.

Lemma publish_spec {T} clock topic (payload : ISubscriptionPayload T) s :
  let connectionIds := subscribers s topic in
  let successCount := Z.of_nat (length (filter (λ cid, deliverable s cid = true) connectionIds)) in
  ∃ s', publish clock topic payload s = (Normal successCount, s')
    ∧ subscriptions s' = subscriptions s
    ∧ connections s' = connections s
    ∧ subscriptionConnections s' = subscriptionConnections s
    ∧ stats s' = stats_with_messagesSent (messagesSent (stats s) + successCount) (stats s)
    ∧ log_extends s s'
    ∧ (∀ r, heap s' r = heap s r
            ∨ ∃ cid, cid ∈ connectionIds ∧ connections s !! cid = Some r
                     ∧ isActive (heap s r) = true
                     ∧ heap s' r = with_lastActivity (clock cid) (heap s r))
    ∧ (∀ cid r, cid ∈ connectionIds → connections s !! cid = Some r →
                isActive (heap s r) = true →
                (∃ cid', cid' ∈ connectionIds ∧ connections s !! cid' = Some r
                         ∧ heap s' r = with_lastActivity (clock cid') (heap s r))
                ∧ published_entry cid ∈ logger s').
Proof.
  intros connectionIds successCount. subst connectionIds successCount. unfold subscribers.
  unfold publish. unfold bind at 1. unfold log at 1, modify at 1. cbn beta iota.
  set (s0 := write_log LDebug "Publishing to topic" topic s).
  unfold try_catch, bind at 1, get. cbn beta iota.
  change (subscriptionConnections s0) with (subscriptionConnections s).
  destruct (subscriptionConnections s !! topic) as [[|cid0 rest]|] eqn:Htopic.
  1,3: (eexists; split; [reflexivity|]; cbn;
        rewrite stats_with_messagesSent_0;
        do 4 (split; [done|]);
        split; [eapply log_extends_trans; apply log_extends_write|];
        split; [by left|]; intros ? ? H; by apply elem_of_nil in H).
  cbn [default]. set (connectionIds := cid0 :: rest).
  destruct (publish_loop clock topic payload connectionIds [] s0)
    as (s1 & He1 & Ht1 & Hl1 & Hh1 & Hp1).
  destruct (allSettled_spec "Failed to publish to connection"
              (map (λ cid, (cid, delivery_outcome s0 cid)) connectionIds) 0 s1)
    as (s2 & He2 & Ht2 & Hl2 & Hh2).
  unfold bind at 1. rewrite He1. cbn [app]. unfold bind at 1. rewrite He2.
  rewrite fulfilled_outcomes, Z.add_0_l.
  eexists. split; [reflexivity|]. cbn.
  destruct Ht1 as (Ha1 & Hb1 & Hc1 & Hd1), Ht2 as (Ha2 & Hb2 & Hc2 & Hd2).
  change (subscriptions s0) with (subscriptions s) in Ha1.
  change (connections s0) with (connections s) in Hb1.
  change (subscriptionConnections s0) with (subscriptionConnections s) in Hc1.
  change (stats s0) with (stats s) in Hd1.
  split; [congruence|]. split; [congruence|]. split; [congruence|].
  split; [by replace (stats s2) with (stats s) by congruence|].
  split.
  { eapply log_extends_trans; [apply (log_extends_write LDebug "Publishing to topic" topic)|].
    eapply log_extends_trans; [exact Hl1|]. eapply log_extends_trans; [exact Hl2|].
    eexists. reflexivity. }
  rewrite Hh2. split; [exact Hh1|].
  intros cid r Hin Hc Ha. destruct (Hp1 cid r Hin Hc Ha) as [Hx Hlog]. split; [done|].
  apply elem_of_app. left. by eapply log_extends_elem.
Qed.

(** ** The fan-out of [publishToSubscribers] *)

Lemma publishToSubscribers_each_spec {T} clock topic (payload : ISubscriptionPayload T)
    (filter : ISubscriptionFilter T) acc connectionId s :
  filter_error filter payload s connectionId = None →
  ∃ s', publishToSubscribers_each clock topic payload filter acc connectionId s =
          (Normal (acc ++ (if filter_passes filter payload s connectionId
                           then [(connectionId, delivery_outcome s connectionId)] else []))%list, s')
    ∧ same_tables s s' ∧ log_extends s s'
    ∧ (∀ r, heap s' r = heap s r
            ∨ (connections s !! connectionId = Some r
               ∧ selected filter payload s connectionId = true
               ∧ heap s' r = with_lastActivity (clock connectionId) (heap s r)))
    ∧ (∀ r, connections s !! connectionId = Some r →
            selected filter payload s connectionId = true →
            heap s' r = with_lastActivity (clock connectionId) (heap s r)
            ∧ published_entry connectionId ∈ logger s')
    ∧ (∀ r e, connections s !! connectionId = Some r →
              filter payload (heap s r) = Throws e →
              filter_error_entry connectionId ∈ logger s').
Proof.
  unfold publishToSubscribers_each, selected, filter_passes, filter_error, bind at 1, get.
  cbn beta iota.
  destruct (connections s !! connectionId) as [connection|] eqn:Hc.
  2: { intros _. exists s. rewrite app_nil_r. split; [done|]. split; [apply same_tables_refl|].
       split; [apply log_extends_refl|]. split; [by left|]. done. }
  unfold bind at 1, try_call.
  destruct (filter payload (heap s connection)) as [[|]|error] eqn:Hf; cbn beta iota.
  - intros _. destruct (publish_each_pointwise clock topic payload acc connectionId s)
      as (s' & He & Ht & Hl & Hh & Hp).
    exists s'. split; [exact He|]. split; [done|]. split; [done|].
    split; [|split].
    + intros r. destruct (Hh r) as [E|(Hc' & Ha & E)]; [by left|right].
      assert (r = connection) as -> by congruence.
      split; [done|]. split; [|done]. unfold deliverable. rewrite Hc. by rewrite Ha.
    + intros r [= <-] Hs. apply Hp; [done|]. unfold deliverable in Hs. by rewrite Hc in Hs.
    + intros r e [= <-]. congruence.
  - intros _. exists s. rewrite app_nil_r. split; [done|]. split; [apply same_tables_refl|].
    split; [apply log_extends_refl|]. split; [by left|].
    split; [done|]. intros r e [= <-]. congruence.
  - destruct (message_of error) as [message|e] eqn:Hm; [intros _|done].
    unfold bind, lift, log, modify, ret. cbn beta iota. eexists. rewrite app_nil_r.
    split; [reflexivity|]. split; [by repeat split|]. split; [apply log_extends_write|].
    split; [by left|]. split; [done|].
    intros _ _ _ _. cbn. apply elem_of_app. right. by apply list_elem_of_singleton.
Qed.

(** When the handler throws, the iteration leaves the state as it was. *)
Lemma publishToSubscribers_each_rejects {T} clock topic (payload : ISubscriptionPayload T)
    (filter : ISubscriptionFilter T) acc connectionId s e :
  filter_error filter payload s connectionId = Some e →
  publishToSubscribers_each clock topic payload filter acc connectionId s = (Throw e, s).
Proof.
  unfold publishToSubscribers_each, filter_error, bind at 1, get. cbn beta iota.
  destruct (connections s !! connectionId) as [connection|]; [|done].
  unfold bind at 1, try_call.
  destruct (filter payload (heap s connection)) as [b|error]; [done|].
  destruct (message_of error) as [message|e'] eqn:Hm; [done|]. intros [= ->].
  reflexivity.
Qed.

Lemma publishToSubscribers_loop_total {T} clock topic (payload : ISubscriptionPayload T)
    (filter : ISubscriptionFilter T) (connectionIds : list string) :
  ∀ acc s,
  ∃ more thrown s',
    for_of_until connectionIds (publishToSubscribers_each clock topic payload filter) acc s =
      (Normal ((acc ++ more)%list, thrown), s')
    ∧ same_tables s s' ∧ log_extends s s'
    ∧ (∀ r, heap s' r = heap s r
            ∨ ∃ cid, cid ∈ connectionIds ∧ connections s !! cid = Some r
                     ∧ isActive (heap s r) = true
                     ∧ heap s' r = with_lastActivity (clock cid) (heap s r)).
Proof.
  induction connectionIds as [|cid0 rest IH]; intros acc s.
  - exists [], None, s. cbn. rewrite app_nil_r. split; [done|].
    split; [apply same_tables_refl|]. split; [apply log_extends_refl|]. by left.
  - destruct (filter_error filter payload s cid0) as [e|] eqn:Hrej.
    { exists [], (Some e), s. cbn [for_of_until].
      rewrite (publishToSubscribers_each_rejects _ _ _ _ _ _ _ _ Hrej), app_nil_r.
      split; [done|]. split; [apply same_tables_refl|]. split; [apply log_extends_refl|].
      by left. }
    destruct (publishToSubscribers_each_spec clock topic payload filter acc cid0 s Hrej)
      as (s1 & He & Ht & Hl & Hh & _).
    destruct (IH (acc ++ (if filter_passes filter payload s cid0
                          then [(cid0, delivery_outcome s cid0)] else []))%list s1)
      as (more & thrown & s' & He' & Ht' & Hl' & Hh').
    eexists _, thrown, s'. split.
    { cbn [for_of_until]. rewrite He, He'. by rewrite <- app_assoc. }
    split; [by eapply same_tables_trans|]. split; [by eapply log_extends_trans|].
    assert (Hconn : connections s1 = connections s) by apply Ht.
    assert (Hsel : ∀ r, heap s1 r = heap s r
                        ∨ (connections s !! cid0 = Some r ∧ isActive (heap s r) = true
                           ∧ heap s1 r = with_lastActivity (clock cid0) (heap s r))).
    { intros r. destruct (Hh r) as [E|(Hc & Hs & E)]; [by left|right].
      split; [done|]. split; [|done]. unfold selected, deliverable in Hs.
      rewrite Hc in Hs. by apply andb_prop in Hs as [_ Hs]. }
    intros r. destruct (Hh' r) as [E'|(cid & Hin & Hc & Ha & E')].
    + destruct (Hsel r) as [E|(Hc & Ha & E)].
      * left. congruence.
      * right. exists cid0. rewrite E', E. split; [left|]. done.
    + right. exists cid. rewrite Hconn in Hc.
      assert (Ha0 : isActive (heap s r) = true).
      { destruct (Hsel r) as [E|(_ & _ & E)]; rewrite E in Ha; done. }
      split; [by right|]. split; [done|]. split; [done|].
      rewrite E'. destruct (Hsel r) as [->|(_ & _ & ->)]; done.
Qed.




Lemma tested_no_error {T} (f : ISubscriptionFilter T) payload s connectionIds cid :
  cid ∈ tested f payload s connectionIds → filter_error f payload s cid = None.
Proof.
  induction connectionIds as [|cid0 rest IH]; cbn; [by intros ?%elem_of_nil|].
  destruct (filter_error f payload s cid0) eqn:He; [by intros ?%elem_of_nil|].
  intros [-> | Hin]%elem_of_cons; [done|]. by apply IH.
Qed.

Lemma tested_all {T} (f : ISubscriptionFilter T) payload s connectionIds :
  rejection f payload s connectionIds = None → tested f payload s connectionIds = connectionIds.
Proof.
  induction connectionIds as [|cid0 rest IH]; cbn; [done|].
  destruct (filter_error f payload s cid0); [done|]. intros H. by rewrite IH.
Qed.




(** The call after its loop: it returns the count, or it throws what left
    the loop and writes no counter. *)
Lemma publishToSubscribers_unfold {T} clock topic (payload : ISubscriptionPayload T)
    (f : ISubscriptionFilter T) s :
  let s0 := write_log LDebug "Publishing to filtered subscribers" topic s in
  (subscribers s topic = [] ∧ publishToSubscribers clock topic payload f s = (Normal 0, s0))
  ∨ (∀ promises thrown s1,
       for_of_until (subscribers s topic) (publishToSubscribers_each clock topic payload f) [] s0
         = (Normal (promises, thrown), s1) →
       let successCount := Z.of_nat (length (filter (λ p, fulfilled p = true) promises)) in
       ∃ s', publishToSubscribers clock topic payload f s
             = (match thrown with None => Normal successCount | Some e => Throw e end, s')
         ∧ subscriptions s' = subscriptions s1
         ∧ connections s' = connections s1
         ∧ subscriptionConnections s' = subscriptionConnections s1
         ∧ stats s'
           = match thrown with
             | None => stats_with_messagesSent (messagesSent (stats s1) + successCount) (stats s1)
             | Some _ => stats s1
             end
         ∧ heap s' = heap s1
         ∧ log_extends s1 s').
Proof.
  intros s0. unfold subscribers.
  destruct (subscriptionConnections s !! topic) as [[|cid0 rest]|] eqn:Htopic.
  1,3: (left; split; [done|];
        unfold publishToSubscribers, bind, log, modify, get, ret;
        cbn; by rewrite Htopic).
  right. intros promises thrown s1 He.
  change (default [] (Some (cid0 :: rest))) with (cid0 :: rest) in He.
  unfold publishToSubscribers.
  unfold bind at 1. unfold log at 1, modify at 1. cbn beta iota. fold s0.
  unfold bind at 1, get. cbn beta iota.
  change (subscriptionConnections s0) with (subscriptionConnections s).
  rewrite Htopic. cbn beta iota.
  unfold bind at 1. rewrite He. cbn beta iota.
  destruct thrown as [e|].
  - set (s1' := write_log LError "Failed to publish to filtered subscribers" topic s1).
    destruct (allSettled_spec "Failed to publish to filtered connection" promises 0 s1')
      as (s2 & He2 & (Ha2 & Hb2 & Hc2 & Hd2) & Hl2 & Hh2).
    unfold bind at 1. unfold log at 1, modify at 1. cbn beta iota. fold s1'.
    unfold bind at 1. rewrite He2. cbn beta iota. unfold throw.
    exists s2. split; [reflexivity|].
    split; [done|]. split; [done|]. split; [done|]. split; [done|].
    split; [done|]. eapply log_extends_trans; [apply log_extends_write|exact Hl2].
  - destruct (allSettled_spec "Failed to publish to filtered connection" promises 0 s1)
      as (s2 & He2 & (Ha2 & Hb2 & Hc2 & Hd2) & Hl2 & Hh2).
    unfold bind at 1. rewrite He2. rewrite Z.add_0_l.
    eexists. split; [reflexivity|]. cbn.
    split; [done|]. split; [done|]. split; [done|]. split; [by rewrite Hd2|].
    split; [done|]. eapply log_extends_trans; [exact Hl2|]. eexists. reflexivity.
Qed.

(** [publishToSubscribers] returns a count or throws; either way it writes
    no table, and no counter but [messagesSent], which it writes when it
    returns. *)
Lemma publishToSubscribers_total {T} clock topic (payload : ISubscriptionPayload T)
    (f : ISubscriptionFilter T) s :
  ∃ c s',
    publishToSubscribers clock topic payload f s = (c, s')
    ∧ subscriptions s' = subscriptions s
    ∧ connections s' = connections s
    ∧ subscriptionConnections s' = subscriptionConnections s
    ∧ match c with
      | Normal successCount =>
          0 ≤ successCount
          ∧ stats s' = stats_with_messagesSent (messagesSent (stats s) + successCount) (stats s)
      | Throw _ => stats s' = stats s
      end
    ∧ log_extends s s'
    ∧ (∀ r, heap s' r = heap s r
            ∨ ∃ cid, cid ∈ subscribers s topic ∧ connections s !! cid = Some r
                     ∧ isActive (heap s r) = true
                     ∧ heap s' r = with_lastActivity (clock cid) (heap s r)).
Proof.
  destruct (publishToSubscribers_unfold clock topic payload f s) as [[_ He]|Hrun].
  - eexists (Normal 0), _. split; [exact He|]. cbn. rewrite stats_with_messagesSent_0.
    do 3 (split; [done|]). split; [done|]. split; [apply log_extends_write|]. by left.
  - destruct (publishToSubscribers_loop_total clock topic payload f (subscribers s topic) []
                (write_log LDebug "Publishing to filtered subscribers" topic s))
      as (promises & thrown & s1 & He1 & (Ha1 & Hb1 & Hc1 & Hd1) & Hl1 & Hh1).
    destruct (Hrun _ _ _ He1) as (s' & He & Ha & Hb & Hc & Hd & Hh & Hl).
    eexists _, s'. split; [exact He|]. cbn in Ha1, Hb1, Hc1, Hd1.
    split; [congruence|]. split; [congruence|]. split; [congruence|].
    split; [destruct thrown; [by rewrite Hd, Hd1|split; [lia|by rewrite Hd, Hd1]]|].
    split; [eapply log_extends_trans; [apply log_extends_write|];
            by eapply log_extends_trans|].
    intros r. rewrite Hh. apply Hh1.
Qed.







(** ** [subscribe], [unsubscribe] and [closeConnection] *)

Lemma unsubscribe_live subscriptionId s :
  is_Some (subscriptions s !! subscriptionId) →
  unsubscribe subscriptionId s =
    (Normal true,
     write_log LInfo "Subscription removed successfully" subscriptionId
       (set_stats (λ st, stats_with_totalSubscriptions (totalSubscriptions st - 1) st)
          (set_subscriptionConnections (fmap (Set_delete subscriptionId))
             (set_subscriptions (delete subscriptionId)
                (write_log LDebug "Unsubscribing" subscriptionId s))))).
Proof.
  intros H. unfold unsubscribe, bind, try_catch, log, modify, get, ret. cbn.
  by rewrite bool_decide_true.
Qed.

Lemma unsubscribe_unknown subscriptionId s :
  subscriptions s !! subscriptionId = None →
  unsubscribe subscriptionId s =
    (Normal false,
     set_subscriptions (delete subscriptionId) (write_log LDebug "Unsubscribing" subscriptionId s)).
Proof.
  intros H. unfold unsubscribe, bind, try_catch, log, modify, get, ret. cbn.
  rewrite bool_decide_false; [done|]. rewrite H. by intros [? ?].
Qed.

Lemma Set_delete_not_elem x (ids : list string) : x ∉ Set_delete x ids.
Proof. unfold Set_delete. rewrite list_elem_of_filter. by intros [? _]. Qed.

Lemma Set_delete_subseteq x y (ids : list string) : y ∈ Set_delete x ids → y ∈ ids.
Proof. unfold Set_delete. rewrite list_elem_of_filter. by intros [_ ?]. Qed.

(** What one [unsubscribe] does, in both cases. *)
Lemma unsubscribe_spec subscriptionId s :
  ∃ s', unsubscribe subscriptionId s
          = (Normal (bool_decide (is_Some (subscriptions s !! subscriptionId))), s')
    ∧ subscriptions s' = delete subscriptionId (subscriptions s)
    ∧ connections s' = connections s
    ∧ heap s' = heap s
    ∧ log_extends s s'
    ∧ (is_Some (subscriptions s !! subscriptionId) →
         subscriptionConnections s' = Set_delete subscriptionId <$> subscriptionConnections s
         ∧ stats s' = stats_with_totalSubscriptions (totalSubscriptions (stats s) - 1) (stats s))
    ∧ (subscriptions s !! subscriptionId = None →
         subscriptionConnections s' = subscriptionConnections s ∧ stats s' = stats s).
Proof.
  destruct (subscriptions s !! subscriptionId) as [resolver|] eqn:Hs.
  - rewrite unsubscribe_live by (by rewrite Hs). rewrite bool_decide_true by done.
    eexists. split; [reflexivity|]. cbn. do 3 (split; [done|]).
    split; [|by split].
    eapply log_extends_trans; [apply log_extends_write|]. eexists. reflexivity.
  - rewrite unsubscribe_unknown by done. rewrite bool_decide_false by (by intros [? ?]).
    eexists. split; [reflexivity|]. cbn. do 3 (split; [done|]).
    split; [apply log_extends_write|]. split; [by intros [? ?]|done].
Qed.

Lemma unsubscribe_twice subscriptionId s :
  (unsubscribe subscriptionId (unsubscribe subscriptionId s).2).1 = Normal false.
Proof.
  destruct (unsubscribe_spec subscriptionId s) as (s' & -> & Hs & _). cbn [snd].
  rewrite unsubscribe_unknown; [done|]. rewrite Hs. apply lookup_delete_eq.
Qed.

Lemma unsubscribe_stats subscriptionId s :
  same_stats_but_total (stats s) (stats (unsubscribe subscriptionId s).2).
Proof.
  destruct (unsubscribe_spec subscriptionId s) as (s' & -> & _ & _ & _ & _ & Hl & Hu).
  cbn [snd]. destruct (subscriptions s !! subscriptionId) eqn:E.
  - destruct Hl as [_ ->]; [done|]. by repeat split.
  - destruct Hu as [_ ->]; [done|]. by repeat split.
Qed.

Lemma unsubscribe_topics subscriptionId s topic members' :
  subscriptionConnections (unsubscribe subscriptionId s).2 !! topic = Some members' →
  ∃ members, subscriptionConnections s !! topic = Some members
             ∧ ∀ x, x ∈ members' → x ∈ members.
Proof.
  destruct (unsubscribe_spec subscriptionId s) as (s' & -> & _ & _ & _ & _ & Hl & Hu).
  cbn [snd]. destruct (subscriptions s !! subscriptionId) eqn:E.
  - destruct Hl as [-> _]; [done|]. rewrite lookup_fmap.
    destruct (subscriptionConnections s !! topic) as [members|]; [|done].
    intros [= <-]. exists members. split; [done|]. intros x. apply Set_delete_subseteq.
  - destruct Hu as [-> _]; [done|]. intros ->. by eexists.
Qed.

Lemma closeConnection_cascade (subscriptionIds : list string) :
  ∀ s,
  ∃ s', for_of subscriptionIds closeConnection_each tt s = (Normal tt, s')
    ∧ connections s' = connections s
    ∧ heap s' = heap s
    ∧ log_extends s s'
    ∧ same_stats_but_total (stats s) (stats s')
    ∧ (∀ sid, sid ∈ subscriptionIds → subscriptions s' !! sid = None)
    ∧ (∀ sid, sid ∉ subscriptionIds → subscriptions s' !! sid = subscriptions s !! sid)
    ∧ (∀ sid, sid ∈ subscriptionIds → is_Some (subscriptions s !! sid) →
         ∀ topic members, subscriptionConnections s' !! topic = Some members → sid ∉ members)
    ∧ (∀ topic members', subscriptionConnections s' !! topic = Some members' →
         ∃ members, subscriptionConnections s !! topic = Some members
                    ∧ ∀ x, x ∈ members' → x ∈ members).
Proof.
  induction subscriptionIds as [|sid0 rest IH]; intros s.
  - exists s. split; [done|]. do 2 (split; [done|]). split; [apply log_extends_refl|].
    split; [by repeat split|]. split; [intros ? H; by apply elem_of_nil in H|].
    split; [done|]. split; [intros ? H; by apply elem_of_nil in H|].
    intros topic members' ->. by eexists.
  - pose proof (unsubscribe_stats sid0 s) as Hst.
    pose proof (unsubscribe_topics sid0 s) as Htop.
    destruct (unsubscribe_spec sid0 s) as (s1 & He & Hs & Hc & Hh & Hlog & Hl & Hu).
    rewrite He in Hst, Htop. cbn [snd] in Hst, Htop.
    destruct (IH s1) as (s' & He' & Hc' & Hh' & Hlog' & Hst' & Hgone & Hkeep & Habs & Htop').
    exists s'. split.
    { cbn [for_of]. unfold bind at 1, closeConnection_each at 1, bind at 1. rewrite He.
      unfold ret at 1. exact He'. }
    split; [congruence|]. split; [congruence|]. split; [by eapply log_extends_trans|].
    split.
    { destruct Hst as (?&?&?&?&?&?&?), Hst' as (?&?&?&?&?&?&?). repeat split; congruence. }
    split; [|split; [|split]].
    + intros sid Hin. destruct (decide (sid ∈ rest)) as [Hr|Hr]; [by apply Hgone|].
      apply elem_of_cons in Hin as [->|Hin]; [|done].
      rewrite (Hkeep _ Hr), Hs. apply lookup_delete_eq.
    + intros sid Hnot. apply not_elem_of_cons in Hnot as [Hne Hnot].
      rewrite (Hkeep _ Hnot), Hs. by apply lookup_delete_ne.
    + intros sid Hin Hlive topic members Hm.
      destruct (decide (sid = sid0)) as [->|Hne].
      * destruct (Htop' _ _ Hm) as (members1 & Hm1 & Hsub).
        destruct (Hl Hlive) as [Hsc _]. rewrite Hsc, lookup_fmap in Hm1.
        destruct (subscriptionConnections s !! topic) as [members0|]; [|done].
        injection Hm1 as <-. intros Hx. by apply Hsub, Set_delete_not_elem in Hx.
      * apply elem_of_cons in Hin as [?|Hin]; [done|].
        eapply (Habs sid Hin); [|exact Hm]. rewrite Hs. by rewrite lookup_delete_ne.
    + intros topic members' Hm. destruct (Htop' _ _ Hm) as (members1 & Hm1 & Hsub1).
      destruct (Htop _ _ Hm1) as (members & Hm0 & Hsub0).
      exists members. split; [done|]. auto.
Qed.

Lemma unsubscribe_topics_NoDup subscriptionId s :
  topics_NoDup s → topics_NoDup (unsubscribe subscriptionId s).2.
Proof.
  intros Hnd.
  destruct (unsubscribe_spec subscriptionId s) as (s' & -> & _ & _ & _ & _ & Hl & Hu).
  cbn [snd]. unfold topics_NoDup. destruct (subscriptions s !! subscriptionId) eqn:E.
  - destruct Hl as [-> _]; [done|]. apply map_Forall_fmap.
    intros topic members Hm. cbn. apply NoDup_filter. exact (Hnd _ _ Hm).
  - by destruct Hu as [-> _].
Qed.

Lemma cascade_topics_NoDup (subscriptionIds : list string) :
  ∀ s, topics_NoDup s → topics_NoDup (for_of subscriptionIds closeConnection_each tt s).2.
Proof.
  induction subscriptionIds as [|sid0 rest IH]; intros s Hnd; [done|].
  pose proof (unsubscribe_topics_NoDup sid0 s Hnd) as Hnd1.
  destruct (unsubscribe_spec sid0 s) as (s1 & He & _).
  rewrite He in Hnd1. cbn [snd] in Hnd1.
  cbn [for_of]. unfold bind at 1, closeConnection_each at 1, bind at 1. rewrite He.
  unfold ret at 1. by apply IH.
Qed.

Lemma closeConnection_unknown connectionId s :
  connections s !! connectionId = None →
  closeConnection connectionId s = (Normal false, write_log LDebug "Closing connection" connectionId s).
Proof.
  intros H. unfold closeConnection, bind, try_catch, log, modify, get, ret. cbn. by rewrite H.
Qed.

Lemma closeConnection_known connectionId s connection :
  connections s !! connectionId = Some connection →
  ∃ s', closeConnection connectionId s = (Normal true, s')
    ∧ connections s' = delete connectionId (connections s)
    ∧ heap s' = store connection (with_isActive false (heap s connection)) (heap s)
    ∧ activeConnections (stats s') = activeConnections (stats s) - 1
    ∧ peakConnections (stats s') = peakConnections (stats s)
    ∧ log_extends s s'
    ∧ (∀ sid, sid ∈ Connection.subscriptions (heap s connection) → subscriptions s' !! sid = None)
    ∧ (∀ sid, sid ∉ Connection.subscriptions (heap s connection) →
         subscriptions s' !! sid = subscriptions s !! sid)
    ∧ (∀ sid, sid ∈ Connection.subscriptions (heap s connection) →
         is_Some (subscriptions s !! sid) →
         ∀ topic members, subscriptionConnections s' !! topic = Some members → sid ∉ members)
    ∧ (∀ topic members', subscriptionConnections s' !! topic = Some members' →
         ∃ members, subscriptionConnections s !! topic = Some members
                    ∧ ∀ x, x ∈ members' → x ∈ members)
    ∧ (topics_NoDup s → topics_NoDup s').
Proof.
  intros Hc. unfold closeConnection.
  unfold bind at 1. unfold log at 1, modify at 1. cbn beta iota.
  set (s0 := write_log LDebug "Closing connection" connectionId s).
  unfold try_catch, bind at 1, get at 1. cbn beta iota.
  change (connections s0) with (connections s). rewrite Hc.
  unfold bind at 1, modify at 1. cbn beta iota.
  set (s1 := set_heap _ s0).
  unfold bind at 1, get at 1. cbn beta iota.
  assert (Hsubs : Connection.subscriptions (heap s1 connection)
                  = Connection.subscriptions (heap s connection)).
  { subst s1 s0. cbn. by rewrite store_eq. }
  rewrite Hsubs.
  destruct (closeConnection_cascade (Connection.subscriptions (heap s connection)) s1)
    as (s2 & He & Hc2 & Hh2 & Hlog2 & Hst2 & Hgone & Hkeep & Habs & Htop).
  unfold bind at 1. rewrite He.
  eexists. split; [reflexivity|]. cbn.
  split; [by rewrite Hc2|]. split; [by rewrite Hh2|].
  destruct Hst2 as (Hac & _ & _ & _ & Hpk & _).
  split; [by rewrite Hac|]. split; [by rewrite Hpk|].
  split.
  { eapply log_extends_trans; [apply (log_extends_write LDebug "Closing connection" connectionId)|].
    eapply log_extends_trans; [|eexists; reflexivity].
    destruct Hlog2 as [more Hmore]. exists more. exact Hmore. }
  do 4 (split; [done|]).
  intros Hnd. pose proof (cascade_topics_NoDup (Connection.subscriptions (heap s connection)) s1 Hnd) as H.
  by rewrite He in H.
Qed.

Lemma closeConnection_twice connectionId s :
  (closeConnection connectionId (closeConnection connectionId s).2).1 = Normal false.
Proof.
  destruct (connections s !! connectionId) as [connection|] eqn:Hc.
  - destruct (closeConnection_known _ _ _ Hc) as (s' & -> & Hc' & _). cbn [snd].
    rewrite closeConnection_unknown; [done|]. rewrite Hc'. apply lookup_delete_eq.
  - rewrite (closeConnection_unknown _ _ Hc). cbn [snd]. by rewrite closeConnection_unknown.
Qed.

Lemma subscribe_spec random now name resolver options s :
  ∃ s', subscribe random now name resolver options s = (Normal (generateId random now), s')
    ∧ subscriptions s' = <[generateId random now := resolver]> (subscriptions s)
    ∧ subscriptionConnections s' =
        match subscriptionConnections s !! name with
        | Some _ => subscriptionConnections s
        | None => <[name := []]> (subscriptionConnections s)
        end
    ∧ stats s' = stats_with_totalSubscriptions (totalSubscriptions (stats s) + 1) (stats s)
    ∧ connections s' = connections s
    ∧ heap s' = heap s.
Proof.
  unfold subscribe, bind, try_catch, log, modify, get, ret. cbn.
  destruct (subscriptionConnections s !! name) eqn:E; eexists; (split; [reflexivity|]); cbn;
    rewrite ?E; by repeat split.
Qed.

Lemma subscribe_topics random now name resolver options s topic members :
  subscriptionConnections (subscribe random now name resolver options s).2 !! topic = Some members →
  ∀ x, x ∈ members → ∃ members0, subscriptionConnections s !! topic = Some members0 ∧ x ∈ members0.
Proof.
  destruct (subscribe_spec random now name resolver options s) as (s' & -> & _ & Hsc & _).
  cbn [snd]. rewrite Hsc. destruct (subscriptionConnections s !! name) eqn:E.
  - intros Hm x Hx. eauto.
  - destruct (decide (name = topic)) as [->|Hne].
    + rewrite lookup_insert_eq. intros [= <-] x Hx. by apply elem_of_nil in Hx.
    + rewrite lookup_insert_ne by done. intros Hm x Hx. eauto.
Qed.

Lemma call_spec c s :
  ∃ s', call tt c s = (Normal tt, s')
    ∧ connections s' = connections s
    ∧ heap s' = heap s
    ∧ (fresh_ids [c] s = true →
       totalSubscriptions (stats s) = live_subscriptions s →
       totalSubscriptions (stats s') = live_subscriptions s')
    ∧ (∀ topic members, subscriptionConnections s' !! topic = Some members →
         ∀ x, x ∈ members →
         ∃ members0, subscriptionConnections s !! topic = Some members0 ∧ x ∈ members0).
Proof.
  destruct c as [random now name resolver options|subscriptionId].
  - pose proof (subscribe_topics random now name resolver options s) as Htop.
    destruct (subscribe_spec random now name resolver options s)
      as (s' & He & Hs & Hsc & Hst & Hc & Hh).
    rewrite He in Htop. cbn [snd] in Htop.
    exists s'. split; [unfold call, bind; by rewrite He|].
    do 2 (split; [done|]). split; [|done].
    cbn [fresh_ids]. rewrite andb_true_r. intros Hf%bool_decide_eq_true Hinv.
    unfold live_subscriptions in *. rewrite Hst, Hs. cbn.
    rewrite map_size_insert_None by done. lia.
  - pose proof (unsubscribe_topics subscriptionId s) as Htop.
    destruct (unsubscribe_spec subscriptionId s) as (s' & He & Hs & Hc & Hh & _ & Hl & Hu).
    rewrite He in Htop. cbn [snd] in Htop.
    exists s'. split; [unfold call, bind; by rewrite He|].
    do 2 (split; [done|]). split.
    + intros _ Hinv. unfold live_subscriptions in *. rewrite Hs.
      destruct (subscriptions s !! subscriptionId) as [resolver|] eqn:E.
      * destruct Hl as [_ ->]; [done|]. cbn.
        rewrite map_size_delete_Some by done.
        pose proof (map_size_ne_0_lookup_2 (subscriptions s) subscriptionId) as Hne.
        rewrite E in Hne. specialize (Hne (mk_is_Some _ _ eq_refl)). lia.
      * destruct Hu as [_ ->]; [done|]. by rewrite map_size_delete_None.
    + intros topic members Hm x Hx. destruct (Htop _ _ Hm) as (members0 & Hm0 & Hsub). eauto.
Qed.

(** [closeConnection] on a registered id, step by step. *)
Lemma closeConnection_known_eq connectionId s connection :
  connections s !! connectionId = Some connection →
  closeConnection connectionId s =
    (Normal true,
     write_log LInfo "Connection closed" connectionId
       (set_stats (λ st, stats_with_activeConnections (activeConnections st - 1) st)
          (set_connections (delete connectionId)
             (exec (for_of (Connection.subscriptions (heap s connection)) closeConnection_each tt)
                (set_heap (store connection (with_isActive false (heap s connection)))
                   (write_log LDebug "Closing connection" connectionId s)))))).
Proof.
  intros Hc. unfold closeConnection.
  unfold bind at 1. unfold log at 1, modify at 1. cbn beta iota.
  set (s0 := write_log LDebug "Closing connection" connectionId s).
  unfold try_catch, bind at 1, get at 1. cbn beta iota.
  change (connections s0) with (connections s). rewrite Hc.
  unfold bind at 1, modify at 1. cbn beta iota.
  set (s1 := set_heap _ s0).
  unfold bind at 1, get at 1. cbn beta iota.
  assert (Hsubs : Connection.subscriptions (heap s1 connection)
                  = Connection.subscriptions (heap s connection)).
  { subst s1 s0. cbn. by rewrite store_eq. }
  rewrite Hsubs.
  destruct (closeConnection_cascade (Connection.subscriptions (heap s connection)) s1)
    as (s2 & He & _).
  unfold exec. unfold bind at 1. rewrite He. reflexivity.
Qed.

(** ** The stretches of [closeConnection] *)

Lemma cascade_cons sid0 rest s :
  exec (for_of (sid0 :: rest) closeConnection_each tt) s
  = exec (for_of rest closeConnection_each tt) (exec (unsubscribe sid0) s).
Proof.
  unfold exec. destruct (unsubscribe_spec sid0 s) as (s1 & He & _).
  cbn [for_of]. unfold bind at 1, closeConnection_each at 1, bind at 1. rewrite He.
  reflexivity.
Qed.

Lemma closeConnection_loop_next connectionId connection visited subscriptionId s :
  Connection.subscriptions (heap s connection) !! visited = Some subscriptionId →
  closeConnection_loop connectionId connection visited s
  = (Normal (inr (Closing connectionId connection (S visited))),
     (unsubscribe subscriptionId s).2).
Proof.
  intros Hnext. unfold closeConnection_loop, bind at 1, get. cbn beta iota. rewrite Hnext.
  destruct (unsubscribe_spec subscriptionId s) as (s' & He & _).
  unfold bind. by rewrite He.
Qed.

Lemma closeConnection_loop_end connectionId connection visited s :
  Connection.subscriptions (heap s connection) !! visited = None →
  closeConnection_loop connectionId connection visited s
  = (Normal (inl (VBoolean true)),
     write_log LInfo "Connection closed" connectionId
       (set_stats (λ st, stats_with_activeConnections (activeConnections st - 1) st)
          (set_connections (delete connectionId) s))).
Proof.
  intros Hend. unfold closeConnection_loop, bind at 1, get. cbn beta iota. by rewrite Hend.
Qed.

Lemma closeConnection_begin_unknown connectionId s :
  connections s !! connectionId = None →
  closeConnection_begin connectionId s
  = (Normal (inl (VBoolean false)), write_log LDebug "Closing connection" connectionId s).
Proof.
  intros Hc. unfold closeConnection_begin, bind, log, modify, get, ret. cbn. by rewrite Hc.
Qed.

Lemma closeConnection_begin_known connectionId connection s :
  connections s !! connectionId = Some connection →
  closeConnection_begin connectionId s
  = closeConnection_loop connectionId connection 0
      (set_heap (store connection (with_isActive false (heap s connection)))
         (write_log LDebug "Closing connection" connectionId s)).
Proof.
  intros Hc. unfold closeConnection_begin, bind, log, modify, get. cbn. by rewrite Hc.
Qed.

Lemma drop_cons_lookup {A} (l : list A) (k : nat) (x : A) (rest : list A) :
  drop k l = x :: rest → l !! k = Some x ∧ drop (S k) l = rest.
Proof.
  intros Hdrop. split.
  - rewrite <- (Nat.add_0_r k), <- lookup_drop. by rewrite Hdrop.
  - replace (S k) with (k + 1)%nat by lia. rewrite <- drop_drop. by rewrite Hdrop.
Qed.

Lemma drop_nil_lookup {A} (l : list A) (k : nat) : drop k l = [] → l !! k = None.
Proof.
  intros Hdrop. rewrite <- (Nat.add_0_r k), <- lookup_drop. by rewrite Hdrop.
Qed.

Lemma resume_alone_S awaits task s :
  resume_alone (S awaits) task s
  = match resume task s with
    | (Normal (inl value), s') => (Normal (inl value), s')
    | (Normal (inr task'), s') => resume_alone awaits task' s'
    | (Throw e, s') => (Throw e, s')
    end.
Proof.
  cbn [resume_alone]. unfold bind. by destruct (resume task s) as [[[value|task']|e] s'].
Qed.

(** The stretches of the loop, run one after the other, are the loop. *)
Lemma closeConnection_loop_alone connectionId connection (rest : list string) :
  ∀ visited s,
    drop visited (Connection.subscriptions (heap s connection)) = rest →
    resume_alone (S (length rest)) (Closing connectionId connection visited) s
    = (Normal (inl (VBoolean true)),
       write_log LInfo "Connection closed" connectionId
         (set_stats (λ st, stats_with_activeConnections (activeConnections st - 1) st)
            (set_connections (delete connectionId)
               (exec (for_of rest closeConnection_each tt) s)))).
Proof.
  induction rest as [|sid rest IH]; intros visited s Hdrop.
  - rewrite resume_alone_S. cbn [resume].
    by rewrite closeConnection_loop_end by by apply drop_nil_lookup.
  - apply drop_cons_lookup in Hdrop as [Hnext Hdrop].
    change (length (sid :: rest)) with (S (length rest)).
    rewrite resume_alone_S. cbn [resume].
    rewrite (closeConnection_loop_next _ _ _ _ _ Hnext).
    destruct (unsubscribe_spec sid s) as (s1 & He & _ & _ & Hh & _).
    rewrite He. cbn [snd]. rewrite IH by by rewrite Hh.
    rewrite cascade_cons. unfold exec at 3. by rewrite He.
Qed.

(** [closeConnection] is its stretches run one after the other: its first
    stretch ends the call, or the stretches that follow do, and the value
    and the state are those of [closeConnection]. *)
Lemma closeConnection_alone connectionId s :
  ∃ awaits,
    (next <- closeConnection_begin connectionId ;;
     match next with
     | inl value => ret (inl value)
     | inr task => resume_alone awaits task
     end) s
    = match closeConnection connectionId s with
      | (Normal b, s') => (Normal (inl (VBoolean b)), s')
      | (Throw e, s') => (Throw e, s')
      end.
Proof.
  destruct (connections s !! connectionId) as [connection|] eqn:Hc.
  - rewrite (closeConnection_known_eq _ _ _ Hc).
    set (s0 := set_heap _ _).
    assert (Hsubs : Connection.subscriptions (heap s0 connection)
                    = Connection.subscriptions (heap s connection)).
    { subst s0. cbn. by rewrite store_eq. }
    destruct (Connection.subscriptions (heap s connection)) as [|sid rest] eqn:Hl.
    + exists 0%nat. unfold bind.
      rewrite (closeConnection_begin_known _ _ _ Hc). fold s0.
      rewrite closeConnection_loop_end by by rewrite Hsubs. reflexivity.
    + exists (S (length rest)). unfold bind at 1.
      rewrite (closeConnection_begin_known _ _ _ Hc). fold s0.
      rewrite (closeConnection_loop_next _ _ _ sid) by by rewrite Hsubs.
      destruct (unsubscribe_spec sid s0) as (s1 & He & _ & _ & Hh & _).
      rewrite He. cbn [snd].
      rewrite (closeConnection_loop_alone connectionId connection rest 1 s1)
        by by rewrite Hh, Hsubs.
      rewrite cascade_cons. unfold exec at 3. by rewrite He.
  - exists 0%nat. unfold bind.
    rewrite (closeConnection_begin_unknown _ _ Hc), (closeConnection_unknown _ _ Hc).
    reflexivity.
Qed.

Lemma unsubscribe_keeps_member subscriptionId x s topic members :
  subscriptions s !! x = None →
  subscriptionConnections s !! topic = Some members → x ∈ members →
  subscriptions (exec (unsubscribe subscriptionId) s) !! x = None
  ∧ ∃ members', subscriptionConnections (exec (unsubscribe subscriptionId) s) !! topic
                = Some members' ∧ x ∈ members'.
Proof.
  intros Hx Hm Hin. unfold exec.
  destruct (unsubscribe_spec subscriptionId s) as (s' & He & Hs & _ & _ & _ & Hl & Hu).
  rewrite He. cbn [snd]. split.
  - rewrite Hs. destruct (decide (subscriptionId = x)) as [->|Hne].
    + apply lookup_delete_eq.
    + by rewrite lookup_delete_ne.
  - destruct (subscriptions s !! subscriptionId) as [resolver|] eqn:E.
    + destruct Hl as [-> _]; [done|]. rewrite lookup_fmap, Hm. cbn.
      eexists. split; [done|]. unfold Set_delete. apply list_elem_of_filter.
      split; [|done]. intros ->. congruence.
    + destruct Hu as [-> _]; [done|]. eauto.
Qed.

Lemma cascade_keeps_member (subscriptionIds : list string) x topic :
  ∀ s members,
  subscriptions s !! x = None →
  subscriptionConnections s !! topic = Some members → x ∈ members →
  ∃ members', subscriptionConnections (exec (for_of subscriptionIds closeConnection_each tt) s)
                !! topic = Some members' ∧ x ∈ members'.
Proof.
  induction subscriptionIds as [|sid0 rest IH]; intros s members Hx Hm Hin; [by eauto|].
  rewrite cascade_cons.
  destruct (unsubscribe_keeps_member sid0 x s topic members Hx Hm Hin)
    as (Hx' & members1 & Hm1 & Hin1).
  by eapply IH.
Qed.

(** A [closeConnection] on hold that is let run. *)
Lemma step_resumed_closing {T} i w connectionId connection visited :
  on_hold w !! i = Some (Closing connectionId connection visited) →
  step (@Resumed T i) w
  = match Connection.subscriptions (heap (manager w) connection) !! visited with
    | Some subscriptionId =>
        {| manager := (unsubscribe subscriptionId (manager w)).2;
           on_hold := delete i (on_hold w) ++ [Closing connectionId connection (S visited)];
           closed := closed w |}
    | None =>
        {| manager := closed_state connectionId (manager w);
           on_hold := delete i (on_hold w);
           closed := closed w ++ [(connectionId, true)] |}
    end.
Proof.
  intros Htask. cbn [step]. rewrite Htask. unfold stretch. cbn [resume closing_id].
  destruct (Connection.subscriptions (heap (manager w) connection) !! visited)
    as [subscriptionId|] eqn:Hnext.
  - by rewrite (closeConnection_loop_next _ _ _ _ _ Hnext).
  - by rewrite (closeConnection_loop_end _ _ _ _ Hnext).
Qed.

(** Every [closeConnection] on hold that comes to its end returns [true],
    takes its id out of [connections] and lowers [activeConnections] by
    one, whatever ran meanwhile. *)
Lemma run_resumed_closing {T} (resumes : list nat) :
  ∀ w, Forall is_closing (on_hold w) →
  let w' := run (map (@Resumed T) resumes) w in
  Forall is_closing (on_hold w')
  ∧ ∃ finished,
      closed w' = closed w ++ map (λ connectionId, (connectionId, true)) finished
      ∧ omap closing_id (on_hold w') ++ finished ≡ₚ omap closing_id (on_hold w)
      ∧ activeConnections (stats (manager w'))
        = activeConnections (stats (manager w)) - Z.of_nat (length finished)
      ∧ ∀ k, connections (manager w') !! k
             = if decide (k ∈ finished) then None else connections (manager w) !! k.
Proof.
  induction resumes as [|i resumes IH]; intros w Hall; cbn zeta.
  - split; [done|]. exists []. cbn. rewrite !app_nil_r. split; [done|]. split; [done|].
    split; [lia|]. intros k. by rewrite decide_False by by intros ?%elem_of_nil.
  - cbn [map run fold_left]. fold (run (map (@Resumed T) resumes) (step (@Resumed T i) w)).
    destruct (on_hold w !! i) as [task|] eqn:Htask.
    2: { cbn [step]. rewrite Htask. by apply IH. }
    assert (Hclosing : is_closing task)
      by (eapply (proj1 (Forall_forall _ _) Hall), list_elem_of_lookup_2, Htask).
    destruct task as [connectionId connection visited|]; [|by destruct Hclosing].
    pose proof (delete_Permutation _ _ _ Htask) as Hperm.
    assert (Hids : omap closing_id (on_hold w)
                   ≡ₚ connectionId :: omap closing_id (delete i (on_hold w)))
      by by rewrite Hperm at 1.
    assert (Hothers : Forall is_closing (delete i (on_hold w))).
    { rewrite Hperm in Hall. by apply Forall_cons in Hall as [_ Hall]. }
    rewrite (step_resumed_closing (T := T) _ _ _ _ _ Htask).
    destruct (Connection.subscriptions (heap (manager w) connection) !! visited)
      as [subscriptionId|].
    + pose proof (unsubscribe_stats subscriptionId (manager w)) as (Hac & _).
      destruct (unsubscribe_spec subscriptionId (manager w)) as (s1 & He & _ & Hc1 & _).
      rewrite He in Hac |- *. cbn [snd] in Hac |- *.
      set (w1 := Build_World _ _ _).
      destruct (IH w1) as (Hall' & finished & Hclosed & Hperm' & Hactive & Hconn).
      { subst w1. cbn. apply Forall_app. split; [done|]. apply Forall_singleton. by eexists. }
      split; [done|]. exists finished. split; [done|].
      cbn [w1 manager on_hold closed] in Hperm', Hactive, Hconn.
      split; [|split].
      * rewrite Hperm', Hids, omap_app. cbn. by rewrite Permutation_app_comm.
      * by rewrite Hactive, Hac.
      * intros k. by rewrite Hconn, Hc1.
    + set (w1 := Build_World _ _ _).
      destruct (IH w1) as (Hall' & finished & Hclosed & Hperm' & Hactive & Hconn); [done|].
      split; [done|]. exists (connectionId :: finished). subst w1.
      cbn [manager on_hold closed] in Hclosed, Hperm', Hactive, Hconn.
      assert (Ha1 : activeConnections (stats (closed_state connectionId (manager w)))
                    = activeConnections (stats (manager w)) - 1) by reflexivity.
      assert (Hc1 : connections (closed_state connectionId (manager w))
                    = delete connectionId (connections (manager w))) by reflexivity.
      split; [by rewrite Hclosed, <- app_assoc|]. split; [|split].
      * rewrite Hids. rewrite <- Hperm'. by rewrite Permutation_middle.
      * rewrite Hactive, Ha1. cbn [length]. lia.
      * intros k. rewrite Hconn, Hc1. destruct (decide (k = connectionId)) as [->|Hne].
        -- rewrite lookup_delete_eq. rewrite (decide_True (P := _ ∈ _ :: _)) by by left.
           by destruct (decide _).
        -- rewrite lookup_delete_ne by done.
           destruct (decide (k ∈ finished)) as [Hin|Hout].
           ++ by rewrite decide_True by by right.
           ++ rewrite decide_False; [done|]. by intros [?|?]%elem_of_cons.
Qed.

(** A [closeConnection] that is started. *)
Lemma step_started_closing {T} connectionId w :
  step (@Started T (DoCloseConnection connectionId)) w
  = match connections (manager w) !! connectionId with
    | None =>
        {| manager := write_log LDebug "Closing connection" connectionId (manager w);
           on_hold := on_hold w;
           closed := closed w ++ [(connectionId, false)] |}
    | Some connection =>
        let s0 :=
          set_heap (store connection (with_isActive false (heap (manager w) connection)))
            (write_log LDebug "Closing connection" connectionId (manager w)) in
        match Connection.subscriptions (heap (manager w) connection) !! 0%nat with
        | Some subscriptionId =>
            {| manager := (unsubscribe subscriptionId s0).2;
               on_hold := on_hold w ++ [Closing connectionId connection 1];
               closed := closed w |}
        | None =>
            {| manager := closed_state connectionId s0;
               on_hold := on_hold w;
               closed := closed w ++ [(connectionId, true)] |}
        end
    end.
Proof.
  cbn [step]. unfold stretch.
  destruct (connections (manager w) !! connectionId) as [connection|] eqn:Hc.
  - rewrite (closeConnection_begin_known _ _ _ Hc). cbn zeta.
    set (s0 := set_heap _ _).
    assert (Hsubs0 : Connection.subscriptions (heap s0 connection)
                     = Connection.subscriptions (heap (manager w) connection)).
    { subst s0. cbn. by rewrite store_eq. }
    destruct (Connection.subscriptions (heap (manager w) connection) !! 0%nat)
      as [subscriptionId|] eqn:Hnext.
    + by rewrite (closeConnection_loop_next _ _ _ subscriptionId) by by rewrite Hsubs0.
    + by rewrite closeConnection_loop_end by by rewrite Hsubs0.
  - by rewrite (closeConnection_begin_unknown _ _ Hc).
Qed.

(** Two calls of [closeConnection] on one registered id that holds a
    subscription id, the second made while the first is on hold: both come
    to be on hold, with the record still registered. *)
Lemma closeConnection_overlap {T} connectionId connection s :
  connections s !! connectionId = Some connection →
  Connection.subscriptions (heap s connection) ≠ [] →
  let w := run [@Started T (DoCloseConnection connectionId);
                Started (DoCloseConnection connectionId)] (at_rest s) in
  omap closing_id (on_hold w) = [connectionId; connectionId]
  ∧ Forall is_closing (on_hold w)
  ∧ closed w = []
  ∧ connections (manager w) = connections s
  ∧ activeConnections (stats (manager w)) = activeConnections (stats s).
Proof.
  intros Hc Hsubs. cbn zeta.
  destruct (Connection.subscriptions (heap s connection)) as [|sid rest] eqn:Hl; [done|].
  unfold run. cbn [fold_left].
  rewrite (step_started_closing (T := T) connectionId (at_rest s)).
  cbn [at_rest manager on_hold closed]. rewrite Hc, Hl. cbn [lookup list_lookup]. cbn zeta.
  set (s0 := set_heap _ _).
  pose proof (unsubscribe_stats sid s0) as (Hac1 & _).
  destruct (unsubscribe_spec sid s0) as (s1 & He1 & _ & Hc1 & Hh1 & _).
  rewrite He1 in Hac1 |- *. cbn [snd] in Hac1 |- *.
  rewrite (step_started_closing (T := T)). cbn [manager on_hold closed].
  rewrite Hc1. change (connections s0) with (connections s). rewrite Hc.
  assert (Hsubs1 : Connection.subscriptions (heap s1 connection) = sid :: rest).
  { rewrite Hh1. subst s0. cbn. by rewrite store_eq. }
  rewrite Hsubs1. cbn [lookup list_lookup]. cbn zeta.
  set (s2 := set_heap _ _).
  pose proof (unsubscribe_stats sid s2) as (Hac3 & _).
  destruct (unsubscribe_spec sid s2) as (s3 & He3 & _ & Hc3 & _).
  rewrite He3 in Hac3 |- *. cbn [snd] in Hac3 |- *. cbn [manager on_hold closed].
  split; [done|]. split; [repeat constructor; by eexists|]. split; [done|].
  split.
  - rewrite Hc3. change (connections s2) with (connections s1). by rewrite Hc1.
  - rewrite Hac3. change (stats s2) with (stats s1). by rewrite Hac1.
Qed.

(** Two calls of [closeConnection] on one id that overlap and both come to
    their end. *)
Lemma closeConnection_overlap_end {T} connectionId connection s resumes :
  connections s !! connectionId = Some connection →
  Connection.subscriptions (heap s connection) ≠ [] →
  let w := run (Started (DoCloseConnection connectionId)
                :: Started (DoCloseConnection connectionId)
                :: map (@Resumed T) resumes) (at_rest s) in
  on_hold w = [] →
  closed w = [(connectionId, true); (connectionId, true)]
  ∧ connections (manager w) = delete connectionId (connections s)
  ∧ activeConnections (stats (manager w)) = activeConnections (stats s) - 2.
Proof.
  intros Hc Hsubs w Hrest. subst w. unfold run in *.
  change (fold_left (λ w e, step e w)
            (Started (DoCloseConnection connectionId)
             :: Started (DoCloseConnection connectionId) :: map (@Resumed T) resumes)
            (at_rest s))
    with (run (map (@Resumed T) resumes)
            (run [@Started T (DoCloseConnection connectionId);
                  Started (DoCloseConnection connectionId)] (at_rest s))) in *.
  destruct (closeConnection_overlap (T := T) connectionId connection s Hc Hsubs)
    as (Hids & Hall & Hclosed & Hconn & Hactive).
  set (w2 := run [_; _] (at_rest s)) in *.
  destruct (run_resumed_closing (T := T) resumes w2 Hall)
    as (_ & finished & Hclosed' & Hperm & Hactive' & Hconn').
  rewrite Hrest, Hids in Hperm. cbn [omap app] in Hperm.
  assert (Hfinished : finished = [connectionId; connectionId]).
  { pose proof (Permutation_length Hperm) as Hlen.
    destruct finished as [|a [|b [|c ?]]]; try done.
    assert (a ∈ [connectionId; connectionId]) as Ha by (rewrite <- Hperm; by left).
    assert (b ∈ [connectionId; connectionId]) as Hb
      by (rewrite <- Hperm; right; by left).
    apply elem_of_cons in Ha as [->|Ha%list_elem_of_singleton];
      apply elem_of_cons in Hb as [->|Hb%list_elem_of_singleton]; by subst. }
  subst finished. rewrite Hclosed', Hclosed, Hactive', Hactive. cbn.
  split; [done|]. split; [|lia].
  apply map_eq. intros k. rewrite Hconn', Hconn.
  destruct (decide (k = connectionId)) as [->|Hne].
  - rewrite lookup_delete_eq. by rewrite decide_True by by left.
  - rewrite lookup_delete_ne by done. rewrite decide_False; [done|].
    by intros [?|[?|?%elem_of_nil]%elem_of_cons]%elem_of_cons.
Qed.

(** ** The representation invariant *)


Lemma well_formed_step s s' :
  well_formed s →
  (∀ r, id (heap s' r) = id (heap s r)) →
  (∀ k r, connections s' !! k = Some r → connections s !! k = Some r ∨ id (heap s r) = k) →
  topics_NoDup s' →
  well_formed s'.
Proof.
  intros [_ Hkey] Hid Hconn Hnd. split; [exact Hnd|].
  intros k r Hk. rewrite Hid. destruct (Hconn k r Hk) as [H|H]; [exact (Hkey _ _ H)|done].
Qed.

Lemma Set_add_NoDup x (members : list string) : NoDup members → NoDup (Set_add x members).
Proof.
  intros Hnd. unfold Set_add, Set_has. case_bool_decide as Hin; [done|].
  apply NoDup_app. split; [done|]. split; [|apply NoDup_singleton].
  intros y Hy ->%list_elem_of_singleton. done.
Qed.

Lemma well_formed_new now objects : well_formed (new_SubscriptionManager now objects).
Proof. split; apply map_Forall_empty. Qed.

Lemma well_formed_registerConnection connection s :
  well_formed s → well_formed (registerConnection connection s).2.
Proof.
  intros Hwf. apply (well_formed_step s); [done|done| |apply Hwf].
  intros k r. cbn. destruct (decide (id (heap s connection) = k)) as [Heq|Hne].
  - rewrite Heq, lookup_insert_eq. intros [= <-]. by right.
  - rewrite lookup_insert_ne by done. by left.
Qed.

Lemma addSubscriptionToConnection_spec connectionId subscriptionId topic s :
  match connections s !! connectionId with
  | Some connection =>
      addSubscriptionToConnection connectionId subscriptionId topic s =
        (Normal tt,
         set_subscriptionConnections
           (insert topic (Set_add connectionId (subscribers s topic)))
           (set_heap (store connection
                        (with_subscriptions (Set_add subscriptionId) (heap s connection))) s))
  | None => addSubscriptionToConnection connectionId subscriptionId topic s = (Normal tt, s)
  end.
Proof.
  unfold addSubscriptionToConnection, bind, get. cbn beta iota.
  by destruct (connections s !! connectionId).
Qed.

Lemma well_formed_addSubscriptionToConnection connectionId subscriptionId topic s :
  well_formed s → well_formed (addSubscriptionToConnection connectionId subscriptionId topic s).2.
Proof.
  intros Hwf. pose proof (addSubscriptionToConnection_spec connectionId subscriptionId topic s) as H.
  destruct (connections s !! connectionId) as [connection|]; rewrite H; [|done].
  apply (well_formed_step s); [done| | |].
  - intros r. cbn. unfold store. by case_decide; subst.
  - intros k r. cbn. by left.
  - unfold topics_NoDup. cbn. apply map_Forall_insert_2; [|apply Hwf].
    apply Set_add_NoDup. unfold subscribers.
    destruct (subscriptionConnections s !! topic) as [members|] eqn:E; [|constructor].
    exact (proj1 Hwf _ _ E).
Qed.

Lemma well_formed_subscribe random now name resolver options s :
  well_formed s → well_formed (subscribe random now name resolver options s).2.
Proof.
  intros Hwf.
  destruct (subscribe_spec random now name resolver options s) as (s' & -> & _ & Hsc & _ & Hc & Hh).
  cbn [snd]. apply (well_formed_step s); [done|by rewrite Hh|rewrite Hc; by left|].
  unfold topics_NoDup. rewrite Hsc. destruct (subscriptionConnections s !! name); [apply Hwf|].
  apply map_Forall_insert_2; [constructor|apply Hwf].
Qed.

Lemma well_formed_unsubscribe subscriptionId s :
  well_formed s → well_formed (unsubscribe subscriptionId s).2.
Proof.
  intros Hwf. pose proof (unsubscribe_topics_NoDup subscriptionId s (proj1 Hwf)) as Hnd.
  destruct (unsubscribe_spec subscriptionId s) as (s' & He & _ & Hc & Hh & _).
  rewrite He in Hnd |- *. cbn [snd] in *.
  apply (well_formed_step s); [done|by rewrite Hh|rewrite Hc; by left|done].
Qed.

Lemma well_formed_publish {T} clock topic (payload : ISubscriptionPayload T) s :
  well_formed s → well_formed (publish clock topic payload s).2.
Proof.
  intros Hwf.
  destruct (publish_spec clock topic payload s) as (s' & He & _ & Hc & Hsc & _ & _ & Hh & _).
  rewrite He. cbn [snd]. apply (well_formed_step s); [done| |rewrite Hc; by left|].
  - intros r. destruct (Hh r) as [E|(cid & _ & _ & _ & E)]; by rewrite E.
  - unfold topics_NoDup. rewrite Hsc. apply Hwf.
Qed.

Lemma well_formed_publishToSubscribers {T} clock topic (payload : ISubscriptionPayload T)
    (f : ISubscriptionFilter T) s :
  well_formed s → well_formed (publishToSubscribers clock topic payload f s).2.
Proof.
  intros Hwf.
  destruct (publishToSubscribers_total clock topic payload f s)
    as (n & s' & -> & _ & Hc & Hsc & _ & _ & Hh).
  cbn [snd]. apply (well_formed_step s); [done| |rewrite Hc; by left|].
  - intros r. destruct (Hh r) as [E|(cid & _ & _ & _ & E)]; by rewrite E.
  - unfold topics_NoDup. rewrite Hsc. apply Hwf.
Qed.

Lemma well_formed_closeConnection connectionId s :
  well_formed s → well_formed (closeConnection connectionId s).2.
Proof.
  intros Hwf. destruct (connections s !! connectionId) as [connection|] eqn:Hc.
  - destruct (closeConnection_known _ _ _ Hc)
      as (s' & He & Hc' & Hh & _ & _ & _ & _ & _ & _ & _ & Hnd).
    rewrite He. cbn [snd]. apply (well_formed_step s); [done| | |apply Hnd, Hwf].
    + intros r. rewrite Hh. unfold store. by case_decide; subst.
    + intros k r. rewrite Hc'. intros [_ H]%lookup_delete_Some. by left.
  - by rewrite (closeConnection_unknown _ _ Hc).
Qed.

(** * The claims *)

(** C1, as amended.  [registerConnection] has no capacity check: for every
    state and every connection record it returns normally, stores the record
    under its [id], adds one to [activeConnections] and raises
    [peakConnections] to the new count when that is larger.  The record is
    left as the caller built it, [isActive] included, and the subscription
    table and the topic index are untouched. *)
Theorem registerConnection_always_inserts (connection : ref) (s : State) :
  ∃ s', registerConnection connection s = (Normal tt, s')
    ∧ connections s' = <[id (heap s connection) := connection]> (connections s)
    ∧ heap s' = heap s
    ∧ activeConnections (stats s') = activeConnections (stats s) + 1
    ∧ peakConnections (stats s')
      = Z.max (peakConnections (stats s)) (activeConnections (stats s) + 1)
    ∧ subscriptions s' = subscriptions s
    ∧ subscriptionConnections s' = subscriptionConnections s.
Proof. eexists. by repeat split. Qed.

(** C1 as stated fails: with [maxConnections: 2] configured and two
    connections registered and active, the third registration is neither
    rejected nor kept out of [connections]. *)
Lemma registerConnection_over_capacity :
  ¬ (maxConnections options_max2 = Some 2 →
     2 ≤ activeConnections (stats s_two) →
     (registerConnection 2%nat s_two).1 ≠ Normal tt
     ∧ connections (registerConnection 2%nat s_two).2 !! "c3" = None).
Proof.
  intros H. destruct H as [H _]; [reflexivity|vm_compute; discriminate|].
  apply H. reflexivity.
Qed.

(** C7.  When the topic has no entry in the topic index, or an empty set,
    [publish] returns 0 and every counter and gauge, every connection record
    and reference, every subscription and every topic set is what it was. *)
Theorem publish_no_subscribers {T} (clock : string → Z) (topic : string)
    (payload : ISubscriptionPayload T) (s : State) :
  subscriptionConnections s !! topic = None ∨ subscriptionConnections s !! topic = Some [] →
  ∃ s', publish clock topic payload s = (Normal 0, s')
    ∧ stats s' = stats s
    ∧ heap s' = heap s
    ∧ connections s' = connections s
    ∧ subscriptions s' = subscriptions s
    ∧ subscriptionConnections s' = subscriptionConnections s.
Proof.
  intros H. unfold publish, bind, try_catch, log, modify, get, ret. cbn.
  destruct H as [-> | ->]; eexists; by repeat split.
Qed.

Lemma publish_no_subscribers_witness :
  (publish clock0 "payments" payload0 s_two).1 = Normal 0
  ∧ stats (publish clock0 "payments" payload0 s_two).2 = stats s_two.
Proof.
  destruct (publish_no_subscribers clock0 "payments" payload0 s_two)
    as (s' & He & Hst & _).
  - left. vm_compute. reflexivity.
  - rewrite He. split; [reflexivity | exact Hst].
Defined.

(** C8, as amended.  [healthCheck] changes nothing and reports [healthy]
    exactly when the error rate is not above the double 0.1: [errors] only
    ever holds the error-rate message.  Stale connections and a heap above
    512 MB are reported in [warnings] and have no part in [healthy]. *)
Theorem healthCheck_healthy_iff_error_rate (now heapUsed : Z) (s : State) :
  ∃ h, healthCheck now heapUsed s = (Normal h, s)
    ∧ healthy h = negb (Qgtb (errorRate (stats s)) double_0_1)
    ∧ (healthy h = false ↔ (double_0_1 < errorRate (stats s))%Q)
    ∧ memoryUsage h = (inject_Z heapUsed / 1024 / 1024)%Q
    ∧ (∀ m, m ∈ errors h → ∃ rate, m = HighErrorRate rate)
    ∧ (Qgtb (memoryUsage h) 512 = true → HighMemoryUsage (memoryUsage h) ∈ warnings h)
    ∧ (0 < stale_connections now s →
       StaleConnectionsDetected (stale_connections now s) ∈ warnings h).
Proof.
  eexists. split; [reflexivity|]. cbn. fold (stale_connections now s).
  split; [|split; [|split; [reflexivity|split; [|split]]]].
  - unfold Qgtb. by destruct (Qle_bool _ _).
  - unfold Qgtb. destruct (Qle_bool (errorRate (stats s)) double_0_1) eqn:E; cbn.
    + apply Qle_bool_iff in E. split; [done|]. intros H. by apply Qlt_not_le in H.
    + split; [|done]. intros _. apply Qnot_le_lt. intros H. apply Qle_bool_iff in H. congruence.
  - intros m. destruct (Qgtb (errorRate (stats s)) double_0_1).
    + intros ->%list_elem_of_singleton. eauto.
    + intros H. by apply not_elem_of_nil in H.
  - intros ->. apply elem_of_app. right. by apply list_elem_of_singleton.
  - intros Hstale. rewrite (proj2 (Z.ltb_lt 0 _) Hstale).
    destruct (Qgtb _ 512); [apply elem_of_app; left|]; by apply list_elem_of_singleton.
Qed.

(** C8 as stated fails: with a heap of 600 MB, above the 512 MB threshold,
    and an error rate of 0, [healthCheck] still reports [healthy = true]. *)
Lemma healthCheck_high_memory_healthy :
  ∃ h, (healthCheck 1700000000000 629145600 s_empty).1 = Normal h
     ∧ ¬ (Qgtb (memoryUsage h) 512 = true → healthy h = false).
Proof.
  eexists. split; [reflexivity|]. intros H. cbn in H. discriminate H. reflexivity.
Qed.

(** C9, as amended.  The id is the random draw followed by the timestamp in
    base 36 and nothing else.  Two [subscribe] calls whose timestamps are not
    negative and have base-36 forms of one length return the same id exactly
    when they made the same draw in the same millisecond. *)
Theorem subscribe_id_collides_iff (random1 random2 : string) (now1 now2 : Z)
    (name1 name2 : string) (resolver1 resolver2 : ISubscriptionResolver)
    (options1 options2 : option ISubscriptionOptions) (s1 s2 : State) :
  0 ≤ now1 → 0 ≤ now2 →
  String.length (toString36 now1) = String.length (toString36 now2) →
  (subscribe random1 now1 name1 resolver1 options1 s1).1
    = (subscribe random2 now2 name2 resolver2 options2 s2).1
  ↔ random1 = random2 ∧ now1 = now2.
Proof.
  intros H1 H2 Hlen.
  destruct (subscribe_spec random1 now1 name1 resolver1 options1 s1) as (s1' & -> & _).
  destruct (subscribe_spec random2 now2 name2 resolver2 options2 s2) as (s2' & -> & _).
  cbn [fst]. split.
  - intros [= He]. by apply generateId_inj.
  - by intros [-> ->].
Qed.

Lemma subscribe_id_collides_iff_witness :
  (subscribe "a7" 1700000000000 "orders" resolver0 None s_empty).1
  ≠ (subscribe "b7" 1700000000001 "orders" resolver0 None s_empty).1.
Proof.
  intros He.
  apply (subscribe_id_collides_iff "a7" "b7" 1700000000000 1700000000001
           "orders" "orders" resolver0 resolver0 None None s_empty s_empty) in He.
  - destruct He as [_ He]. discriminate He.
  - lia.
  - lia.
  - vm_compute. reflexivity.
Defined.

(** C9 as stated fails: two [subscribe] calls that draw the same random
    digits in the same millisecond return the same id. *)
Lemma subscribe_same_draw_same_id :
  ¬ ((subscribe "k3x9" 1700000000000 "orders" resolver0 None s_empty).1
     ≠ (subscribe "k3x9" 1700000000000 "payments" resolver0 None
          (exec (subscribe "k3x9" 1700000000000 "orders" resolver0 None) s_empty)).1).
Proof. intros H. apply H. reflexivity. Qed.

(** C2, as amended.  [subscribe] stores the resolver under the new id and
    makes sure the topic has a set, and that is all: it puts the id in no
    topic's set and in no connection record (the topic index holds connection
    ids, which [addSubscriptionToConnection] adds).  So after any sequence of
    [subscribe] and [unsubscribe] calls no topic's set has gained a member
    and no connection record or reference has changed; and when no
    [subscribe] of the sequence draws an id that is live at that moment,
    [totalSubscriptions] is still the number of live subscriptions. *)
Theorem subscribe_unsubscribe_count (calls : list Call) :
  ∀ s : State,
  totalSubscriptions (stats s) = live_subscriptions s →
  fresh_ids calls s = true →
  ∃ s', run_calls calls s = (Normal tt, s')
    ∧ totalSubscriptions (stats s') = live_subscriptions s'
    ∧ connections s' = connections s
    ∧ heap s' = heap s
    ∧ (∀ topic members, subscriptionConnections s' !! topic = Some members →
         ∀ x, x ∈ members →
         ∃ members0, subscriptionConnections s !! topic = Some members0 ∧ x ∈ members0).
Proof.
  unfold run_calls. induction calls as [|c rest IH]; intros s Hinv Hfresh.
  - exists s. split; [done|]. split; [done|]. split; [done|]. split; [done|]. eauto.
  - cbn [fresh_ids] in Hfresh. apply andb_prop in Hfresh as [Hc Hrest].
    destruct (call_spec c s) as (s1 & He & Hconn & Hheap & Hcount & Htop).
    unfold exec in Hrest. rewrite He in Hrest. cbn [snd] in Hrest.
    destruct (IH s1) as (s' & He' & Hinv' & Hconn' & Hheap' & Htop').
    { apply Hcount; [|done]. cbn [fresh_ids]. by rewrite Hc. }
    { done. }
    exists s'. split; [cbn [for_of]; unfold bind at 1; by rewrite He|].
    split; [done|]. split; [congruence|]. split; [congruence|].
    intros topic members Hm x Hx.
    destruct (Htop' _ _ Hm x Hx) as (members1 & Hm1 & Hx1). eauto.
Qed.

Lemma subscribe_unsubscribe_count_witness :
  totalSubscriptions (stats (exec (run_calls calls0) s_empty))
  = live_subscriptions (exec (run_calls calls0) s_empty).
Proof.
  destruct (subscribe_unsubscribe_count calls0 s_empty) as (s' & He & Hcount & _).
  - reflexivity.
  - vm_compute. reflexivity.
  - unfold exec. rewrite He. exact Hcount.
Defined.

(** C2 as stated fails: after one [subscribe] on "orders" the new id is live
    and is in no topic's set. *)
Lemma subscribe_does_not_index :
  ¬ (is_Some (subscriptions (exec (subscribe "a7" 1700000000000 "orders" resolver0 None) s_empty)
                !! sub_a) →
     ∃ topic members,
       subscriptionConnections (exec (subscribe "a7" 1700000000000 "orders" resolver0 None) s_empty)
         !! topic = Some members
       ∧ sub_a ∈ members).
Proof.
  intros H. destruct H as (topic & members & Hm & Hin).
  - vm_compute. eauto.
  - destruct (subscribe_topics _ _ _ _ _ _ _ _ Hm _ Hin) as (members0 & Hm0 & _).
    change (subscriptionConnections s_empty) with (∅ : gmap string (list string)) in Hm0.
    by rewrite lookup_empty in Hm0.
Qed.

(** C3, as amended.  [publish] delivers once for each connection id in the
    topic's set, not once for each subscription: the count it returns is the
    number of ids in the set that name a registered, active connection; each
    of those is delivered to, and [messagesSent] grows by the count.  When
    the set holds exactly three ids and all three are registered and active,
    the count is 3. *)
Theorem publish_counts_connections {T} (clock : string → Z) (topic : string)
    (payload : ISubscriptionPayload T) (s : State) :
  let connectionIds := subscribers s topic in
  let successCount :=
    Z.of_nat (length (filter (λ cid, deliverable s cid = true) connectionIds)) in
  ∃ s', publish clock topic payload s = (Normal successCount, s')
    ∧ messagesSent (stats s') = messagesSent (stats s) + successCount
    ∧ (∀ cid, cid ∈ connectionIds → deliverable s cid = true →
         published_entry cid ∈ logger s')
    ∧ (∀ a b c, connectionIds = [a; b; c] →
         deliverable s a = true → deliverable s b = true → deliverable s c = true →
         successCount = 3).
Proof.
  intros connectionIds successCount.
  destruct (publish_spec clock topic payload s) as (s' & He & _ & _ & _ & Hst & _ & _ & Hp).
  exists s'. split; [exact He|]. split; [by rewrite Hst|]. split.
  - intros cid Hin Hd. unfold deliverable in Hd.
    destruct (connections s !! cid) as [r|] eqn:Hc; [|done].
    by destruct (Hp cid r Hin Hc Hd).
  - intros a b c Hids Ha Hb Hc. subst successCount. rewrite Hids.
    rewrite !filter_cons_True by done. reflexivity.
Qed.

Lemma publish_counts_connections_witness :
  (publish clock0 "orders" payload0 s_orders).1 = Normal 3.
Proof.
  destruct (publish_counts_connections clock0 "orders" payload0 s_orders)
    as (s' & He & _ & _ & Hthree).
  rewrite He. cbn [fst].
  rewrite (Hthree "c1" "c2" "c3"); [reflexivity | vm_compute; reflexivity ..].
Defined.

(** C3 as stated fails: with A, B and C live on "orders", none with a
    filter, all three held by the one active connection [c1], [publish]
    returns 1. *)
Lemma publish_shared_connection :
  ¬ (Forall (λ sid, subscriptions s_shared !! sid = Some resolver0
                    ∧ sid ∈ Connection.subscriptions (heap s_shared 0%nat))
       [sub_a; sub_b; sub_c] →
     isActive (heap s_shared 0%nat) = true →
     (publish clock0 "orders" payload0 s_shared).1 = Normal 3).
Proof.
  intros H. assert (Hone : (publish clock0 "orders" payload0 s_shared).1 = Normal 1)
    by (vm_compute; reflexivity).
  rewrite H in Hone; [discriminate| |reflexivity].
  repeat constructor; vm_compute; try reflexivity.
  all: apply (bool_decide_unpack _); vm_compute; exact I.
Qed.

(** C6, as amended.  [unsubscribe] never throws and returns [true] exactly
    when the id is in the subscription table.  It takes the id out of the
    table; when the id was live it lowers [totalSubscriptions] by one and
    leaves the id in no topic's set, and it deletes no topic's set, empty or
    not.  It changes no connection record, so the id stays in the
    [subscriptions] of a connection it was linked to.  When the id is unknown
    the topic index and the counters stay as they were.  A second call on
    the same id returns [false]. *)
Theorem unsubscribe_idempotent (subscriptionId : string) (s : State) :
  ∃ s', unsubscribe subscriptionId s
          = (Normal (bool_decide (is_Some (subscriptions s !! subscriptionId))), s')
    ∧ subscriptions s' = delete subscriptionId (subscriptions s)
    ∧ connections s' = connections s
    ∧ heap s' = heap s
    ∧ (is_Some (subscriptions s !! subscriptionId) →
         (∀ topic members, subscriptionConnections s' !! topic = Some members →
            subscriptionId ∉ members)
         ∧ dom (subscriptionConnections s') = dom (subscriptionConnections s)
         ∧ stats s' = stats_with_totalSubscriptions (totalSubscriptions (stats s) - 1) (stats s))
    ∧ (subscriptions s !! subscriptionId = None →
         subscriptionConnections s' = subscriptionConnections s ∧ stats s' = stats s)
    ∧ (unsubscribe subscriptionId s').1 = Normal false.
Proof.
  pose proof (unsubscribe_twice subscriptionId s) as Htwice.
  destruct (unsubscribe_spec subscriptionId s) as (s' & He & Hs & Hc & Hh & _ & Hl & Hu).
  rewrite He in Htwice. cbn [snd] in Htwice.
  exists s'. do 4 (split; [done|]). split; [|by split].
  intros Hlive. destruct (Hl Hlive) as [Hsc Hst]. split; [|split; [|done]].
  - intros topic members. rewrite Hsc, lookup_fmap.
    destruct (subscriptionConnections s !! topic) as [members0|]; [|done].
    intros [= <-]. apply Set_delete_not_elem.
  - rewrite Hsc. apply dom_fmap_L.
Qed.

Lemma unsubscribe_idempotent_witness :
  (unsubscribe sub_a s_orders).1 = Normal true
  ∧ (unsubscribe sub_a (exec (unsubscribe sub_a) s_orders)).1 = Normal false.
Proof.
  destruct (unsubscribe_idempotent sub_a s_orders) as (s' & He & _ & _ & _ & _ & _ & Hagain).
  unfold exec. rewrite He. cbn [fst snd]. split; [|exact Hagain].
  rewrite bool_decide_true; [reflexivity|]. vm_compute. eauto.
Defined.

(** C6 as stated fails: A is live and held by connection [c1];
    [unsubscribe] returns [true] and A is still in the [subscriptions] of
    [c1]. *)
Lemma unsubscribe_keeps_owner_link :
  ¬ (sub_a ∈ Connection.subscriptions (heap s_orders 0%nat) →
     (unsubscribe sub_a s_orders).1 = Normal true →
     sub_a ∉ Connection.subscriptions (heap (exec (unsubscribe sub_a) s_orders) 0%nat)).
Proof.
  assert (Hin : sub_a ∈ Connection.subscriptions (heap s_orders 0%nat))
    by (apply (bool_decide_unpack _); vm_compute; exact I).
  intros H. apply H; [exact Hin|reflexivity|].
  destruct (unsubscribe_spec sub_a s_orders) as (s' & He & _ & _ & Hh & _).
  unfold exec. rewrite He. cbn [snd]. rewrite Hh. exact Hin.
Qed.

(** C5, as amended.  [closeConnection] on a registered id, with no other
    call running between its [await]s, marks the record inactive and
    changes nothing else in it or in any other record, calls [unsubscribe]
    on every id in the record's [subscriptions], removes the id from
    [connections], lowers [activeConnections] by one and returns [true].
    Afterwards every one of those subscription ids is out of the
    subscription table and [unsubscribe] on it returns [false]; and such an
    id is in a topic's set afterwards exactly when it was not a live
    subscription when the close began and was in that set already: every
    other one is in no topic's set.  [closeConnection] returns [false], and
    changes nothing but the log, exactly when the id is not registered as
    the call begins: so a second close made after the first has returned
    gets [false].  A second close made while the first is on hold at an
    [await], which it is when the record holds a subscription id, finds the
    record still registered: however the two then take turns, both return
    [true] and [activeConnections] is lowered twice. *)
Theorem closeConnection_cascades {T} (connectionId : string) (s : State) :
  match connections s !! connectionId with
  | Some connection =>
      (∃ s', closeConnection connectionId s = (Normal true, s')
         ∧ isActive_only false (heap s connection) (heap s' connection)
         ∧ (∀ r, r ≠ connection → heap s' r = heap s r)
         ∧ connections s' = delete connectionId (connections s)
         ∧ activeConnections (stats s') = activeConnections (stats s) - 1
         ∧ (∀ sid, sid ∈ Connection.subscriptions (heap s connection) →
              subscriptions s' !! sid = None
              ∧ (unsubscribe sid s').1 = Normal false
              ∧ ∀ topic,
                  (∃ members', subscriptionConnections s' !! topic = Some members'
                               ∧ sid ∈ members')
                  ↔ (subscriptions s !! sid = None
                     ∧ ∃ members, subscriptionConnections s !! topic = Some members
                                  ∧ sid ∈ members))
         ∧ (closeConnection connectionId s').1 = Normal false)
      ∧ (Connection.subscriptions (heap s connection) ≠ [] →
         ∀ resumes,
           let w := run (Started (DoCloseConnection connectionId)
                         :: Started (DoCloseConnection connectionId)
                         :: map (@Resumed T) resumes) (at_rest s) in
           on_hold w = [] →
           closed w = [(connectionId, true); (connectionId, true)]
           ∧ connections (manager w) = delete connectionId (connections s)
           ∧ activeConnections (stats (manager w)) = activeConnections (stats s) - 2)
  | None =>
      ∃ s', closeConnection connectionId s = (Normal false, s')
        ∧ same_tables s s' ∧ heap s' = heap s
  end.
Proof.
  pose proof (closeConnection_twice connectionId s) as Htwice.
  destruct (connections s !! connectionId) as [connection|] eqn:Hc.
  - split.
    + destruct (closeConnection_known _ _ _ Hc)
        as (s' & He & Hc' & Hh & Hact & _ & _ & Hgone & _ & Habs & Htop & _).
      rewrite He in Htwice. cbn [snd] in Htwice.
      exists s'. split; [done|].
      split; [rewrite Hh, store_eq; by repeat split|].
      split; [intros r Hne; by rewrite Hh, store_ne|].
      split; [done|]. split; [done|]. split; [|done].
      intros sid Hin. split; [by apply Hgone|].
      split; [by rewrite unsubscribe_unknown by by apply Hgone|].
      intros topic. split.
      * intros (members' & Hm' & Hin'). split.
        -- destruct (subscriptions s !! sid) eqn:Hlive; [|done].
           by destruct (Habs sid Hin ltac:(by eexists) topic members' Hm').
        -- destruct (Htop topic members' Hm') as (members & Hm & Hsub). eauto.
      * intros (Hdead & members & Hm & Hin').
        pose proof (closeConnection_known_eq _ _ _ Hc) as Heq. rewrite He in Heq.
        injection Heq as ->. cbn.
        by eapply (cascade_keeps_member _ sid topic _ members).
    + intros Hsubs resumes w Hrest.
      by apply (closeConnection_overlap_end (T := T) connectionId connection s resumes).
  - rewrite (closeConnection_unknown _ _ Hc). eexists. split; [done|].
    split; [by repeat split|done].
Qed.

Lemma closeConnection_cascades_witness :
  ((closeConnection "c1" s_orders).1 = Normal true
   ∧ (unsubscribe sub_a (exec (closeConnection "c1") s_orders)).1 = Normal false
   ∧ (closeConnection "c1" (exec (closeConnection "c1") s_orders)).1 = Normal false)
  ∧ closed (run [@Started Z (DoCloseConnection "c1"); Started (DoCloseConnection "c1");
                 Resumed 0%nat; Resumed 0%nat] (at_rest s_orders))
    = [("c1", true); ("c1", true)].
Proof.
  pose proof (closeConnection_cascades (T := Z) "c1" s_orders) as H.
  change (connections s_orders !! "c1") with (Some 0%nat) in H.
  destruct H as [(s' & He & _ & _ & _ & _ & Hsubs & Hagain) Hoverlap]. split.
  - unfold exec. rewrite He. cbn [fst snd]. split; [reflexivity|]. split; [|exact Hagain].
    apply Hsubs. apply (bool_decide_unpack _). vm_compute. exact I.
  - destruct (Hoverlap ltac:(vm_compute; discriminate) [0%nat; 0%nat]) as [Hclosed _];
      [vm_compute; reflexivity|exact Hclosed].
Defined.

(** C5 as stated fails: connection [c1] holds the subscription id "c1",
    which is not live; after [closeConnection] returns [true] that id is
    still in the set of "orders". *)
Lemma closeConnection_leaves_unknown_id :
  ¬ ("c1" ∈ Connection.subscriptions (heap s_clash 0%nat) →
     (closeConnection "c1" s_clash).1 = Normal true →
     ∀ topic members,
       subscriptionConnections (exec (closeConnection "c1") s_clash) !! topic = Some members →
       "c1" ∉ members).
Proof.
  intros H. apply (H ltac:(apply (bool_decide_unpack _); vm_compute; exact I)
                     ltac:(vm_compute; reflexivity) "orders" ["c1"]).
  - vm_compute. reflexivity.
  - by apply list_elem_of_singleton.
Qed.







(** * Further properties of [SubscriptionManager] *)

Lemma stats_evolve_refl st : stats_evolve st st.
Proof. unfold stats_evolve. repeat split; lia. Qed.

Lemma stats_evolve_trans st1 st2 st3 :
  stats_evolve st1 st2 → stats_evolve st2 st3 → stats_evolve st1 st3.
Proof.
  unfold stats_evolve. intros (?&?&?&?&?&?) (?&?&?&?&?&?).
  repeat split; try congruence; lia.
Qed.

Lemma unsubscribe_cover subscriptionId s :
  Z.of_nat (size (subscriptions s)) ≤ totalSubscriptions (stats s) →
  Z.of_nat (size (subscriptions (exec (unsubscribe subscriptionId) s)))
  ≤ totalSubscriptions (stats (exec (unsubscribe subscriptionId) s)).
Proof.
  intros Hcov. unfold exec.
  destruct (unsubscribe_spec subscriptionId s) as (s' & -> & Hs & _ & _ & _ & Hl & Hu).
  cbn [snd]. rewrite Hs. destruct (subscriptions s !! subscriptionId) as [resolver|] eqn:E.
  - destruct Hl as [_ ->]; [done|]. cbn. rewrite map_size_delete_Some by done.
    pose proof (map_size_ne_0_lookup_2 (subscriptions s) subscriptionId) as Hne.
    rewrite E in Hne. specialize (Hne (mk_is_Some _ _ eq_refl)). lia.
  - destruct Hu as [_ ->]; [done|]. by rewrite map_size_delete_None.
Qed.

Lemma cascade_cover (subscriptionIds : list string) :
  ∀ s, Z.of_nat (size (subscriptions s)) ≤ totalSubscriptions (stats s) →
  Z.of_nat (size (subscriptions (exec (for_of subscriptionIds closeConnection_each tt) s)))
  ≤ totalSubscriptions (stats (exec (for_of subscriptionIds closeConnection_each tt) s)).
Proof.
  induction subscriptionIds as [|sid0 rest IH]; intros s Hcov; [done|].
  rewrite cascade_cons. apply IH. by apply unsubscribe_cover.
Qed.

Lemma same_stats_but_total_evolve st st' : same_stats_but_total st st' → stats_evolve st st'.
Proof.
  intros (Ha & Hm & Hr & Hd & Hp & He & Hu). unfold stats_evolve.
  repeat split; try done; lia.
Qed.

(** What a call does to the counters and to the connection table. *)
Lemma invoke_stats_evolve {T} (m : Method T) s :
  stats_evolve (stats s) (stats (invoke m s)).
Proof.
  destruct m as [random now name resolver options|subscriptionId|clock topic payload
                |clock topic payload f|connectionId|now heapUsed|connection
                |connectionId subscriptionId topic]; cbn [invoke]; unfold exec.
  - destruct (subscribe_spec random now name resolver options s) as (s' & He & _ & _ & Hst & _).
    rewrite He. cbn [snd]. rewrite Hst. unfold stats_evolve. cbn. repeat split; lia.
  - apply same_stats_but_total_evolve. apply unsubscribe_stats.
  - destruct (publish_spec clock topic payload s) as (s' & He & _ & _ & _ & Hst & _).
    rewrite He. cbn [snd]. rewrite Hst. unfold stats_evolve. cbn. repeat split; lia.
  - destruct (publishToSubscribers_total clock topic payload f s)
      as (c & s' & He & _ & _ & _ & Hst & _).
    rewrite He. cbn [snd]. destruct c as [n|e].
    + destruct Hst as [Hn ->]. unfold stats_evolve. cbn. repeat split; lia.
    + rewrite Hst. apply stats_evolve_refl.
  - destruct (connections s !! connectionId) as [connection|] eqn:Hc.
    + rewrite (closeConnection_known_eq _ _ _ Hc). cbn [snd].
      destruct (closeConnection_cascade (Connection.subscriptions (heap s connection))
                  (set_heap (store connection (with_isActive false (heap s connection)))
                     (write_log LDebug "Closing connection" connectionId s)))
        as (s2 & He & _ & _ & _ & Hst & _).
      unfold exec. rewrite He. cbn. cbn in Hst.
      destruct Hst as (Ha & Hm & Hr & Hd & Hp & Herr & Hu).
      unfold stats_evolve. cbn. repeat split; try done; lia.
    + rewrite (closeConnection_unknown _ _ Hc). apply stats_evolve_refl.
  - apply stats_evolve_refl.
  - unfold stats_evolve. cbn. repeat split; lia.
  - pose proof (addSubscriptionToConnection_spec connectionId subscriptionId topic s) as H.
    destruct (connections s !! connectionId); rewrite H; apply stats_evolve_refl.
Qed.

Lemma invoke_gauges_cover {T} (m : Method T) s :
  gauges_cover s → gauges_cover (invoke m s).
Proof.
  intros (Hconn & Hsubs & Hpeak).
  destruct m as [random now name resolver options|subscriptionId|clock topic payload
                |clock topic payload f|connectionId|now heapUsed|connection
                |connectionId subscriptionId topic]; cbn [invoke].
  - unfold exec.
    destruct (subscribe_spec random now name resolver options s)
      as (s' & He & Hs & _ & Hst & Hc & _).
    rewrite He. cbn [snd]. unfold gauges_cover. rewrite Hs, Hst, Hc. cbn.
    split; [done|]. split; [|done].
    rewrite map_size_insert. destruct (subscriptions s !! generateId random now); cbn; lia.
  - pose proof (unsubscribe_cover subscriptionId s Hsubs) as Hcov.
    pose proof (unsubscribe_stats subscriptionId s) as (Ha & _ & _ & _ & Hp & _).
    unfold exec in *.
    destruct (unsubscribe_spec subscriptionId s) as (s' & He & _ & Hc & _).
    rewrite He in *. cbn [snd] in *. unfold gauges_cover. rewrite Hc, Ha, Hp. done.
  - unfold exec.
    destruct (publish_spec clock topic payload s) as (s' & He & Hs & Hc & _ & Hst & _).
    rewrite He. cbn [snd]. unfold gauges_cover. rewrite Hs, Hc, Hst. done.
  - unfold exec.
    destruct (publishToSubscribers_total clock topic payload f s)
      as (c & s' & He & Hs & Hc & _ & Hst & _).
    rewrite He. cbn [snd]. unfold gauges_cover. rewrite Hs, Hc.
    destruct c as [n|e]; [destruct Hst as [_ ->]|rewrite Hst]; done.
  - unfold exec. destruct (connections s !! connectionId) as [connection|] eqn:Hc.
    + rewrite (closeConnection_known_eq _ _ _ Hc). cbn [snd].
      set (s1 := set_heap _ _).
      pose proof (cascade_cover (Connection.subscriptions (heap s connection)) s1 Hsubs) as Hcov.
      destruct (closeConnection_cascade (Connection.subscriptions (heap s connection)) s1)
        as (s2 & He & Hc2 & _ & _ & Hst & _).
      unfold exec in *. rewrite He in *. cbn [snd] in *.
      destruct Hst as (Ha & _ & _ & _ & Hp & _).
      unfold gauges_cover. cbn. rewrite Hc2, Ha, Hp. cbn.
      split; [|split; [done|lia]].
      rewrite map_size_delete_Some by done.
      pose proof (map_size_ne_0_lookup_2 (connections s) connectionId) as Hne.
      rewrite Hc in Hne. specialize (Hne (mk_is_Some _ _ eq_refl)). lia.
    + by rewrite (closeConnection_unknown _ _ Hc).
  - done.
  - unfold gauges_cover. cbn. split; [|split; [done|lia]].
    rewrite map_size_insert. destruct (connections s !! id (heap s connection)); cbn; lia.
  - unfold exec.
    pose proof (addSubscriptionToConnection_spec connectionId subscriptionId topic s) as H.
    destruct (connections s !! connectionId); rewrite H; done.
Qed.

Lemma invoke_well_formed {T} (m : Method T) s : well_formed s → well_formed (invoke m s).
Proof.
  intros Hwf. destruct m; cbn [invoke]; unfold exec.
  - by apply well_formed_subscribe.
  - by apply well_formed_unsubscribe.
  - by apply well_formed_publish.
  - by apply well_formed_publishToSubscribers.
  - by apply well_formed_closeConnection.
  - done.
  - by apply well_formed_registerConnection.
  - by apply well_formed_addSubscriptionToConnection.
Qed.

Lemma run_methods_snoc {T} (methods : list (Method T)) (m : Method T) s :
  run_methods (methods ++ [m]) s = invoke m (run_methods methods s).
Proof. unfold run_methods. by rewrite fold_left_app. Qed.

(** ** The gauges when calls overlap *)

Lemma same_tables_gauges s s' : same_tables s s' → gauges_cover s → gauges_cover s'.
Proof. intros (Hs & Hc & _ & Hst). unfold gauges_cover. by rewrite Hs, Hc, Hst. Qed.

Lemma publish_begin_spec {T} clock topic (payload : ISubscriptionPayload T) s :
  ∃ c s', publish_begin clock topic payload s = (c, s') ∧ same_tables s s'
          ∧ ∀ task, c = Normal (inr task) → closing_id task = None.
Proof.
  unfold publish_begin, bind at 1, log, modify. cbn beta iota. unfold bind at 1, get.
  cbn beta iota.
  change (subscriptionConnections (write_log LDebug "Publishing to topic" topic s))
    with (subscriptionConnections s).
  destruct (subscriptionConnections s !! topic) as [[|cid0 rest]|].
  1,3: eexists _, _; split; [reflexivity|]; split; [by repeat split|by intros task [=]].
  destruct (publish_loop clock topic payload (cid0 :: rest) []
              (write_log LDebug "Publishing to topic" topic s)) as (s' & He & Ht & _).
  unfold bind. rewrite He. eexists _, _. split; [reflexivity|]. split.
  - eapply same_tables_trans; [|exact Ht]. by repeat split.
  - by intros task [= <-].
Qed.

Lemma publishToSubscribers_begin_spec {T} clock topic (payload : ISubscriptionPayload T)
    (filter : ISubscriptionFilter T) s :
  ∃ c s', publishToSubscribers_begin clock topic payload filter s = (c, s') ∧ same_tables s s'
          ∧ ∀ task, c = Normal (inr task) → closing_id task = None.
Proof.
  unfold publishToSubscribers_begin, bind at 1, log, modify. cbn beta iota.
  unfold bind at 1, get. cbn beta iota.
  change (subscriptionConnections
            (write_log LDebug "Publishing to filtered subscribers" topic s))
    with (subscriptionConnections s).
  destruct (subscriptionConnections s !! topic) as [[|cid0 rest]|].
  1,3: eexists _, _; split; [reflexivity|]; split; [by repeat split|by intros task [=]].
  destruct (publishToSubscribers_loop_total clock topic payload filter (cid0 :: rest) []
              (write_log LDebug "Publishing to filtered subscribers" topic s))
    as (more & thrown & s' & He & Ht & _).
  unfold bind at 1. rewrite He. cbn beta iota. destruct thrown as [error|].
  - unfold bind at 1, log, modify. cbn beta iota.
    destruct (allSettled_spec "Failed to publish to filtered connection" ([] ++ more) 0
                (write_log LError "Failed to publish to filtered subscribers" topic s'))
      as (s2 & He2 & Ht2 & _).
    unfold log, modify in He2. unfold bind. rewrite He2.
    eexists _, _. split; [reflexivity|]. split; [|by intros task [=]].
    eapply same_tables_trans; [|exact Ht2].
    eapply same_tables_trans; [|by repeat split].
    eapply same_tables_trans; [|exact Ht]. by repeat split.
  - eexists _, _. split; [reflexivity|]. split; [|by intros task [= <-]].
    eapply same_tables_trans; [|exact Ht]. by repeat split.
Qed.

Lemma resume_publishing_spec filtered topic publishPromises s :
  ∃ n s', resume (Publishing filtered topic publishPromises) s = (Normal (inl (VNumber n)), s')
          ∧ subscriptions s' = subscriptions s ∧ connections s' = connections s
          ∧ stats s' = stats_with_messagesSent (messagesSent (stats s) + n) (stats s).
Proof.
  cbn [resume].
  destruct (allSettled_spec (if filtered then "Failed to publish to filtered connection"
                             else "Failed to publish to connection") publishPromises 0 s)
    as (s1 & He & (Hs & Hc & _ & Hst) & _).
  unfold bind at 1. rewrite He. eexists _, _. split; [reflexivity|]. cbn.
  by rewrite Hs, Hc, Hst.
Qed.

(** A stretch that leaves the registrations and the gauges as they are and
    is not of a [closeConnection]. *)
Lemma stretch_quiet closing (call : M (Value + Task)) others w c s' :
  call (manager w) = (c, s') →
  gauges_cover s' → connections s' = connections (manager w) →
  (∀ task, c = Normal (inr task) → closing_id task = None) →
  NoDup (omap closing_id others) →
  (∀ connectionId, connectionId ∈ omap closing_id others →
     is_Some (connections (manager w) !! connectionId)) →
  closes_cover (stretch closing call others w).
Proof.
  intros He Hg Hc Htask Hnd Hreg. unfold stretch. rewrite He.
  destruct c as [[[b|n]|task]|e]; (split; [exact Hg|]); cbn [on_hold manager].
  1,2,4: split; [done|]; intros cid Hin; rewrite Hc; by apply Hreg.
  rewrite omap_app. cbn. rewrite (Htask task eq_refl), app_nil_r.
  split; [done|]. intros cid Hin. rewrite Hc. by apply Hreg.
Qed.

Lemma closed_state_cover connectionId s :
  gauges_cover s → is_Some (connections s !! connectionId) →
  gauges_cover (closed_state connectionId s).
Proof.
  intros (Hconn & Hsubs & Hpeak) [connection Hc]. unfold gauges_cover, closed_state. cbn.
  split; [|split; [done|lia]].
  rewrite map_size_delete_Some by done.
  pose proof (map_size_ne_0_lookup_2 (connections s) connectionId) as Hne.
  rewrite Hc in Hne. specialize (Hne (mk_is_Some _ _ eq_refl)). lia.
Qed.

Lemma unsubscribe_gauges subscriptionId s :
  gauges_cover s →
  gauges_cover (unsubscribe subscriptionId s).2
  ∧ connections (unsubscribe subscriptionId s).2 = connections s.
Proof.
  intros Hg. split; [exact (invoke_gauges_cover (T := unit) (DoUnsubscribe subscriptionId) s Hg)|].
  by destruct (unsubscribe_spec subscriptionId s) as (s' & -> & _ & Hc & _).
Qed.

Lemma closes_cover_intro s tasks returned :
  gauges_cover s → NoDup (omap closing_id tasks) →
  (∀ connectionId, connectionId ∈ omap closing_id tasks →
     is_Some (connections s !! connectionId)) →
  closes_cover {| manager := s; on_hold := tasks; closed := returned |}.
Proof. by split. Qed.

(** One event keeps the gauges covering when it does not start a
    [closeConnection] of an id that a call on hold is closing. *)
Lemma step_closes_cover {T} (e : Event T) w :
  closes_cover w → closes_apart [e] w = true → closes_cover (step e w).
Proof.
  intros (Hg & Hnd & Hreg) Hapart.
  destruct e as [m|i].
  - destruct m as [random now name resolver options|subscriptionId|clock topic payload
                  |clock topic payload f|connectionId|now heapUsed|connection
                  |connectionId subscriptionId topic].
    + split; [by apply (invoke_gauges_cover (DoSubscribe _ _ _ _ _))|]. split; [done|].
      intros cid Hin. cbn [step manager invoke]. unfold exec.
      destruct (subscribe_spec random now name resolver options (manager w))
        as (s' & -> & _ & _ & _ & Hc & _). cbn [snd]. rewrite Hc. by apply Hreg.
    + split; [by apply (invoke_gauges_cover (DoUnsubscribe _))|]. split; [done|].
      intros cid Hin. cbn [step manager invoke]. unfold exec.
      rewrite (proj2 (unsubscribe_gauges subscriptionId _ Hg)). by apply Hreg.
    + destruct (publish_begin_spec clock topic payload (manager w))
        as (c & s' & He & Ht & Htask).
      cbn [step]. eapply stretch_quiet; try done.
      * by eapply same_tables_gauges.
      * by destruct Ht as (_ & -> & _).
    + destruct (publishToSubscribers_begin_spec clock topic payload f (manager w))
        as (c & s' & He & Ht & Htask).
      cbn [step]. eapply stretch_quiet; try done.
      * by eapply same_tables_gauges.
      * by destruct Ht as (_ & -> & _).
    + cbn [closes_apart] in Hapart. apply andb_prop in Hapart as [Hfresh%bool_decide_eq_true _].
      rewrite step_started_closing.
      destruct (connections (manager w) !! connectionId) as [connection|] eqn:Hc.
      * cbn zeta. set (s0 := set_heap _ _).
        assert (Hg0 : gauges_cover s0) by exact Hg.
        destruct (Connection.subscriptions (heap (manager w) connection) !! 0%nat)
          as [subscriptionId|].
        -- destruct (unsubscribe_gauges subscriptionId s0 Hg0) as [Hg1 Hc1].
           apply closes_cover_intro; [exact Hg1| |]; rewrite omap_app.
           ++ apply NoDup_app. split; [done|]. split; [|apply NoDup_singleton].
              intros cid Hin ->%list_elem_of_singleton. done.
           ++ intros cid [Hin| ->%list_elem_of_singleton]%elem_of_app; rewrite Hc1.
              ** by apply Hreg.
              ** by eexists.
        -- apply closes_cover_intro; [apply closed_state_cover; [done|by eexists]|done|].
           intros cid Hin.
           change (connections (closed_state connectionId s0))
             with (delete connectionId (connections (manager w))).
           rewrite lookup_delete_ne by (intros ->; done). by apply Hreg.
      * by apply closes_cover_intro.
    + by split.
    + split; [by apply (invoke_gauges_cover (DoRegisterConnection _))|]. split; [done|].
      intros cid Hin. cbn.
      destruct (decide (id (heap (manager w) connection) = cid)) as [->|Hne].
      * rewrite lookup_insert_eq. by eexists.
      * rewrite lookup_insert_ne by done. by apply Hreg.
    + split; [by apply (invoke_gauges_cover (DoAddSubscriptionToConnection _ _ _))|].
      split; [done|]. intros cid Hin. cbn [step manager invoke]. unfold exec.
      pose proof (addSubscriptionToConnection_spec connectionId subscriptionId topic
                    (manager w)) as H.
      destruct (connections (manager w) !! connectionId); rewrite H; by apply Hreg.
  - destruct (on_hold w !! i) as [task|] eqn:Htask; [|cbn [step]; by rewrite Htask].
    pose proof (delete_Permutation _ _ _ Htask) as Hperm.
    destruct task as [connectionId connection visited|filtered topic publishPromises].
    + assert (Hids : omap closing_id (on_hold w)
                     ≡ₚ connectionId :: omap closing_id (delete i (on_hold w)))
        by by rewrite Hperm at 1.
      rewrite Hids in Hnd. apply NoDup_cons in Hnd as [Hfresh Hnd].
      assert (Hreg' : ∀ cid, cid ∈ connectionId :: omap closing_id (delete i (on_hold w)) →
                             is_Some (connections (manager w) !! cid))
        by (intros cid Hin; apply Hreg; by rewrite Hids).
      rewrite (step_resumed_closing (T := T) _ _ _ _ _ Htask).
      destruct (Connection.subscriptions (heap (manager w) connection) !! visited)
        as [subscriptionId|].
      * destruct (unsubscribe_gauges subscriptionId (manager w) Hg) as [Hg1 Hc1].
        apply closes_cover_intro; [exact Hg1| |]; rewrite omap_app.
        -- apply NoDup_app. split; [done|]. split; [|apply NoDup_singleton].
           intros cid Hin ->%list_elem_of_singleton. done.
        -- intros cid Hin. rewrite Hc1. apply Hreg'.
           apply elem_of_app in Hin as [Hin| ->%list_elem_of_singleton];
             [by right|by left].
      * apply closes_cover_intro; [apply closed_state_cover; [done|apply Hreg'; by left]|done|].
        intros cid Hin.
        change (connections (closed_state connectionId (manager w)))
          with (delete connectionId (connections (manager w))).
        rewrite lookup_delete_ne by (intros ->; done). apply Hreg'. by right.
    + assert (Hids : omap closing_id (on_hold w) ≡ₚ omap closing_id (delete i (on_hold w)))
        by by rewrite Hperm at 1.
      destruct (resume_publishing_spec filtered topic publishPromises (manager w))
        as (n & s' & He & Hs & Hc & Hst).
      cbn [step]. rewrite Htask. eapply stretch_quiet; try done.
      * unfold gauges_cover. rewrite Hs, Hc, Hst. exact Hg.
      * by rewrite <- Hids.
      * intros cid Hin. apply Hreg. by rewrite Hids.
Qed.

Lemma run_closes_cover {T} (events : list (Event T)) :
  ∀ w, closes_cover w → closes_apart events w = true → closes_cover (run events w).
Proof.
  induction events as [|e events IH]; intros w Hw Hapart; [done|].
  cbn [closes_apart] in Hapart. apply andb_prop in Hapart as [He Hrest].
  apply (IH (step e w)); [|done]. apply step_closes_cover; [done|].
  cbn [closes_apart]. by rewrite He.
Qed.

(** X1.  Whatever methods are called on a new manager, and in whatever
    order, no topic's set ever holds an id twice and every record in
    [connections] is stored under its own [id]. *)
Theorem methods_keep_well_formed {T} (methods : list (Method T)) (now : Z)
    (objects : ref → ISubscriptionConnection) :
  well_formed (run_methods methods (new_SubscriptionManager now objects)).
Proof.
  induction methods as [|m methods IH] using rev_ind; [apply well_formed_new|].
  rewrite run_methods_snoc. by apply invoke_well_formed.
Qed.

(** X2.  No method writes [errorRate], so on a manager driven through its
    methods [healthCheck] reports [healthy = true] with no errors, whatever
    the time, the heap size and the history. *)
Theorem healthCheck_always_healthy {T} (methods : list (Method T)) (now : Z)
    (objects : ref → ISubscriptionConnection) (now' heapUsed : Z) :
  let s := run_methods methods (new_SubscriptionManager now objects) in
  ∃ h, healthCheck now' heapUsed s = (Normal h, s) ∧ healthy h = true ∧ errors h = [].
Proof.
  intros s.
  assert (Hrate : errorRate (stats s) = 0%Q).
  { subst s. induction methods as [|m methods IH] using rev_ind; [done|].
    rewrite run_methods_snoc.
    destruct (invoke_stats_evolve m (run_methods methods (new_SubscriptionManager now objects)))
      as (He & _). by rewrite He. }
  eexists. split; [reflexivity|]. cbn. rewrite Hrate. by split.
Qed.

(** X3.  On a new manager the gauges never undercount,
    [activeConnections] is at least the number of records in [connections],
    [totalSubscriptions] at least the number of resolvers in
    [subscriptions] and [peakConnections] at least [activeConnections],
    both when each call is awaited before the next is made and when calls
    overlap in any way in which no [closeConnection] of an id is started
    while an earlier one of that id is on hold at its [await].  Without
    that they can: where [activeConnections] is the number of records, two
    closes of one registered id that overlap and both come to their end
    leave [activeConnections] one below the number of records. *)
Theorem gauges_never_undercount {T} (now : Z) (objects : ref → ISubscriptionConnection) :
  (∀ methods : list (Method T),
     gauges_cover (run_methods methods (new_SubscriptionManager now objects)))
  ∧ (∀ events : list (Event T),
       closes_apart events (at_rest (new_SubscriptionManager now objects)) = true →
       let s := manager (run events (at_rest (new_SubscriptionManager now objects))) in
       Z.of_nat (size (connections s)) ≤ activeConnections (stats s)
       ∧ Z.of_nat (size (subscriptions s)) ≤ totalSubscriptions (stats s)
       ∧ activeConnections (stats s) ≤ peakConnections (stats s))
  ∧ (∀ s connectionId connection resumes,
       connections s !! connectionId = Some connection →
       Connection.subscriptions (heap s connection) ≠ [] →
       activeConnections (stats s) = Z.of_nat (size (connections s)) →
       let w := run (Started (DoCloseConnection connectionId)
                     :: Started (DoCloseConnection connectionId)
                     :: map (@Resumed T) resumes) (at_rest s) in
       on_hold w = [] →
       activeConnections (stats (manager w)) = Z.of_nat (size (connections (manager w))) - 1).
Proof.
  assert (Hnew : gauges_cover (new_SubscriptionManager now objects)).
  { unfold gauges_cover. cbn. rewrite !map_size_empty. lia. }
  split; [|split].
  - intros methods. induction methods as [|m methods IH] using rev_ind; [done|].
    rewrite run_methods_snoc. by apply invoke_gauges_cover.
  - intros events Hapart. cbn zeta.
    apply (run_closes_cover events (at_rest (new_SubscriptionManager now objects)));
      [|done].
    split; [done|]. split; [apply NoDup_nil_2|]. by intros cid ?%elem_of_nil.
  - intros s connectionId connection resumes Hc Hsubs Htight w Hrest.
    destruct (closeConnection_overlap_end (T := T) connectionId connection s resumes Hc Hsubs
                Hrest) as (_ & Hconn & Hactive).
    fold w in Hconn, Hactive. rewrite Hactive, Hconn, Htight.
    rewrite map_size_delete_Some by done.
    pose proof (map_size_ne_0_lookup_2 (connections s) connectionId) as Hne.
    rewrite Hc in Hne. specialize (Hne (mk_is_Some _ _ eq_refl)). lia.
Qed.

Lemma gauges_never_undercount_witness :
  let apart := [@Started Z (DoRegisterConnection 0%nat);
                Started (DoAddSubscriptionToConnection "c1" "s1" "orders");
                Started (DoCloseConnection "c1");
                Started (DoPublish clock0 "orders" payload0);
                Resumed 0%nat; Resumed 0%nat;
                Started (DoCloseConnection "c1")] in
  let overlapping := Started (DoCloseConnection "c1") :: Started (DoCloseConnection "c1")
                     :: map (@Resumed Z) [0%nat; 0%nat] in
  (Z.of_nat (size (connections (manager (run apart (at_rest s_empty)))))
   ≤ activeConnections (stats (manager (run apart (at_rest s_empty)))))
  ∧ activeConnections (stats (manager (run overlapping (at_rest s_orders))))
    = Z.of_nat (size (connections (manager (run overlapping (at_rest s_orders))))) - 1.
Proof.
  cbn zeta.
  destruct (gauges_never_undercount (T := Z) 1700000000000 objects) as (_ & Hapart & Hover).
  split.
  - apply (Hapart [Started (DoRegisterConnection 0%nat);
                   Started (DoAddSubscriptionToConnection "c1" "s1" "orders");
                   Started (DoCloseConnection "c1");
                   Started (DoPublish clock0 "orders" payload0);
                   Resumed 0%nat; Resumed 0%nat;
                   Started (DoCloseConnection "c1")]).
    vm_compute. reflexivity.
  - apply (Hover s_orders "c1" 0%nat [0%nat; 0%nat]);
      [vm_compute; reflexivity|vm_compute; discriminate
      |vm_compute; reflexivity|vm_compute; reflexivity].
Defined.

(** X4.  From any state and over any sequence of calls, [peakConnections]
    and [messagesSent] never decrease, and [messagesReceived],
    [averageConnectionDuration], [errorRate] and [uptime] keep the value they
    had. *)
Theorem counters_only_grow {T} (methods : list (Method T)) (s : State) :
  let s' := run_methods methods s in
  peakConnections (stats s) ≤ peakConnections (stats s')
  ∧ messagesSent (stats s) ≤ messagesSent (stats s')
  ∧ messagesReceived (stats s') = messagesReceived (stats s)
  ∧ averageConnectionDuration (stats s') = averageConnectionDuration (stats s)
  ∧ errorRate (stats s') = errorRate (stats s)
  ∧ uptime (stats s') = uptime (stats s).
Proof.
  cbn zeta.
  assert (H : stats_evolve (stats s) (stats (run_methods methods s))).
  { induction methods as [|m methods IH] using rev_ind; [apply stats_evolve_refl|].
    rewrite run_methods_snoc. eapply stats_evolve_trans; [exact IH|].
    apply invoke_stats_evolve. }
  destruct H as (?&?&?&?&?&?). by repeat split.
Qed.

(** X5.  [activeConnections] counts calls, not records.  Registering one
    record twice and closing its id once leaves no record under that id
    while [activeConnections] stays one above what it was. *)
Theorem registerConnection_twice_drifts (connection : ref) (s : State) :
  let connectionId := id (heap s connection) in
  let s2 := exec (registerConnection connection) (exec (registerConnection connection) s) in
  let s3 := exec (closeConnection connectionId) s2 in
  connections s2 = connections (exec (registerConnection connection) s)
  ∧ activeConnections (stats s2) = activeConnections (stats s) + 2
  ∧ connections s3 !! connectionId = None
  ∧ activeConnections (stats s3) = activeConnections (stats s) + 1.
Proof.
  cbn zeta. set (connectionId := id (heap s connection)).
  set (s2 := exec (registerConnection connection) (exec (registerConnection connection) s)).
  assert (Hc2 : connections s2 = <[connectionId := connection]> (connections s)).
  { subst s2. cbn. apply insert_insert_eq. }
  assert (Ha2 : activeConnections (stats s2) = activeConnections (stats s) + 2).
  { subst s2. cbn. lia. }
  split; [by rewrite Hc2|]. split; [done|].
  assert (Hk : connections s2 !! connectionId = Some connection)
    by (rewrite Hc2; apply lookup_insert_eq).
  destruct (closeConnection_known _ _ _ Hk) as (s3 & He & Hc3 & _ & Ha3 & _).
  assert (Hs3 : exec (closeConnection connectionId) s2 = s3) by (unfold exec; by rewrite He).
  rewrite Hs3. split.
  - rewrite Hc3. apply lookup_delete_eq.
  - rewrite Ha3, Ha2. lia.
Qed.

(** X6.  [registerConnection] never sets [isActive] and [closeConnection]
    clears it on the caller's record: a record that is registered, closed
    and registered again is in [connections] but inactive, and every
    delivery to it throws. *)
Theorem reregistered_connection_stays_inactive {T} (connection : ref) (s : State)
    (now : Z) (topic : string) (payload : ISubscriptionPayload T) :
  let connectionId := id (heap s connection) in
  let s3 := exec (registerConnection connection)
              (exec (closeConnection connectionId) (exec (registerConnection connection) s)) in
  connections s3 !! connectionId = Some connection
  ∧ isActive (heap s3 connection) = false
  ∧ ∃ e, publishToConnection now connectionId topic payload s3 = (Throw e, s3).
Proof.
  cbn zeta. set (connectionId := id (heap s connection)).
  set (s1 := exec (registerConnection connection) s).
  assert (Hk : connections s1 !! connectionId = Some connection)
    by (subst s1; cbn; apply lookup_insert_eq).
  destruct (closeConnection_known _ _ _ Hk) as (s2 & He & _ & Hh & _).
  assert (Hs2 : exec (closeConnection connectionId) s1 = s2) by (unfold exec; by rewrite He).
  rewrite Hs2.
  assert (Hrec : heap s2 connection = with_isActive false (heap s connection)).
  { rewrite Hh, store_eq. done. }
  set (s3 := exec (registerConnection connection) s2).
  assert (Hc3 : connections s3 !! connectionId = Some connection).
  { subst s3. cbn. rewrite Hrec. cbn. apply lookup_insert_eq. }
  assert (Ha3 : isActive (heap s3 connection) = false).
  { subst s3. cbn. by rewrite Hrec. }
  split; [done|]. split; [done|].
  rewrite publishToConnection_fail; [by eexists|].
  unfold deliverable. by rewrite Hc3.
Qed.

(** X7.  [closeConnection] does not take the connection's id out of the
    topic index.  When the id is not also the id of a live subscription, it
    is still a member of every topic's set it was in, and no delivery to it
    can succeed any more. *)
Theorem closed_connection_stays_in_topics (connectionId topic : string)
    (members : list string) (connection : ref) (s : State) :
  connections s !! connectionId = Some connection →
  subscriptionConnections s !! topic = Some members →
  connectionId ∈ members →
  subscriptions s !! connectionId = None →
  let s' := exec (closeConnection connectionId) s in
  (∃ members', subscriptionConnections s' !! topic = Some members' ∧ connectionId ∈ members')
  ∧ deliverable s' connectionId = false.
Proof.
  intros Hc Hm Hin Hx. cbn zeta. unfold exec at 1 2.
  rewrite (closeConnection_known_eq _ _ _ Hc). cbn [snd]. split.
  - cbn. by eapply cascade_keeps_member.
  - destruct (closeConnection_cascade (Connection.subscriptions (heap s connection))
                (set_heap (store connection (with_isActive false (heap s connection)))
                   (write_log LDebug "Closing connection" connectionId s)))
      as (s2 & He & Hc2 & _).
    unfold deliverable, exec. rewrite He. cbn. by rewrite lookup_delete_eq.
Qed.

Lemma closed_connection_stays_in_topics_witness :
  "c1" ∈ subscribers (exec (closeConnection "c1") s_orders) "orders"
  ∧ deliverable (exec (closeConnection "c1") s_orders) "c1" = false.
Proof.
  destruct (closed_connection_stays_in_topics "c1" "orders" ["c1"; "c2"; "c3"] 0%nat s_orders)
    as [(members' & Hm & Hin) Hd].
  - vm_compute. reflexivity.
  - vm_compute. reflexivity.
  - apply (bool_decide_unpack _). vm_compute. exact I.
  - vm_compute. reflexivity.
  - split; [|exact Hd]. unfold subscribers. rewrite Hm. exact Hin.
Defined.

Lemma Set_add_elem x (members : list string) : x ∈ Set_add x members.
Proof.
  unfold Set_add, Set_has. case_bool_decide; [done|].
  apply elem_of_app. right. by apply list_elem_of_singleton.
Qed.

Lemma Set_add_idem x (members : list string) : Set_add x (Set_add x members) = Set_add x members.
Proof.
  unfold Set_add at 1. unfold Set_has. by rewrite bool_decide_true by apply Set_add_elem.
Qed.

(** X8.  [addSubscriptionToConnection] on an id that is not registered does
    nothing at all.  On a registered id it puts the subscription id in the
    record and the connection id in the topic's set, and a second identical
    call changes nothing. *)
Theorem addSubscriptionToConnection_idempotent (connectionId subscriptionId topic : string)
    (s : State) :
  let s1 := exec (addSubscriptionToConnection connectionId subscriptionId topic) s in
  let s2 := exec (addSubscriptionToConnection connectionId subscriptionId topic) s1 in
  match connections s !! connectionId with
  | None => s1 = s
  | Some connection =>
      subscriptionId ∈ Connection.subscriptions (heap s1 connection)
      ∧ connectionId ∈ subscribers s1 topic
      ∧ (∀ r, r ≠ connection → heap s1 r = heap s r)
      ∧ subscriptionConnections s2 = subscriptionConnections s1
      ∧ (∀ r, heap s2 r = heap s1 r)
      ∧ connections s2 = connections s1
      ∧ subscriptions s2 = subscriptions s1
      ∧ stats s2 = stats s1
      ∧ logger s2 = logger s1
  end.
Proof.
  cbn zeta. unfold exec.
  pose proof (addSubscriptionToConnection_spec connectionId subscriptionId topic s) as H1.
  destruct (connections s !! connectionId) as [connection|] eqn:Hc; rewrite H1; [|done].
  cbn [snd]. set (s1 := set_subscriptionConnections _ _).
  pose proof (addSubscriptionToConnection_spec connectionId subscriptionId topic s1) as H2.
  change (connections s1) with (connections s) in H2. rewrite Hc in H2. rewrite H2.
  assert (Hsub1 : subscribers s1 topic = Set_add connectionId (subscribers s topic)).
  { unfold subscribers at 1. subst s1. cbn. by rewrite lookup_insert_eq. }
  split; [subst s1; cbn; rewrite store_eq; cbn; apply Set_add_elem|].
  split; [rewrite Hsub1; apply Set_add_elem|].
  split; [intros r Hr; subst s1; cbn; by rewrite store_ne|].
  split.
  { cbn. rewrite Hsub1, Set_add_idem. subst s1. cbn. apply insert_insert_eq. }
  split; [|done].
  intros r. cbn. unfold store. case_decide as Hr; [|done]. subst r.
  rewrite decide_True by done. unfold with_subscriptions. cbn. by rewrite Set_add_idem.
Qed.

Lemma stats_total_round_trip st :
  stats_with_totalSubscriptions
    (totalSubscriptions (stats_with_totalSubscriptions (totalSubscriptions st + 1) st) - 1)
    (stats_with_totalSubscriptions (totalSubscriptions st + 1) st) = st.
Proof. destruct st. unfold stats_with_totalSubscriptions. cbn. f_equal. lia. Qed.

(** X9.  A [subscribe] that draws an id not yet in the table, followed by
    [unsubscribe] of that id, restores the subscription table and every
    counter; the connections are untouched; but the topic's set that
    [subscribe] created stays in the index. *)
Theorem subscribe_unsubscribe_round_trip (random : string) (now : Z) (name : string)
    (resolver : ISubscriptionResolver) (options : option ISubscriptionOptions) (s : State) :
  subscriptions s !! generateId random now = None →
  let s1 := exec (subscribe random now name resolver options) s in
  let s2 := exec (unsubscribe (generateId random now)) s1 in
  (unsubscribe (generateId random now) s1).1 = Normal true
  ∧ subscriptions s2 = subscriptions s
  ∧ stats s2 = stats s
  ∧ connections s2 = connections s
  ∧ heap s2 = heap s
  ∧ is_Some (subscriptionConnections s2 !! name).
Proof.
  intros Hfresh. cbn zeta. unfold exec.
  destruct (subscribe_spec random now name resolver options s)
    as (s1 & He1 & Hs1 & Hsc1 & Hst1 & Hc1 & Hh1).
  rewrite He1. cbn [snd].
  assert (Hlive : is_Some (subscriptions s1 !! generateId random now)).
  { rewrite Hs1, lookup_insert_eq. by eexists. }
  destruct (unsubscribe_spec (generateId random now) s1)
    as (s2 & He2 & Hs2 & Hc2 & Hh2 & _ & Hl & _).
  rewrite He2. cbn [fst snd]. destruct (Hl Hlive) as [Hsc2 Hst2].
  split; [by rewrite bool_decide_true|].
  split; [by rewrite Hs2, Hs1, delete_insert_eq, delete_id|].
  split; [rewrite Hst2, Hst1; apply stats_total_round_trip|].
  split; [congruence|]. split; [congruence|].
  rewrite Hsc2, lookup_fmap, Hsc1.
  destruct (subscriptionConnections s !! name) as [members|] eqn:E.
  - rewrite E. by eexists.
  - rewrite lookup_insert_eq. by eexists.
Qed.

Lemma subscribe_unsubscribe_round_trip_witness :
  subscriptions (exec (unsubscribe (generateId "a7" 1700000000000))
                   (exec (subscribe "a7" 1700000000000 "payments" resolver0 None) s_empty))
  = subscriptions s_empty
  ∧ is_Some (subscriptionConnections
               (exec (unsubscribe (generateId "a7" 1700000000000))
                  (exec (subscribe "a7" 1700000000000 "payments" resolver0 None) s_empty))
             !! "payments").
Proof.
  destruct (subscribe_unsubscribe_round_trip "a7" 1700000000000 "payments" resolver0 None s_empty)
    as (_ & Hs & _ & _ & _ & Htopic).
  - vm_compute. reflexivity.
  - exact (conj Hs Htopic).
Defined.





(** X11.  The base-36 form of a timestamp determines it: [toString36] is
    injective on the integers that are not negative, and [parse36] reads
    the integer back. *)
Theorem toString36_injective (a b : Z) :
  0 ≤ a → 0 ≤ b → toString36 a = toString36 b → a = b ∧ parse36 (toString36 a) = a.
Proof.
  intros Ha Hb He. split; [|by apply parse36_toString36].
  rewrite <- (parse36_toString36 a), <- (parse36_toString36 b) by done. by rewrite He.
Qed.

Lemma toString36_injective_witness :
  toString36 1700000000000 ≠ toString36 1700000000001.
Proof.
  intros He.
  destruct (toString36_injective 1700000000000 1700000000001) as [Hab _];
    [lia | lia | exact He | discriminate Hab].
Defined.

Lemma substring_all (b : string) : substring 0 (String.length b) b = b.
Proof. induction b as [|c b IH]; [done|]. cbn. by rewrite IH. Qed.

Lemma substring_append_r (a b : string) :
  substring (String.length a) (String.length b) (a +:+ b) = b.
Proof. induction a as [|c a IH]; [apply substring_all|]. exact IH. Qed.

Lemma length_append (a b : string) :
  String.length (a +:+ b) = (String.length a + String.length b)%nat.
Proof.
  induction a as [|c a IH]; [done|].
  change (S (String.length (a +:+ b)) = S (String.length a + String.length b)).
  by rewrite IH.
Qed.

(** X12.  An id drawn between 1972 and 2059 ([36^7] to [36^8] ms) is the
    random part followed by eight characters, and those eight read back as
    the time of the draw. *)
Theorem generateId_carries_timestamp (random : string) (now : Z) :
  36 ^ 7 ≤ now < 36 ^ 8 →
  String.length (generateId random now) = (String.length random + 8)%nat
  ∧ parse36 (substring (String.length random) 8 (generateId random now)) = now.
Proof.
  intros Hnow. pose proof (toString36_length_8 now Hnow) as Hlen. unfold generateId.
  split; [by rewrite length_append, Hlen|].
  rewrite <- Hlen, substring_append_r. apply parse36_toString36. lia.
Qed.

Lemma generateId_carries_timestamp_witness :
  parse36 (substring 3 8 (generateId "abc" 1700000000000)) = 1700000000000.
Proof.
  destruct (generateId_carries_timestamp "abc" 1700000000000) as [_ H]; [lia|exact H].
Defined.

(** * Properties of [QueryComplexityAnalyzer] *)

Lemma SelectionNode_induction (P : SelectionNode → Prop) :
  (∀ name arguments selectionSet, Forall P selectionSet →
     P (FieldNode name arguments selectionSet)) →
  (∀ name, P (FragmentSpreadNode name)) →
  (∀ selectionSet, Forall P selectionSet → P (InlineFragmentNode selectionSet)) →
  ∀ node, P node.
Proof.
  intros Hfield Hspread Hinline. fix IH 1. intros [name arguments selectionSet|name|selectionSet].
  - apply Hfield. induction selectionSet as [|child rest IHrest]; constructor; [apply IH|exact IHrest].
  - apply Hspread.
  - apply Hinline. induction selectionSet as [|child rest IHrest]; constructor; [apply IH|exact IHrest].
Qed.

Lemma visit_selection_Field {S} (visitor : Visitor S) name arguments selectionSet s :
  visit_selection visitor (FieldNode name arguments selectionSet) s
  = Field_leave visitor (visit_selections visitor selectionSet (Field_enter visitor name arguments s)).
Proof.
  reflexivity.
Qed.

Lemma visit_selection_InlineFragment {S} (visitor : Visitor S) selectionSet s :
  visit_selection visitor (InlineFragmentNode selectionSet) s
  = visit_selections visitor selectionSet (InlineFragment_enter visitor s).
Proof.
  reflexivity.
Qed.

Lemma nesting_Field name arguments selectionSet :
  nesting (FieldNode name arguments selectionSet) = 1 + deepest selectionSet.
Proof.
  reflexivity.
Qed.

Lemma nesting_InlineFragment selectionSet :
  nesting (InlineFragmentNode selectionSet) = deepest selectionSet.
Proof.
  reflexivity.
Qed.

Lemma fields_in_Field name arguments selectionSet :
  fields_in (FieldNode name arguments selectionSet) = 1 + fields_in_all selectionSet.
Proof.
  reflexivity.
Qed.

Lemma fields_in_InlineFragment selectionSet :
  fields_in (InlineFragmentNode selectionSet) = fields_in_all selectionSet.
Proof.
  reflexivity.
Qed.

Lemma nesting_bounds node : 0 ≤ nesting node ≤ fields_in node.
Proof.
  induction node as [name arguments selectionSet IH|name|selectionSet IH]
    using SelectionNode_induction.
  - rewrite nesting_Field, fields_in_Field.
    assert (0 ≤ deepest selectionSet ≤ fields_in_all selectionSet); [|lia].
    unfold deepest, fields_in_all.
    induction IH as [|child rest Hchild _ IHrest]; cbn [fold_right]; lia.
  - cbn. lia.
  - rewrite nesting_InlineFragment, fields_in_InlineFragment.
    unfold deepest, fields_in_all.
    induction IH as [|child rest Hchild _ IHrest]; cbn [fold_right]; lia.
Qed.

Lemma deepest_bounds nodes : 0 ≤ deepest nodes ≤ fields_in_all nodes.
Proof.
  unfold deepest, fields_in_all.
  induction nodes as [|child rest IH]; cbn [fold_right]; [lia|].
  pose proof (nesting_bounds child). lia.
Qed.

(** What the walk of [calculateNodeDepth] does to [depth] and [maxDepth]. *)
Lemma depth_visit_selection node :
  ∀ depth maxDepth,
  visit_selection depth_visitor node (depth, maxDepth)
  = (depth, if nesting node =? 0 then maxDepth else Z.max maxDepth (depth + nesting node)).
Proof.
  assert (Hall : ∀ nodes,
            Forall (λ node, ∀ depth maxDepth,
                      visit_selection depth_visitor node (depth, maxDepth)
                      = (depth, if nesting node =? 0 then maxDepth
                                else Z.max maxDepth (depth + nesting node))) nodes →
            ∀ depth maxDepth,
            visit_selections depth_visitor nodes (depth, maxDepth)
            = (depth, if deepest nodes =? 0 then maxDepth
                      else Z.max maxDepth (depth + deepest nodes))).
  { intros nodes Hnodes. induction Hnodes as [|child rest Hchild _ IHrest]; intros depth maxDepth.
    - done.
    - unfold visit_selections in *. cbn [fold_left fold_right deepest]. rewrite Hchild, IHrest.
      f_equal. fold (deepest rest).
      pose proof (nesting_bounds child). pose proof (deepest_bounds rest).
      destruct (Z.eqb_spec (nesting child) 0), (Z.eqb_spec (deepest rest) 0),
        (Z.eqb_spec (Z.max (nesting child) (deepest rest)) 0); lia. }
  induction node as [name arguments selectionSet IH|name|selectionSet IH]
    using SelectionNode_induction; intros depth maxDepth.
  - rewrite visit_selection_Field, nesting_Field. cbn [Field_enter Field_leave depth_visitor].
    rewrite (Hall _ IH). pose proof (deepest_bounds selectionSet).
    destruct (Z.eqb_spec (deepest selectionSet) 0), (Z.eqb_spec (1 + deepest selectionSet) 0);
      f_equal; lia.
  - done.
  - rewrite visit_selection_InlineFragment, nesting_InlineFragment.
    cbn [InlineFragment_enter depth_visitor]. by rewrite (Hall _ IH).
Qed.

Lemma depth_visit_selections nodes depth maxDepth :
  visit_selections depth_visitor nodes (depth, maxDepth)
  = (depth, if deepest nodes =? 0 then maxDepth else Z.max maxDepth (depth + deepest nodes)).
Proof.
  revert depth maxDepth. induction nodes as [|child rest IH]; intros depth maxDepth; [done|].
  unfold visit_selections in *. cbn [fold_left fold_right deepest].
  rewrite depth_visit_selection, IH. f_equal. fold (deepest rest).
  pose proof (nesting_bounds child). pose proof (deepest_bounds rest).
  destruct (Z.eqb_spec (nesting child) 0), (Z.eqb_spec (deepest rest) 0),
    (Z.eqb_spec (Z.max (nesting child) (deepest rest)) 0); lia.
Qed.

Lemma visit_selection_idle {S} (visitor : Visitor S) :
  (∀ name arguments s, Field_enter visitor name arguments s = s) →
  (∀ s, Field_leave visitor s = s) →
  (∀ s, FragmentSpread_enter visitor s = s) →
  (∀ s, InlineFragment_enter visitor s = s) →
  ∀ nodes s, visit_selections visitor nodes s = s.
Proof.
  intros Henter Hleave Hspread Hinline.
  assert (Hone : ∀ node s, visit_selection visitor node s = s).
  { induction node as [name arguments selectionSet IH|name|selectionSet IH]
      using SelectionNode_induction; intros s.
    - rewrite visit_selection_Field, Hleave.
      transitivity (Field_enter visitor name arguments s); [|apply Henter].
      generalize (Field_enter visitor name arguments s). unfold visit_selections.
      induction IH as [|child rest Hchild _ IHrest]; intros s'; [done|].
      cbn [fold_left]. by rewrite Hchild.
    - apply Hspread.
    - rewrite visit_selection_InlineFragment.
      transitivity (InlineFragment_enter visitor s); [|apply Hinline].
      generalize (InlineFragment_enter visitor s). unfold visit_selections.
      induction IH as [|child rest Hchild _ IHrest]; intros s'; [done|].
      cbn [fold_left]. by rewrite Hchild. }
  unfold visit_selections. induction nodes as [|child rest IH]; intros s; [done|].
  cbn [fold_left]. by rewrite Hone.
Qed.

Lemma count_visit_selection node : ∀ n, visit_selection count_visitor node n = n + fields_in node.
Proof.
  induction node as [name arguments selectionSet IH|name|selectionSet IH]
    using SelectionNode_induction; intros n.
  - rewrite visit_selection_Field, fields_in_Field. cbn [Field_enter Field_leave count_visitor].
    assert (H : ∀ m, visit_selections count_visitor selectionSet m = m + fields_in_all selectionSet).
    { unfold visit_selections, fields_in_all.
      induction IH as [|child rest Hchild _ IHrest]; intros m; cbn [fold_left fold_right]; [lia|].
      rewrite Hchild, IHrest. lia. }
    rewrite H. lia.
  - cbn. lia.
  - rewrite visit_selection_InlineFragment, fields_in_InlineFragment.
    cbn [InlineFragment_enter count_visitor].
    unfold visit_selections, fields_in_all. revert n.
    induction IH as [|child rest Hchild _ IHrest]; intros m; cbn [fold_left fold_right]; [lia|].
    rewrite Hchild, IHrest. lia.
Qed.

Lemma count_visit_selections nodes n :
  visit_selections count_visitor nodes n = n + fields_in_all nodes.
Proof.
  unfold visit_selections, fields_in_all. revert n.
  induction nodes as [|child rest IH]; intros n; cbn [fold_left fold_right]; [lia|].
  rewrite count_visit_selection, IH. lia.
Qed.

Lemma fields_in_nonneg node : 0 ≤ fields_in node.
Proof. pose proof (nesting_bounds node). lia. Qed.

Lemma fields_of_nonneg definition : 0 ≤ fields_of definition.
Proof.
  destruct definition as [operation name selectionSet|name selectionSet|]; cbn [fields_of];
    try lia; pose proof (deepest_bounds selectionSet); lia.
Qed.

Lemma deepest_operation_bounds document :
  0 ≤ deepest_operation document ≤ fields_of_document document.
Proof.
  unfold deepest_operation, fields_of_document.
  induction document as [|definition rest IH]; cbn [fold_right]; [lia|].
  pose proof (fields_of_nonneg definition).
  assert (0 ≤ operation_depth definition ≤ fields_of definition); [|lia].
  destruct definition as [operation name selectionSet|name selectionSet|];
    cbn [operation_depth fields_of]; try lia; pose proof (deepest_bounds selectionSet); lia.
Qed.

Lemma calculateDepth_eq (document : DocumentNode) :
  calculateDepth document = deepest_operation document.
Proof.
  unfold calculateDepth, visit.
  set (visitor := {| OperationDefinition_enter := _ |}).
  assert (Hidle : ∀ nodes m, visit_selections visitor nodes m = m)
    by (by apply visit_selection_idle).
  assert (Hacc : ∀ m, 0 ≤ m →
            fold_left (λ s definition, visit_definition visitor definition s) document m
            = Z.max m (deepest_operation document)).
  { unfold deepest_operation.
    induction document as [|definition rest IH]; intros m Hm; cbn [fold_left fold_right]; [lia|].
    pose proof (deepest_operation_bounds rest) as Hrest. unfold deepest_operation in Hrest.
    destruct definition as [operation name selectionSet|name selectionSet|];
      cbn [visit_definition operation_depth].
    - rewrite Hidle. cbn [OperationDefinition_enter visitor].
      change (calculateNodeDepth (OperationDefinitionNode operation name selectionSet) 0 m)
        with (visit_selections depth_visitor selectionSet (0, m)).
      rewrite depth_visit_selections. cbn [snd].
      pose proof (deepest_bounds selectionSet).
      destruct (Z.eqb_spec (deepest selectionSet) 0); rewrite IH; lia.
    - rewrite Hidle, IH by done. lia.
    - rewrite IH by done. lia. }
  rewrite Hacc by lia. pose proof (deepest_operation_bounds document). lia.
Qed.

Lemma countFields_eq (document : DocumentNode) :
  countFields document = fields_of_document document.
Proof.
  unfold countFields, visit. change {| OperationDefinition_enter := _ |} with count_visitor.
  assert (Hacc : ∀ n,
            fold_left (λ s definition, visit_definition count_visitor definition s) document n
            = n + fields_of_document document).
  { unfold fields_of_document.
    induction document as [|definition rest IH]; intros n; cbn [fold_left fold_right]; [lia|].
    rewrite IH. destruct definition; cbn [visit_definition fields_of];
      rewrite ?count_visit_selections; cbn; lia. }
  rewrite Hacc. lia.
Qed.

(** X13.  [calculateDepth] returns the deepest nesting of fields in the
    operations of the document: each field counts one level, an inline
    fragment counts none, a fragment spread is not followed, and fragment
    definitions are left out. *)
Theorem calculateDepth_is_deepest_operation (document : DocumentNode) :
  calculateDepth document = deepest_operation document.
Proof. apply calculateDepth_eq. Qed.

(** X14.  [countFields] returns the number of [Field] nodes of the
    document, those of fragment definitions included. *)
Theorem countFields_counts_every_field (document : DocumentNode) :
  countFields document = fields_of_document document.
Proof. apply countFields_eq. Qed.

Lemma complexity_Field_enter_ge name arguments (complexity : Q) :
  (complexity + 1 <= complexity_Field_enter name arguments complexity)%Q.
Proof.
  unfold complexity_Field_enter.
  assert (Hlen : (0 <= inject_Z (Z.of_nat (length arguments)))%Q)
    by (change 0%Q with (inject_Z 0); rewrite <- Zle_Qle; lia).
  destruct (0 <? length arguments)%nat;
    destruct (endsWith name "s" || includes name "list" || includes name "all");
    destruct (includes name "connection" || includes name "edges"); lra.
Qed.

Lemma complexity_visit_selection node :
  ∀ complexity : Q,
  (complexity + inject_Z (fields_in node)
   <= visit_selection complexity_visitor node complexity)%Q.
Proof.
  assert (Hall : ∀ nodes,
            Forall (λ node, ∀ complexity : Q,
                      (complexity + inject_Z (fields_in node)
                       <= visit_selection complexity_visitor node complexity)%Q) nodes →
            ∀ complexity : Q,
            (complexity + inject_Z (fields_in_all nodes)
             <= visit_selections complexity_visitor nodes complexity)%Q).
  { intros nodes Hnodes. unfold visit_selections, fields_in_all.
    induction Hnodes as [|child rest Hchild _ IHrest]; intros complexity;
      cbn [fold_left fold_right].
    - change (inject_Z 0) with 0%Q. lra.
    - rewrite inject_Z_plus. specialize (Hchild complexity).
      specialize (IHrest (visit_selection complexity_visitor child complexity)). lra. }
  induction node as [name arguments selectionSet IH|name|selectionSet IH]
    using SelectionNode_induction; intros complexity.
  - rewrite visit_selection_Field, fields_in_Field, inject_Z_plus.
    cbn [Field_enter Field_leave complexity_visitor].
    pose proof (complexity_Field_enter_ge name arguments complexity).
    pose proof (Hall _ IH (complexity_Field_enter name arguments complexity)).
    change (inject_Z 1) with 1%Q. lra.
  - cbn. change (inject_Z 0) with 0%Q. lra.
  - rewrite visit_selection_InlineFragment, fields_in_InlineFragment.
    cbn [InlineFragment_enter complexity_visitor].
    pose proof (Hall _ IH (complexity + (1 # 2))%Q). lra.
Qed.

Lemma complexity_visit_selections nodes (complexity : Q) :
  (complexity + inject_Z (fields_in_all nodes)
   <= visit_selections complexity_visitor nodes complexity)%Q.
Proof.
  revert complexity. unfold visit_selections, fields_in_all.
  induction nodes as [|child rest IH]; intros complexity; cbn [fold_left fold_right].
  - change (inject_Z 0) with 0%Q. lra.
  - rewrite inject_Z_plus. pose proof (complexity_visit_selection child complexity).
    specialize (IH (visit_selection complexity_visitor child complexity)). lra.
Qed.

Lemma depth_le_fields_le_complexity_aux (document : DocumentNode) :
  0 ≤ calculateDepth document
  ∧ calculateDepth document ≤ countFields document
  ∧ countFields document ≤ calculateComplexity document.
Proof.
  rewrite calculateDepth_eq, countFields_eq.
  pose proof (deepest_operation_bounds document) as [H0 H1].
  split; [done|]. split; [done|]. clear H0 H1.
  unfold calculateComplexity, Math_round, visit.
  change {| OperationDefinition_enter := _ |} with complexity_visitor.
  assert (Hacc : ∀ complexity : Q,
            (complexity + inject_Z (fields_of_document document)
             <= fold_left (λ s definition, visit_definition complexity_visitor definition s)
                  document complexity)%Q).
  { unfold fields_of_document.
    induction document as [|definition rest IH]; intros complexity; cbn [fold_left fold_right].
    - change (inject_Z 0) with 0%Q. lra.
    - rewrite inject_Z_plus.
      specialize (IH (visit_definition complexity_visitor definition complexity)).
      assert ((complexity + inject_Z (fields_of definition)
               <= visit_definition complexity_visitor definition complexity)%Q); [|lra].
      destruct definition as [operation name selectionSet|name selectionSet|];
        cbn [visit_definition fields_of OperationDefinition_enter complexity_visitor].
      + apply complexity_visit_selections.
      + apply complexity_visit_selections.
      + change (inject_Z 0) with 0%Q. lra. }
  rewrite <- (Qfloor_Z (fields_of_document document)) at 1.
  apply Qfloor_resp_le. specialize (Hacc 0%Q). lra.
Qed.

(** X15.  For every document the depth is at most the number of fields and
    the number of fields is at most the complexity: every field costs at
    least one, and rounding does not take that away. *)
Theorem depth_le_fields_le_complexity (document : DocumentNode) :
  0 ≤ calculateDepth document
  ∧ calculateDepth document ≤ countFields document
  ∧ countFields document ≤ calculateComplexity document.
Proof. apply depth_le_fields_le_complexity_aux. Qed.

Lemma Qgtb_lt (x y : Q) : Qgtb x y = true ↔ (y < x)%Q.
Proof.
  unfold Qgtb. rewrite negb_true_iff. split.
  - intros H. apply Qnot_le_lt. intros Hle%Qle_bool_iff. congruence.
  - intros H. apply not_true_is_false. intros Hle%Qle_bool_iff.
    by apply (Qlt_not_le _ _ H).
Qed.

(** X16.  [validateQuery] reports the three numbers of the analyzer and
    judges the query on two of them.  The limit on the complexity is the
    caller's [maxQueryComplexity] when that property is in the caller's
    thresholds, whatever its value, and 100 otherwise; the limit on the
    depth is the caller's [maxQueryDepth] or 10 likewise.  The violations
    are exactly one for each limit passed, the complexity's first, each with
    the number and the limit; [valid] holds exactly when there is none.  A
    limit that is a finite number is passed when the number is greater; a
    limit that is there with the value [undefined], [NaN] or [Infinity] is
    never passed, so a caller who sets both properties to [undefined] gets
    every query valid.  The field count never makes a query invalid: above
    50 it adds a warning. *)
Theorem validateQuery_valid_iff (document : DocumentNode)
    (variables : option (gmap string string))
    (thresholds : option Partial.IPerformanceThresholds) :
  let result := validateQuery document variables thresholds in
  let complexity := calculateComplexity document in
  let depth := calculateDepth document in
  let complexityLimit :=
    match thresholds with
    | Some {| Partial.maxQueryComplexity := Some limit |} => limit
    | _ => Some (Finite 100)
    end in
  let depthLimit :=
    match thresholds with
    | Some {| Partial.maxQueryDepth := Some limit |} => limit
    | _ => Some (Finite 10)
    end in
  let passed (x : Z) (limit : option JsNumber) : Prop :=
    match limit with
    | Some (Finite q) => (q < inject_Z x)%Q
    | Some MinusInfinity => True
    | Some PlusInfinity | Some NaN | None => False
    end in
  QueryValidation.violations result
  = (if exceeds complexity complexityLimit
     then [{| violation_type := ViolationComplexity; violation_value := complexity;
              violation_threshold := complexityLimit |}]
     else [])
    ++ (if exceeds depth depthLimit
        then [{| violation_type := ViolationDepth; violation_value := depth;
                 violation_threshold := depthLimit |}]
        else [])
  ∧ (exceeds complexity complexityLimit = true ↔ passed complexity complexityLimit)
  ∧ (exceeds depth depthLimit = true ↔ passed depth depthLimit)
  ∧ (QueryValidation.valid result = true
     ↔ ¬ passed complexity complexityLimit ∧ ¬ passed depth depthLimit)
  ∧ (QueryValidation.valid result = true ↔ QueryValidation.violations result = [])
  ∧ (QueryValidation.warnings result ≠ [] ↔ 50 < countFields document)
  ∧ QueryValidation.complexity result = complexity
  ∧ QueryValidation.depth result = depth
  ∧ QueryValidation.fieldCount result = countFields document.
Proof.
  cbn zeta.
  set (passed := λ (x : Z) (limit : option JsNumber),
         match limit with
         | Some (Finite q) => (q < inject_Z x)%Q
         | Some MinusInfinity => True
         | Some PlusInfinity | Some NaN | None => False
         end).
  assert (Hpassed : ∀ x limit, exceeds x limit = true ↔ passed x limit).
  { intros x [[q| | |]|]; cbn; try done. apply Qgtb_lt. }
  set (complexityLimit := match thresholds with
                          | Some {| Partial.maxQueryComplexity := Some limit |} => limit
                          | _ => Some (Finite 100)
                          end).
  set (depthLimit := match thresholds with
                     | Some {| Partial.maxQueryDepth := Some limit |} => limit
                     | _ => Some (Finite 10)
                     end).
  assert (Hc : maxQueryComplexity (spread defaultThresholds thresholds) = complexityLimit).
  { subst complexityLimit. destruct thresholds as [[[limit|] ? ? ? ? ?]|]; reflexivity. }
  assert (Hd : maxQueryDepth (spread defaultThresholds thresholds) = depthLimit).
  { subst depthLimit. destruct thresholds as [[? [limit|] ? ? ? ?]|]; reflexivity. }
  unfold validateQuery. cbn [QueryValidation.valid QueryValidation.violations
    QueryValidation.warnings QueryValidation.complexity QueryValidation.depth
    QueryValidation.fieldCount].
  rewrite Hc, Hd. rewrite <- !Hpassed.
  split; [|split; [done|split; [done|split; [|split; [|split; [|done]]]]]].
  - by do 2 destruct (exceeds _ _).
  - do 2 destruct (exceeds _ _); cbn [app length]; rewrite bool_decide_eq_true; split;
      try done; try lia; by intros [? ?].
  - do 2 destruct (exceeds _ _); cbn [app length]; rewrite bool_decide_eq_true; split;
      try done; lia.
  - destruct (Z.ltb_spec 50 (countFields document)); split; intros; try done; lia.
Qed.

Lemma validateQuery_valid_iff_witness :
  QueryValidation.valid (validateQuery document_wide None None) = false
  ∧ QueryValidation.valid (validateQuery document_wide None (Some limits_undefined)) = true.
Proof.
  split.
  - destruct (validateQuery_valid_iff document_wide None None) as (_ & _ & _ & Hvalid & _).
    apply not_true_is_false. intros [Hc _]%Hvalid. apply Hc. vm_compute. reflexivity.
  - destruct (validateQuery_valid_iff document_wide None (Some limits_undefined))
      as (_ & _ & _ & Hvalid & _).
    apply Hvalid. split; intros [].
Defined.

(** X17.  Under the default thresholds a document with more than 100 fields,
    or with fields nested deeper than 10 in an operation, is never valid. *)
Theorem validateQuery_default_limits (document : DocumentNode)
    (variables : option (gmap string string)) :
  100 < countFields document ∨ 10 < calculateDepth document →
  QueryValidation.valid (validateQuery document variables None) = false.
Proof.
  intros Hover. pose proof (depth_le_fields_le_complexity_aux document) as (_ & _ & Hcf).
  unfold validateQuery. cbn [QueryValidation.valid spread defaultThresholds
    maxQueryComplexity maxQueryDepth].
  destruct Hover as [Hfields|Hdepth].
  - assert (Hc : exceeds (calculateComplexity document) (Some (Finite 100)) = true).
    { apply Qgtb_lt. change 100%Q with (inject_Z 100). rewrite <- Zlt_Qlt. lia. }
    rewrite Hc. destruct (exceeds (calculateDepth document) _);
      rewrite bool_decide_false; try done; rewrite ?length_app; cbn; lia.
  - assert (Hd : exceeds (calculateDepth document) (Some (Finite 10)) = true).
    { apply Qgtb_lt. change 10%Q with (inject_Z 10). rewrite <- Zlt_Qlt. lia. }
    rewrite Hd. destruct (exceeds (calculateComplexity document) _);
      rewrite bool_decide_false; try done; rewrite ?length_app; cbn; lia.
Qed.

Lemma validateQuery_default_limits_witness :
  QueryValidation.valid (validateQuery document_wide None None) = false.
Proof.
  apply validateQuery_default_limits. left. vm_compute. reflexivity.
Defined.

(** * Properties of [PerformanceMonitor] *)

Lemma slice_last_length {A} (n : nat) (l : list A) :
  length (slice_last n l) = Nat.min n (length l).
Proof. unfold slice_last. rewrite length_drop. lia. Qed.

Lemma slice_last_snoc {A} (l : list A) (x : A) (n : nat) :
  length l = n → (0 < n)%nat → slice_last n (l ++ [x]) = drop 1 l ++ [x].
Proof.
  intros Hl Hn. unfold slice_last. rewrite length_app. cbn [length].
  replace (length l + 1 - n)%nat with 1%nat by lia.
  rewrite drop_app_le by lia. done.
Qed.

Lemma createAlert_alerts now type severity message metric value threshold queryId operation s :
  let alert :=
    {| Alert.type := type; Alert.severity := severity; Alert.message := message;
       Alert.metric := metric; Alert.value := value; Alert.threshold := threshold;
       Alert.timestamp := now; Alert.queryId := queryId; Alert.operation := operation |} in
  PerformanceMonitor.alerts
    (PerformanceMonitor.createAlert now type severity message metric value threshold
       queryId operation s)
  = (if (100 <? length (PerformanceMonitor.alerts s ++ [alert]))%nat
     then slice_last 100 (PerformanceMonitor.alerts s ++ [alert])
     else PerformanceMonitor.alerts s ++ [alert])%list
  ∧ PerformanceMonitor.activeQueries
      (PerformanceMonitor.createAlert now type severity message metric value threshold
         queryId operation s) = PerformanceMonitor.activeQueries s
  ∧ PerformanceMonitor.completedQueries
      (PerformanceMonitor.createAlert now type severity message metric value threshold
         queryId operation s) = PerformanceMonitor.completedQueries s
  ∧ PerformanceMonitor.thresholds
      (PerformanceMonitor.createAlert now type severity message metric value threshold
         queryId operation s) = PerformanceMonitor.thresholds s
  ∧ PerformanceMonitor.fieldMetrics
      (PerformanceMonitor.createAlert now type severity message metric value threshold
         queryId operation s) = PerformanceMonitor.fieldMetrics s.
Proof.
  cbn zeta. unfold PerformanceMonitor.createAlert.
  cbn [PerformanceMonitor.set_alerts PerformanceMonitor.alerts].
  destruct (100 <? length (PerformanceMonitor.alerts s ++ [_]))%nat; by cbn.
Qed.

Lemma createAlert_cap now type severity message metric value threshold queryId operation s :
  (length (PerformanceMonitor.alerts s) ≤ 100)%nat →
  (length (PerformanceMonitor.alerts
             (PerformanceMonitor.createAlert now type severity message metric value threshold
                queryId operation s)) ≤ 100)%nat.
Proof.
  intros Hlen.
  destruct (createAlert_alerts now type severity message metric value threshold
              queryId operation s) as [-> _].
  match goal with
  | |- context [(100 <? length ?pushed)%nat] =>
      destruct (Nat.ltb_spec 100 (length pushed)) as [H|H]
  end.
  - rewrite slice_last_length. lia.
  - done.
Qed.

(** Everything but the alerts and the log is the same. *)
Lemma createAlerts_spec times queryId violations :
  ∀ i s,
  let s' := PerformanceMonitor.createAlerts times queryId i violations s in
  PerformanceMonitor.activeQueries s' = PerformanceMonitor.activeQueries s
  ∧ PerformanceMonitor.completedQueries s' = PerformanceMonitor.completedQueries s
  ∧ PerformanceMonitor.thresholds s' = PerformanceMonitor.thresholds s
  ∧ PerformanceMonitor.fieldMetrics s' = PerformanceMonitor.fieldMetrics s
  ∧ ((length (PerformanceMonitor.alerts s) ≤ 100)%nat →
     (length (PerformanceMonitor.alerts s') ≤ 100)%nat)
  ∧ ((length (PerformanceMonitor.alerts s) + length violations ≤ 100)%nat →
     PerformanceMonitor.alerts s'
     = PerformanceMonitor.alerts s
       ++ imap (λ k violation, violation_alert (times (i + k)%nat) queryId violation) violations).
Proof.
  induction violations as [|violation rest IH]; intros i s; cbn zeta.
  - cbn. rewrite app_nil_r. by repeat split.
  - cbn [PerformanceMonitor.createAlerts].
    set (s1 := PerformanceMonitor.createAlert _ _ _ _ _ _ _ _ _ s).
    destruct (IH (S i) s1) as (Ha & Hc & Ht & Hf & Hcap & Halerts).
    destruct (createAlert_alerts (times i) AlertThreshold SeverityHigh
                (ViolationMessage violation) (violation_type violation)
                (violation_value violation) (violation_threshold violation)
                (Some queryId) None s) as (Ha1 & Hact1 & Hc1 & Ht1 & Hf1).
    fold s1 in Ha1, Hact1, Hc1, Ht1, Hf1.
    split; [congruence|]. split; [congruence|]. split; [congruence|]. split; [congruence|].
    split.
    + intros Hlen. apply Hcap. subst s1. by apply createAlert_cap.
    + intros Hroom. cbn [length] in Hroom.
      assert (Hpush : PerformanceMonitor.alerts s1
                      = PerformanceMonitor.alerts s ++ [violation_alert (times i) queryId violation]).
      { rewrite Ha1.
        match goal with
        | |- context [(100 <? length ?pushed)%nat] =>
            destruct (Nat.ltb_spec 100 (length pushed)) as [H|H]
        end; [rewrite length_app in H; cbn in H; lia|done]. }
      rewrite Halerts by (rewrite Hpush, length_app; cbn; lia).
      rewrite Hpush, <- app_assoc. cbn [app imap]. rewrite Nat.add_0_r. do 2 f_equal.
      apply imap_ext. intros k v _. cbn. do 2 f_equal. lia.
Qed.

Lemma Forall_slice_last {A} (P : A → Prop) (n : nat) (l : list A) :
  Forall P l → Forall P (slice_last n l).
Proof. apply Forall_drop. Qed.

Lemma last_slice_last_snoc {A} (n : nat) (l : list A) (x : A) :
  (0 < n)%nat → last (slice_last n (l ++ [x])) = Some x.
Proof.
  intros Hn. unfold slice_last. rewrite length_app. cbn [length].
  rewrite drop_app_le by lia. apply last_snoc.
Qed.

Lemma last_push_cap {A} (n : nat) (l : list A) (x : A) :
  (0 < n)%nat →
  last (if (n <? length (l ++ [x]))%nat then slice_last n (l ++ [x]) else l ++ [x]) = Some x.
Proof.
  intros Hn. destruct (n <? length (l ++ [x]))%nat;
    [by apply last_slice_last_snoc|apply last_snoc].
Qed.

Lemma createAlert_Forall (P : Alert.IPerformanceAlert → Prop)
    now type severity message metric value threshold queryId operation s :
  Forall P (PerformanceMonitor.alerts s) →
  P {| Alert.type := type; Alert.severity := severity; Alert.message := message;
       Alert.metric := metric; Alert.value := value; Alert.threshold := threshold;
       Alert.timestamp := now; Alert.queryId := queryId; Alert.operation := operation |} →
  Forall P (PerformanceMonitor.alerts
              (PerformanceMonitor.createAlert now type severity message metric value threshold
                 queryId operation s)).
Proof.
  intros Hall Hnew.
  destruct (createAlert_alerts now type severity message metric value threshold
              queryId operation s) as [-> _].
  assert (Forall P (PerformanceMonitor.alerts s ++ [
    {| Alert.type := type; Alert.severity := severity; Alert.message := message;
       Alert.metric := metric; Alert.value := value; Alert.threshold := threshold;
       Alert.timestamp := now; Alert.queryId := queryId; Alert.operation := operation |}])).
  { apply Forall_app. split; [done|]. by apply Forall_singleton. }
  destruct (_ <? _)%nat; [by apply Forall_slice_last|done].
Qed.

Lemma createAlerts_alert_ok times queryId violations :
  ∀ i s,
  Forall alert_ok (PerformanceMonitor.alerts s) →
  Forall alert_ok (PerformanceMonitor.alerts
                     (PerformanceMonitor.createAlerts times queryId i violations s)).
Proof.
  induction violations as [|violation rest IH]; intros i s Hall; [done|].
  cbn [PerformanceMonitor.createAlerts]. apply IH. apply createAlert_Forall; [done|].
  split; [done|]. split; [by left|]. by eexists.
Qed.

Lemma validateQuery_violations_length document variables thresholds :
  (length (QueryValidation.violations (validateQuery document variables thresholds)) ≤ 2)%nat.
Proof.
  unfold validateQuery. cbn [QueryValidation.violations].
  do 2 destruct (exceeds _ _); rewrite ?length_app; cbn; lia.
Qed.

Lemma validateQuery_valid_violations document variables thresholds :
  QueryValidation.valid (validateQuery document variables thresholds) = true
  ↔ QueryValidation.violations (validateQuery document variables thresholds) = [].
Proof.
  unfold validateQuery. cbn [QueryValidation.valid QueryValidation.violations].
  rewrite bool_decide_eq_true. apply length_zero_iff_nil.
Qed.

Lemma createAlerts_same_alerts times queryId violations :
  ∀ i s1 s2,
  PerformanceMonitor.alerts s1 = PerformanceMonitor.alerts s2 →
  PerformanceMonitor.alerts (PerformanceMonitor.createAlerts times queryId i violations s1)
  = PerformanceMonitor.alerts (PerformanceMonitor.createAlerts times queryId i violations s2).
Proof.
  induction violations as [|violation rest IH]; intros i s1 s2 Heq; [done|].
  cbn [PerformanceMonitor.createAlerts]. apply IH.
  destruct (createAlert_alerts (times i) AlertThreshold SeverityHigh
              (ViolationMessage violation) (violation_type violation)
              (violation_value violation) (violation_threshold violation)
              (Some queryId) None s1) as [-> _].
  destruct (createAlert_alerts (times i) AlertThreshold SeverityHigh
              (ViolationMessage violation) (violation_type violation)
              (violation_value violation) (violation_threshold violation)
              (Some queryId) None s2) as [-> _].
  by rewrite Heq.
Qed.

(** [startQuery]: the record it returns is filed under [queryId]; the
    alerts are those of [createAlerts] on the violations. *)
Lemma startQuery_spec times queryId document variables userId requestId s :
  let validation :=
    validateQuery document variables (Some (all_of (PerformanceMonitor.thresholds s))) in
  let r := PerformanceMonitor.startQuery times queryId document variables userId requestId s in
  PerformanceMonitor.activeQueries r.2 = <[queryId := r.1]> (PerformanceMonitor.activeQueries s)
  ∧ PerformanceMonitor.completedQueries r.2 = PerformanceMonitor.completedQueries s
  ∧ PerformanceMonitor.thresholds r.2 = PerformanceMonitor.thresholds s
  ∧ PerformanceMonitor.fieldMetrics r.2 = PerformanceMonitor.fieldMetrics s
  ∧ PerformanceMonitor.alerts r.2
    = PerformanceMonitor.alerts
        (PerformanceMonitor.createAlerts times queryId 1
           (QueryValidation.violations validation) s)
  ∧ active_ok queryId r.1
  ∧ QueryMetrics.startTime r.1 = times 0%nat.
Proof.
  cbn zeta. unfold PerformanceMonitor.startQuery. cbn [fst snd].
  set (validation := validateQuery _ _ _).
  set (metrics := QueryMetrics.Build_IQueryMetrics _ _ _ _ _ _ _ _ _ _ _ _ _ _ _ _ _).
  set (s0 := PerformanceMonitor.set_activeQueries _ s).
  destruct (createAlerts_spec times queryId (QueryValidation.violations validation) 1 s0)
    as (Ha & Hc & Ht & Hf & _ & _).
  destruct (QueryValidation.valid validation) eqn:Hvalid; cbn [negb].
  - apply validateQuery_valid_violations in Hvalid. fold validation in Hvalid.
    rewrite Hvalid. cbn. by repeat split.
  - cbn [PerformanceMonitor.log PerformanceMonitor.activeQueries
         PerformanceMonitor.completedQueries PerformanceMonitor.thresholds
         PerformanceMonitor.fieldMetrics PerformanceMonitor.alerts].
    rewrite Ha, Hc, Ht, Hf.
    rewrite (createAlerts_same_alerts times queryId _ 1 s0 s) by done. by repeat split.
Qed.

Lemma endQuery_unknown times queryId errors s :
  PerformanceMonitor.activeQueries s !! queryId = None →
  PerformanceMonitor.endQuery times queryId errors s
  = PerformanceMonitor.log LWarn "Attempted to end unknown query" queryId s.
Proof. intros Hnone. unfold PerformanceMonitor.endQuery. by rewrite Hnone. Qed.

Lemma endQuery_known times queryId errors s metrics :
  PerformanceMonitor.activeQueries s !! queryId = Some metrics →
  let s' := PerformanceMonitor.endQuery times queryId errors s in
  let duration := times 0%nat - QueryMetrics.startTime metrics in
  let pushed := PerformanceMonitor.completedQueries s ++ [ended times errors metrics] in
  PerformanceMonitor.activeQueries s' = delete queryId (PerformanceMonitor.activeQueries s)
  ∧ PerformanceMonitor.completedQueries s'
    = (if (1000 <? length pushed)%nat then slice_last 1000 pushed else pushed)
  ∧ PerformanceMonitor.thresholds s' = PerformanceMonitor.thresholds s
  ∧ PerformanceMonitor.fieldMetrics s' = PerformanceMonitor.fieldMetrics s
  ∧ PerformanceMonitor.alerts s'
    = PerformanceMonitor.alerts
        (if exceeds duration (slowQueryThreshold (PerformanceMonitor.thresholds s))
         then PerformanceMonitor.createAlert (times 1%nat) AlertThreshold SeverityMedium
                (SlowQueryDetected duration) ViolationTime duration
                (slowQueryThreshold (PerformanceMonitor.thresholds s))
                (Some queryId) (Some (QueryMetrics.operation metrics)) s
         else s).
Proof.
  intros Hsome. cbn zeta. unfold PerformanceMonitor.endQuery. rewrite Hsome. cbn zeta.
  fold (ended times errors metrics).
  set (duration := times 0%nat - QueryMetrics.startTime metrics).
  set (s1 := if exceeds _ _ then _ else s).
  assert (Hframe : PerformanceMonitor.activeQueries s1 = PerformanceMonitor.activeQueries s
                   ∧ PerformanceMonitor.completedQueries s1 = PerformanceMonitor.completedQueries s
                   ∧ PerformanceMonitor.thresholds s1 = PerformanceMonitor.thresholds s
                   ∧ PerformanceMonitor.fieldMetrics s1 = PerformanceMonitor.fieldMetrics s).
  { subst s1. destruct (exceeds _ _); [|done].
    destruct (createAlert_alerts (times 1%nat) AlertThreshold SeverityMedium
                (SlowQueryDetected duration) ViolationTime duration
                (slowQueryThreshold (PerformanceMonitor.thresholds s))
                (Some queryId) (Some (QueryMetrics.operation metrics)) s)
      as (_ & ? & ? & ? & ?). done. }
  destruct Hframe as (Ha & Hc & Ht & Hf).
  cbn [PerformanceMonitor.set_completedQueries PerformanceMonitor.set_activeQueries
       PerformanceMonitor.completedQueries PerformanceMonitor.activeQueries
       PerformanceMonitor.alerts PerformanceMonitor.thresholds PerformanceMonitor.fieldMetrics].
  rewrite Hc.
  destruct (1000 <? _)%nat; cbn; rewrite ?Ha, ?Hc, ?Ht, ?Hf; by repeat split.
Qed.

Lemma update_last_frame key f s :
  PerformanceMonitor.activeQueries (PerformanceMonitor.update_last key f s)
  = PerformanceMonitor.activeQueries s
  ∧ PerformanceMonitor.completedQueries (PerformanceMonitor.update_last key f s)
    = PerformanceMonitor.completedQueries s
  ∧ PerformanceMonitor.thresholds (PerformanceMonitor.update_last key f s)
    = PerformanceMonitor.thresholds s
  ∧ PerformanceMonitor.alerts (PerformanceMonitor.update_last key f s)
    = PerformanceMonitor.alerts s
  ∧ PerformanceMonitor.logger (PerformanceMonitor.update_last key f s)
    = PerformanceMonitor.logger s.
Proof.
  unfold PerformanceMonitor.update_last.
  destruct (PerformanceMonitor.fieldMetrics s !! key) as [metrics|]; [|done].
  by destruct (last metrics).
Qed.

Lemma startField_frame now queryId fieldName typeName path s :
  let s' := (PerformanceMonitor.startField now queryId fieldName typeName path s).2 in
  PerformanceMonitor.activeQueries s' = PerformanceMonitor.activeQueries s
  ∧ PerformanceMonitor.completedQueries s' = PerformanceMonitor.completedQueries s
  ∧ PerformanceMonitor.thresholds s' = PerformanceMonitor.thresholds s
  ∧ PerformanceMonitor.alerts s' = PerformanceMonitor.alerts s
  ∧ PerformanceMonitor.logger s' = PerformanceMonitor.logger s.
Proof.
  cbn zeta. unfold PerformanceMonitor.startField. cbn [snd].
  by destruct (PerformanceMonitor.fieldMetrics s !! _).
Qed.

Lemma monitor_ok_new : monitor_ok (PerformanceMonitor.new ()).
Proof.
  split; cbn; try lia; try done.
Qed.

Lemma monitor_ok_frame s s' :
  PerformanceMonitor.activeQueries s' = PerformanceMonitor.activeQueries s →
  PerformanceMonitor.completedQueries s' = PerformanceMonitor.completedQueries s →
  PerformanceMonitor.alerts s' = PerformanceMonitor.alerts s →
  monitor_ok s → monitor_ok s'.
Proof. intros Ha Hc Hal [? ? ? ? ?]. split; by rewrite ?Ha, ?Hc, ?Hal. Qed.

Lemma monitor_invoke_ok c s : monitor_ok s → monitor_ok (monitor_invoke c s).
Proof.
  intros Hok.
  destruct c as [times queryId document variables uid rid | times queryId errors
                | now queryId fieldName typeName path | now queryId fieldPath errors
                | queryId fieldPath hit | queryId loaderName batchSize cacheHits | partial];
    cbn [monitor_invoke].
  - destruct (startQuery_spec times queryId document variables uid rid s)
      as (Ha & Hc & _ & _ & Hal & Hm & _).
    destruct Hok as [Hcap1 Hcap2 Hfin Hact Hraised].
    destruct (createAlerts_spec times queryId
                (QueryValidation.violations
                   (validateQuery document variables
                      (Some (all_of (PerformanceMonitor.thresholds s))))) 1 s)
      as (_ & _ & _ & _ & Hcap & _).
    split; rewrite ?Ha, ?Hc, ?Hal; auto.
    + by apply map_Forall_insert_2.
    + by apply createAlerts_alert_ok.
  - destruct (PerformanceMonitor.activeQueries s !! queryId) as [metrics|] eqn:Hq.
    + destruct (endQuery_known times queryId errors s metrics Hq) as (Ha & Hc & _ & _ & Hal).
      destruct Hok as [Hcap1 Hcap2 Hfin Hact Hraised].
      assert (Hpushed : Forall completed_ok
                (PerformanceMonitor.completedQueries s ++ [ended times errors metrics])).
      { apply Forall_app. split; [done|]. apply Forall_singleton.
        exists (times 0%nat). done. }
      split; rewrite ?Ha, ?Hc, ?Hal.
      * destruct (exceeds _ _); [by apply createAlert_cap|done].
      * match goal with
        | |- context [(1000 <? length ?pushed)%nat] =>
            destruct (Nat.ltb_spec 1000 (length pushed)) as [H|H]
        end; [rewrite slice_last_length; lia|done].
      * destruct (_ <? _)%nat; [by apply Forall_slice_last|done].
      * by apply map_Forall_delete.
      * destruct (exceeds _ _); [|done]. apply createAlert_Forall; [done|].
        split; [done|]. split; [by right|]. by eexists.
    + rewrite endQuery_unknown by done. by apply (monitor_ok_frame s).
  - destruct (startField_frame now queryId fieldName typeName path s) as (? & ? & _ & ? & _).
    by apply (monitor_ok_frame s).
  - unfold PerformanceMonitor.endField.
    destruct (update_last_frame (PerformanceMonitor.fieldKey queryId fieldPath)
      (λ fieldMetric,
         FieldMetrics.finish now (now - FieldMetrics.startTime fieldMetric)
           (match errors with
            | Some (e :: es) => Some (e :: es)
            | _ => FieldMetrics.errors fieldMetric
            end) fieldMetric) s) as (? & ? & _ & ? & _).
    by apply (monitor_ok_frame s).
  - unfold PerformanceMonitor.recordCacheEvent.
    set (s1 := match PerformanceMonitor.activeQueries s !! queryId with
               | Some _ => _ | None => s end).
    destruct (update_last_frame (PerformanceMonitor.fieldKey queryId fieldPath)
                (FieldMetrics.with_cacheHit hit) s1) as (? & ? & _ & ? & _).
    apply (monitor_ok_frame s1); [done..|]. subst s1.
    destruct (PerformanceMonitor.activeQueries s !! queryId) as [metrics|] eqn:Hq; [|done].
    destruct Hok as [Hcap1 Hcap2 Hfin Hact Hraised].
    split; cbn; try done.
    apply map_Forall_insert_2; [|done].
    specialize (Hact _ _ Hq). destruct Hact as (? & ? & ?). by destruct hit.
  - unfold PerformanceMonitor.recordDataLoaderBatch.
    destruct (PerformanceMonitor.activeQueries s !! queryId) as [metrics|] eqn:Hq;
      [|by apply (monitor_ok_frame s)].
    destruct Hok as [Hcap1 Hcap2 Hfin Hact Hraised].
    split; cbn; try done.
    apply map_Forall_insert_2; [|done].
    specialize (Hact _ _ Hq). by destruct Hact as (? & ? & ?).
  - by apply (monitor_ok_frame s).
Qed.

Lemma monitor_run_snoc calls c s :
  monitor_run (calls ++ [c]) s = monitor_invoke c (monitor_run calls s).
Proof. unfold monitor_run. by rewrite fold_left_app. Qed.

Lemma monitor_run_ok calls s : monitor_ok s → monitor_ok (monitor_run calls s).
Proof.
  revert s. induction calls as [|c calls IH]; intros s Hok; [done|].
  cbn. apply IH. by apply monitor_invoke_ok.
Qed.

Lemma sort_insert_perm {A} (compareFn : A → A → Z) (x : A) (l : list A) :
  sort_insert compareFn x l ≡ₚ x :: l.
Proof.
  induction l as [|y l IH]; [done|]. cbn.
  destruct (compareFn x y <=? 0); [done|]. rewrite IH. apply Permutation_swap.
Qed.

Lemma Array_sort_perm {A} (compareFn : A → A → Z) (l : list A) :
  Array_sort compareFn l ≡ₚ l.
Proof.
  induction l as [|x l IH]; [done|]. cbn. fold (Array_sort compareFn l).
  by rewrite sort_insert_perm, IH.
Qed.

Lemma sort_insert_descending {A} (key : A → Z) (x : A) (l : list A) :
  descending key l → descending key (sort_insert (λ a b, key b - key a) x l).
Proof.
  unfold descending. induction 1 as [|y l Hsorted IH Hy]; cbn.
  - by repeat constructor.
  - destruct (Z.leb_spec (key y - key x) 0) as [Hle|Hgt].
    + constructor; [by constructor|]. constructor; [lia|].
      eapply Forall_impl; [exact Hy|]. cbn. intros; lia.
    + constructor; [done|].
      rewrite (Forall_forall (λ b, key b ≤ key y)). intros b Hb.
      assert (Hin : b ∈ x :: l) by by rewrite <- (sort_insert_perm (λ a b, key b - key a)).
      apply elem_of_cons in Hin as [->|Hin]; [lia|].
      by apply (proj1 (Forall_forall _ _) Hy).
Qed.

Lemma Array_sort_descending {A} (key : A → Z) (l : list A) :
  descending key (Array_sort (λ a b, key b - key a) l).
Proof.
  induction l as [|x l IH]; [constructor|]. cbn. by apply sort_insert_descending.
Qed.

Lemma descending_app {A} (key : A → Z) (l1 l2 : list A) :
  descending key (l1 ++ l2) →
  descending key l1 ∧ ∀ a b, a ∈ l1 → b ∈ l2 → key b ≤ key a.
Proof.
  unfold descending. induction l1 as [|x l1 IH]; cbn; intros Hsorted.
  - split; [constructor|]. intros a b Ha. by apply elem_of_nil in Ha.
  - apply StronglySorted_inv in Hsorted as [Hrest Hx].
    destruct (IH Hrest) as [Hl1 Hbetween].
    apply Forall_app in Hx as [Hx1 Hx2].
    split; [by constructor|].
    intros a b Ha Hb. apply elem_of_cons in Ha as [->|Ha]; [|by apply Hbetween].
    by apply (proj1 (Forall_forall _ _) Hx2).
Qed.

Lemma slice_to_length {A} (finish : Z) (l : list A) :
  0 ≤ finish →
  Z.of_nat (length (slice_to finish l)) = Z.min finish (Z.of_nat (length l)).
Proof.
  intros Hfinish. unfold slice_to. destruct (Z.ltb_spec finish 0); [lia|].
  rewrite length_take. lia.
Qed.

(** [sort] by a key, largest first, then [slice(0, limit)]. *)
Lemma sort_slice_top {A} (key : A → Z) (limit : Z) (l : list A) :
  top_of key l (slice_to limit (Array_sort (λ a b, key b - key a) l)).
Proof.
  unfold slice_to. set (sorted := Array_sort _ l). set (n := Z.to_nat _).
  pose proof (Array_sort_descending key l) as Hsorted. fold sorted in Hsorted.
  rewrite <- (take_drop n sorted) in Hsorted.
  apply descending_app in Hsorted as [Htop Hbetween].
  split; [done|]. exists (drop n sorted). split; [|done].
  rewrite take_drop. apply Array_sort_perm.
Qed.

(** X18.  However the monitor is used, it keeps at most 100 alerts and at
    most 1000 completed queries. *)
Theorem monitor_arrays_capped (calls : list MonitorCall) :
  let s := monitor_run calls (PerformanceMonitor.new ()) in
  (length (PerformanceMonitor.alerts s) ≤ 100)%nat
  ∧ (length (PerformanceMonitor.completedQueries s) ≤ 1000)%nat.
Proof.
  cbn zeta. destruct (monitor_run_ok calls _ monitor_ok_new). done.
Qed.

(** X19.  However the monitor is used, every completed query has its end
    time and the duration [endTime - startTime], so the filter of
    [getSlowQueries] drops nothing; every active query is filed under its
    own id and has neither. *)
Theorem completed_queries_have_duration (calls : list MonitorCall) :
  let s := monitor_run calls (PerformanceMonitor.new ()) in
  Forall completed_ok (PerformanceMonitor.completedQueries s)
  ∧ filter (λ q, QueryMetrics.duration q ≠ None) (PerformanceMonitor.completedQueries s)
    = PerformanceMonitor.completedQueries s
  ∧ map_Forall active_ok (PerformanceMonitor.activeQueries s).
Proof.
  cbn zeta. destruct (monitor_run_ok calls _ monitor_ok_new) as [_ _ Hfin Hact _].
  split; [done|]. split; [|done].
  induction Hfin as [|q l (e & _ & Hd) _ IH]; [done|].
  rewrite filter_cons_True by by rewrite Hd. by rewrite IH.
Qed.

(** X20.  The monitor raises threshold alerts and no others: after any calls
    no alert is of low or critical severity, and every alert names a
    query. *)
Theorem monitor_alert_severities (calls : list MonitorCall) :
  let s := monitor_run calls (PerformanceMonitor.new ()) in
  PerformanceMonitor.getAlerts (Some SeverityLow) s = []
  ∧ PerformanceMonitor.getAlerts (Some SeverityCritical) s = []
  ∧ Forall (λ a, Alert.type a = AlertThreshold ∧ is_Some (Alert.queryId a))
      (PerformanceMonitor.getAlerts None s).
Proof.
  cbn zeta. destruct (monitor_run_ok calls _ monitor_ok_new) as [_ _ _ _ Hraised].
  unfold PerformanceMonitor.getAlerts.
  induction Hraised as [|a l (Htype & Hsev & Hid) _ (IH1 & IH2 & IH3)]; [done|].
  split; [|split].
  - rewrite filter_cons_False; [done|]. destruct Hsev as [-> | ->]; done.
  - rewrite filter_cons_False; [done|]. destruct Hsev as [-> | ->]; done.
  - by constructor.
Qed.

(** X21.  Ending a query twice completes it once: the second [endQuery]
    writes the warning and changes nothing else. *)
Theorem endQuery_twice (times1 times2 : nat → Z) (queryId : string)
    (errors1 errors2 : option (list string)) (s : PerformanceMonitor.t) :
  let s1 := PerformanceMonitor.endQuery times1 queryId errors1 s in
  PerformanceMonitor.endQuery times2 queryId errors2 s1
  = PerformanceMonitor.log LWarn "Attempted to end unknown query" queryId s1.
Proof.
  cbn zeta. apply endQuery_unknown.
  destruct (PerformanceMonitor.activeQueries s !! queryId) as [metrics|] eqn:Hq.
  - destruct (endQuery_known times1 queryId errors1 s metrics Hq) as (-> & _).
    apply lookup_delete_eq.
  - by rewrite endQuery_unknown.
Qed.

(** X22.  A query started and then ended leaves the active queries as they
    were without it, and is the last of the completed queries, with the
    duration from the first clock reading of [startQuery] to the first of
    [endQuery].  When that duration is above [slowQueryThreshold] the last
    alert is the slow-query alert, of medium severity; otherwise [endQuery]
    raises no alert. *)
Theorem startQuery_endQuery_lifecycle (times1 times2 : nat → Z) (queryId : string)
    (document : DocumentNode) (variables : option (gmap string string))
    (uid rid : option string) (errors : option (list string)) (s : PerformanceMonitor.t) :
  let r := PerformanceMonitor.startQuery times1 queryId document variables uid rid s in
  let s2 := PerformanceMonitor.endQuery times2 queryId errors r.2 in
  let duration := times2 0%nat - times1 0%nat in
  let threshold := slowQueryThreshold (PerformanceMonitor.thresholds s) in
  PerformanceMonitor.activeQueries s2 = delete queryId (PerformanceMonitor.activeQueries s)
  ∧ last (PerformanceMonitor.completedQueries s2) = Some (ended times2 errors r.1)
  ∧ QueryMetrics.duration (ended times2 errors r.1) = Some duration
  ∧ (if exceeds duration threshold
     then last (PerformanceMonitor.alerts s2)
          = Some (slow_alert (times2 1%nat) queryId (PerformanceMonitor.extractOperationName document)
                    duration threshold)
     else PerformanceMonitor.alerts s2 = PerformanceMonitor.alerts r.2).
Proof.
  cbn zeta.
  destruct (startQuery_spec times1 queryId document variables uid rid s)
    as (Ha & Hc & Ht & _ & _ & _ & Hstart).
  set (r := PerformanceMonitor.startQuery times1 queryId document variables uid rid s) in *.
  assert (Hq : PerformanceMonitor.activeQueries r.2 !! queryId = Some r.1)
    by (rewrite Ha; apply lookup_insert_eq).
  destruct (endQuery_known times2 queryId errors r.2 r.1 Hq) as (Ha2 & Hc2 & _ & _ & Hal2).
  split; [by rewrite Ha2, Ha, delete_insert_eq|].
  split.
  { rewrite Hc2. apply last_push_cap. lia. }
  split; [cbn; by rewrite <- Hstart|].
  rewrite Hal2, Hstart, Ht.
  destruct (exceeds (times2 0%nat - times1 0%nat) _); [|reflexivity].
  match goal with
  | |- context [PerformanceMonitor.createAlert ?now ?ty ?sev ?msg ?metric ?value ?thr ?q ?op ?s] =>
      destruct (createAlert_alerts now ty sev msg metric value thr q op s) as [-> _]
  end.
  apply (last_push_cap 100). lia.
Qed.

(** X23.  [startQuery] raises one high-severity alert for each violation
    [validateQuery] finds under the monitor's thresholds, in their order,
    stamped with the clock readings after the first; a valid query raises
    none.  (With fewer than 99 alerts kept, none is dropped.) *)
Theorem startQuery_alerts_violations (times : nat → Z) (queryId : string)
    (document : DocumentNode) (variables : option (gmap string string))
    (uid rid : option string) (s : PerformanceMonitor.t) :
  (length (PerformanceMonitor.alerts s) ≤ 98)%nat →
  let validation :=
    validateQuery document variables (Some (all_of (PerformanceMonitor.thresholds s))) in
  let r := PerformanceMonitor.startQuery times queryId document variables uid rid s in
  PerformanceMonitor.alerts r.2
  = PerformanceMonitor.alerts s
    ++ imap (λ k violation, violation_alert (times (S k)) queryId violation)
         (QueryValidation.violations validation)
  ∧ (QueryValidation.valid validation = true
     ↔ PerformanceMonitor.alerts r.2 = PerformanceMonitor.alerts s).
Proof.
  intros Hroom. cbn zeta.
  destruct (startQuery_spec times queryId document variables uid rid s)
    as (_ & _ & _ & _ & -> & _).
  set (validation := validateQuery _ _ _).
  pose proof (validateQuery_violations_length document variables
                (Some (all_of (PerformanceMonitor.thresholds s)))) as Hlen.
  fold validation in Hlen.
  destruct (createAlerts_spec times queryId (QueryValidation.violations validation) 1 s)
    as (_ & _ & _ & _ & _ & Halerts).
  rewrite Halerts by lia. clear Halerts.
  split; [done|].
  unfold validation at 1. rewrite validateQuery_valid_violations. fold validation.
  destruct (QueryValidation.violations validation) as [|v vs].
  - cbn. by rewrite app_nil_r.
  - split; [done|]. intros Heq. apply (f_equal length) in Heq.
    rewrite length_app in Heq. cbn in Heq. lia.
Qed.

Lemma startQuery_alerts_violations_witness :
  length (PerformanceMonitor.alerts
            (PerformanceMonitor.startQuery (λ i, Z.of_nat i) "q" document_wide None None None
               (PerformanceMonitor.new ())).2) = 1%nat.
Proof.
  destruct (startQuery_alerts_violations (λ i, Z.of_nat i) "q" document_wide None None None
              (PerformanceMonitor.new ())) as [-> _].
  - cbn. lia.
  - vm_compute. reflexivity.
Defined.

(** X24.  [getComplexQueries] returns completed queries, most complex first:
    nothing it leaves out is more complex than anything it returns, and it
    returns [limit] of them (10 when no limit is given), or all when there
    are fewer. *)
Theorem getComplexQueries_top (limit : option Z) (s : PerformanceMonitor.t) :
  0 ≤ default 10 limit →
  let result := PerformanceMonitor.getComplexQueries limit s in
  top_of QueryMetrics.complexity (PerformanceMonitor.completedQueries s) result
  ∧ Z.of_nat (length result)
    = Z.min (default 10 limit) (Z.of_nat (length (PerformanceMonitor.completedQueries s))).
Proof.
  intros Hlimit. cbn zeta. unfold PerformanceMonitor.getComplexQueries.
  split; [apply (sort_slice_top QueryMetrics.complexity)|].
  rewrite slice_to_length by done. by rewrite Array_sort_perm.
Qed.

Lemma getComplexQueries_top_witness :
  Z.of_nat (length (PerformanceMonitor.getComplexQueries (Some 2) monitor_three)) = 2.
Proof.
  destruct (getComplexQueries_top (Some 2) monitor_three) as [_ ->].
  - cbn. lia.
  - vm_compute. reflexivity.
Defined.

(** X25.  [getSlowQueries] returns completed queries that have a duration,
    slowest first: nothing it leaves out took longer than anything it
    returns, and it returns [limit] of them (10 when no limit is given), or
    all when there are fewer. *)
Theorem getSlowQueries_top (limit : option Z) (s : PerformanceMonitor.t) :
  0 ≤ default 10 limit →
  let timed :=
    filter (λ q, QueryMetrics.duration q ≠ None) (PerformanceMonitor.completedQueries s) in
  let result := PerformanceMonitor.getSlowQueries limit s in
  top_of duration_of timed result
  ∧ Z.of_nat (length result) = Z.min (default 10 limit) (Z.of_nat (length timed)).
Proof.
  intros Hlimit. cbn zeta. unfold PerformanceMonitor.getSlowQueries.
  split; [apply (sort_slice_top duration_of)|].
  rewrite slice_to_length by done. by rewrite Array_sort_perm.
Qed.

Lemma getSlowQueries_top_witness :
  Z.of_nat (length (PerformanceMonitor.getSlowQueries None monitor_three)) = 3.
Proof.
  destruct (getSlowQueries_top None monitor_three) as [_ ->].
  - cbn. lia.
  - vm_compute. reflexivity.
Defined.

Lemma pathToArray_rev (path : list string) : PerformanceMonitor.pathToArray path = rev path.
Proof.
  unfold PerformanceMonitor.pathToArray.
  assert (H : ∀ acc, fold_left (λ result key, key :: result) path acc = rev path ++ acc).
  { induction path as [|key path IH]; intros acc; [done|].
    cbn. rewrite IH, <- app_assoc. done. }
  by rewrite H, app_nil_r.
Qed.

(** X26.  A field started and then ended under the path [startField]
    recorded is the last entry under its key, with the duration from the
    one clock reading to the other; the entries of the other keys are as
    they were.  The path recorded is the linked list of [info.path] turned
    round, root first. *)
Theorem startField_endField_round_trip (now1 now2 : Z) (queryId fieldName typeName : string)
    (path : list string) (errors : option (list string)) (s : PerformanceMonitor.t) :
  let r := PerformanceMonitor.startField now1 queryId fieldName typeName path s in
  let key := PerformanceMonitor.fieldKey queryId (rev path) in
  let s2 := PerformanceMonitor.endField now2 queryId (FieldMetrics.path r.1) errors r.2 in
  FieldMetrics.path r.1 = rev path
  ∧ PerformanceMonitor.fieldMetrics s2 !! key
    = Some (default [] (PerformanceMonitor.fieldMetrics s !! key)
            ++ [FieldMetrics.finish now2 (now2 - now1)
                  (match errors with
                   | Some (e :: es) => Some (e :: es)
                   | _ => None
                   end) r.1])
  ∧ delete key (PerformanceMonitor.fieldMetrics s2)
    = delete key (PerformanceMonitor.fieldMetrics s).
Proof.
  cbn zeta. unfold PerformanceMonitor.startField. cbn [fst snd FieldMetrics.path].
  rewrite pathToArray_rev. set (key := PerformanceMonitor.fieldKey queryId (rev path)).
  set (fm := FieldMetrics.Build_IFieldMetrics _ _ _ _ _ _ _ _ _ _).
  split; [done|].
  set (s1 := PerformanceMonitor.set_fieldMetrics _ _).
  assert (Hs1 : PerformanceMonitor.fieldMetrics s1
                = <[key := default [] (PerformanceMonitor.fieldMetrics s !! key) ++ [fm]]>
                    (PerformanceMonitor.fieldMetrics s)).
  { subst s1. destruct (PerformanceMonitor.fieldMetrics s !! key) eqn:Hk; cbn.
    - by rewrite Hk.
    - by rewrite lookup_insert_eq, insert_insert_eq. }
  unfold PerformanceMonitor.endField, PerformanceMonitor.update_last.
  rewrite Hs1, lookup_insert_eq, last_snoc.
  cbn [PerformanceMonitor.set_fieldMetrics PerformanceMonitor.fieldMetrics].
  rewrite Hs1, lookup_insert_eq, insert_insert_eq, delete_insert_eq.
  split; [|done]. f_equal.
  rewrite length_app. cbn [length].
  replace (length (default [] (PerformanceMonitor.fieldMetrics s !! key)) + 1 - 1)%nat
    with (length (default [] (PerformanceMonitor.fieldMetrics s !! key))) by lia.
  rewrite take_app_length. by destruct errors as [[|]|].
Qed.

Lemma with_cache_id (metrics : QueryMetrics.IQueryMetrics) :
  QueryMetrics.with_cache (QueryMetrics.cacheHits metrics) (QueryMetrics.cacheMisses metrics)
    metrics = metrics.
Proof. by destruct metrics. Qed.

Lemma with_dataLoader_id (metrics : QueryMetrics.IQueryMetrics) :
  QueryMetrics.with_dataLoader (QueryMetrics.dataLoaderBatches metrics)
    (QueryMetrics.dataLoaderCacheHits metrics) metrics = metrics.
Proof. by destruct metrics. Qed.

Lemma recordCacheEvent_active queryId fieldPath hit s metrics :
  PerformanceMonitor.activeQueries s !! queryId = Some metrics →
  PerformanceMonitor.activeQueries (PerformanceMonitor.recordCacheEvent queryId fieldPath hit s)
  = <[queryId :=
        QueryMetrics.with_cache
          (QueryMetrics.cacheHits metrics + (if hit then 1 else 0))
          (QueryMetrics.cacheMisses metrics + (if hit then 0 else 1)) metrics]>
      (PerformanceMonitor.activeQueries s).
Proof.
  intros Hq. unfold PerformanceMonitor.recordCacheEvent. rewrite Hq.
  match goal with
  | |- context [PerformanceMonitor.update_last ?key ?f ?s1] =>
      destruct (update_last_frame key f s1) as (-> & _)
  end.
  destruct hit; cbn; by rewrite Z.add_0_r.
Qed.

(** X27.  The cache events recorded for an active query are counted on it,
    each once: the hits are added to [cacheHits], the misses to
    [cacheMisses], and nothing else of the query, and no other active
    query, changes. *)
Theorem cache_events_counted (queryId : string) (events : list (list string * bool))
    (s : PerformanceMonitor.t) (metrics : QueryMetrics.IQueryMetrics) :
  PerformanceMonitor.activeQueries s !! queryId = Some metrics →
  PerformanceMonitor.activeQueries (record_cache_events queryId events s)
  = <[queryId :=
        QueryMetrics.with_cache
          (QueryMetrics.cacheHits metrics + count_of true events)
          (QueryMetrics.cacheMisses metrics + count_of false events) metrics]>
      (PerformanceMonitor.activeQueries s).
Proof.
  revert s metrics. unfold record_cache_events, count_of.
  induction events as [|[fieldPath hit] events IH]; intros s metrics Hq.
  - cbn. rewrite !Z.add_0_r, with_cache_id. by rewrite insert_id.
  - cbn [fold_left fst snd].
    rewrite (IH _ (QueryMetrics.with_cache
                     (QueryMetrics.cacheHits metrics + (if hit then 1 else 0))
                     (QueryMetrics.cacheMisses metrics + (if hit then 0 else 1)) metrics)).
    + rewrite (recordCacheEvent_active _ _ _ _ metrics Hq), insert_insert_eq.
      f_equal. destruct hit.
      * rewrite filter_cons_True, filter_cons_False by done. cbn [length QueryMetrics.with_cache
          QueryMetrics.cacheHits QueryMetrics.cacheMisses]. unfold QueryMetrics.with_cache.
        cbn. f_equal; lia.
      * rewrite filter_cons_False, filter_cons_True by done. cbn [length QueryMetrics.with_cache
          QueryMetrics.cacheHits QueryMetrics.cacheMisses]. unfold QueryMetrics.with_cache.
        cbn. f_equal; lia.
    + rewrite (recordCacheEvent_active _ _ _ _ metrics Hq). apply lookup_insert_eq.
Qed.

Lemma cache_events_counted_witness :
  ∃ metrics,
    PerformanceMonitor.activeQueries
      (record_cache_events "q" [(["user"], true); (["user"; "name"], false); (["user"], true)]
         (PerformanceMonitor.startQuery (λ _, 0) "q" document_user None None None
            (PerformanceMonitor.new ())).2) !! "q" = Some metrics
    ∧ QueryMetrics.cacheHits metrics = 2 ∧ QueryMetrics.cacheMisses metrics = 1.
Proof.
  eexists. split.
  - rewrite (cache_events_counted "q" _ _
               (PerformanceMonitor.startQuery (λ _, 0) "q" document_user None None None
                  (PerformanceMonitor.new ())).1).
    + apply lookup_insert_eq.
    + vm_compute. reflexivity.
  - vm_compute. split; reflexivity.
Defined.

(** ** Sums of doubles

    What [SFadd] gives on doubles that are non-negative integers. *)

Lemma digits2_pos_size (p : positive) : digits2_pos p = Pos.size p.
Proof. induction p; simpl; congruence. Qed.

Lemma Zpos_iter_xO (q d : positive) : Zpos (Pos.iter xO q d) = Zpos q * 2 ^ Zpos d.
Proof.
  rewrite <- Z.shiftl_mul_pow2 by lia. simpl.
  apply (Pos.iter_swap_gen _ _ Zpos xO (Z.mul 2)). reflexivity.
Qed.

Lemma digits2_pos_iter_xO (q d : positive) :
  Zpos (digits2_pos (Pos.iter xO q d)) = Zpos (digits2_pos q) + Zpos d.
Proof.
  induction d using Pos.peano_ind.
  - simpl. lia.
  - rewrite Pos.iter_succ. simpl. lia.
Qed.

Lemma iter_pos_nat {A} (f : A → A) (p : positive) (x : A) :
  SpecFloat.iter_pos f p x = Nat.iter (Pos.to_nat p) f x.
Proof.
  revert x. induction p; intros x; cbn [SpecFloat.iter_pos].
  - rewrite !IHp, Pos2Nat.inj_xI, <- Nat.iter_add, <- Nat.iter_succ_r.
    f_equal. lia.
  - rewrite !IHp, Pos2Nat.inj_xO, <- Nat.iter_add. f_equal. lia.
  - reflexivity.
Qed.

Lemma shr_1_xO (q : positive) :
  shr_1 {| shr_m := Zpos (xO q); shr_r := false; shr_s := false |}
  = {| shr_m := Zpos q; shr_r := false; shr_s := false |}.
Proof. reflexivity. Qed.

Lemma iter_shr_1_exact (d : positive) (q : positive) :
  SpecFloat.iter_pos shr_1 d {| shr_m := Zpos (Pos.iter xO q d); shr_r := false; shr_s := false |}
  = {| shr_m := Zpos q; shr_r := false; shr_s := false |}.
Proof.
  rewrite iter_pos_nat, Pos2Nat.inj_iter.
  induction (Pos.to_nat d) as [|n IH]; [reflexivity|].
  rewrite Nat.iter_succ_r. simpl. exact IH.
Qed.

Lemma Zpos_eq_iter_xO (m q d : positive) : Zpos m = Zpos q * 2 ^ Zpos d → m = Pos.iter xO q d.
Proof. intros H. rewrite <- Zpos_iter_xO in H. congruence. Qed.

Lemma binary_round_aux_canonical (q : positive) (e : Z) :
  fexp 53 1024 (Zpos (digits2_pos q) + e) = e → e ≤ 971 →
  binary_round_aux 53 1024 false (Zpos q) e loc_Exact = S754_finite false q e.
Proof.
  intros Hf He. unfold binary_round_aux, shr_fexp.
  cbn [Zdigits2 shr_record_of_loc]. rewrite Hf, Z.sub_diag.
  cbn [shr shr_m loc_of_shr_record round_nearest_even Zdigits2 shr_record_of_loc].
  rewrite Hf, Z.sub_diag. cbn [shr shr_m].
  destruct (Z.leb_spec e (1024 - 53)); [reflexivity|lia].
Qed.

Lemma binary_round_exact (m q : positive) (e e' : Z) :
  e' = fexp 53 1024 (Zpos (digits2_pos m) + e) → e' ≤ 971 →
  (e' ≤ e ∧ Zpos q = Zpos m * 2 ^ (e - e')) ∨ (e ≤ e' ∧ Zpos m = Zpos q * 2 ^ (e' - e)) →
  binary_round 53 1024 false m e = S754_finite false q e'.
Proof.
  intros He' Hmax Hvalue. unfold binary_round. rewrite <- He'. unfold shl_align.
  destruct (e' - e) as [|d|d] eqn:Hd.
  - assert (Heq : e = e') by lia.
    assert (q = m) as ->.
    { destruct Hvalue as [[_ H]|[_ H]].
      - replace (e - e') with 0 in H by lia. simpl in H. lia.
      - simpl in H. lia. }
    rewrite Heq in He' |- *. apply binary_round_aux_canonical; [congruence|lia].
  - destruct Hvalue as [[Hle _]|[_ Hm]]; [lia|].
    apply Zpos_eq_iter_xO in Hm. subst m.
    rewrite digits2_pos_iter_xO in He'.
    unfold binary_round_aux, shr_fexp at 1.
    cbn [Zdigits2 shr_record_of_loc]. rewrite digits2_pos_iter_xO, <- He', Hd.
    cbn [shr]. rewrite iter_shr_1_exact.
    cbn [shr_m loc_of_shr_record round_nearest_even].
    replace (e + Zpos d) with e' by lia.
    assert (Hf : fexp 53 1024 (Zpos (digits2_pos q) + e') = e').
    { rewrite He' at 2. f_equal. lia. }
    unfold shr_fexp. cbn [Zdigits2 shr_record_of_loc]. rewrite Hf, Z.sub_diag.
    cbn [shr shr_m]. destruct (Z.leb_spec e' (1024 - 53)); [reflexivity|lia].
  - destruct Hvalue as [[_ Hq]|[Hle _]]; [|lia].
    replace (e - e') with (Zpos d) in Hq by lia.
    apply Zpos_eq_iter_xO in Hq. subst q.
    apply binary_round_aux_canonical; [|lia].
    rewrite digits2_pos_iter_xO. rewrite He' at 2. f_equal. lia.
Qed.

Lemma digits2_pos_bounds (p : positive) :
  2 ^ (Zpos (digits2_pos p) - 1) ≤ Zpos p < 2 ^ Zpos (digits2_pos p).
Proof.
  rewrite digits2_pos_size. pose proof (Pos.size_gt p) as Hgt. pose proof (Pos.size_le p) as Hle.
  apply Pos2Z.pos_lt_pos in Hgt. apply Pos2Z.pos_le_pos in Hle.
  rewrite Pos2Z.inj_pow in Hgt, Hle. split; [|exact Hgt].
  replace (Zpos (Pos.size p)) with (Zpos (Pos.size p) - 1 + 1) in Hle by lia.
  rewrite Z.pow_add_r in Hle by lia. change (Zpos p~0) with (2 * Zpos p) in Hle. lia.
Qed.

Lemma digits2_pos_le (p : positive) (k : Z) : Zpos p < 2 ^ k → Zpos (digits2_pos p) ≤ k.
Proof.
  intros H. destruct (digits2_pos_bounds p) as [Hlow _].
  destruct (Z.le_gt_cases (Zpos (digits2_pos p)) k) as [|Hgt]; [done|].
  assert (2 ^ k ≤ 2 ^ (Zpos (digits2_pos p) - 1)) by (apply Z.pow_le_mono_r; lia). lia.
Qed.

Lemma digits2_pos_mono (p q : positive) :
  Zpos p ≤ Zpos q → Zpos (digits2_pos p) ≤ Zpos (digits2_pos q).
Proof.
  intros H. apply digits2_pos_le. destruct (digits2_pos_bounds q). lia.
Qed.

Lemma digits2_pos_shift (n m : positive) (k : Z) :
  0 ≤ k → Zpos m = Zpos n * 2 ^ k → Zpos (digits2_pos m) = Zpos (digits2_pos n) + k.
Proof.
  intros Hk Hm. destruct k as [|d|d]; [|  |lia].
  - simpl in Hm. assert (m = n) as -> by lia. lia.
  - apply Zpos_eq_iter_xO in Hm. subst m. apply digits2_pos_iter_xO.
Qed.

Lemma fexp_digits (d : Z) : 0 < d → fexp 53 1024 d = d - 53.
Proof. intros H. unfold fexp, emin. lia. Qed.

Lemma shl_align_value (m : positive) (e ez : Z) :
  ez ≤ e → Zpos (fst (shl_align m e ez)) = Zpos m * 2 ^ (e - ez).
Proof.
  intros H. unfold shl_align. destruct (ez - e) as [|d|d] eqn:Hd; cbn [fst].
  - replace (e - ez) with 0 by lia. simpl. lia.
  - lia.
  - rewrite Zpos_iter_xO. do 2 f_equal; lia.
Qed.

Lemma double_of_Z_shape (a : positive) :
  Zpos a < 2 ^ 53 →
  ∃ ma ea,
    double_of_Z (Zpos a) = S754_finite false ma ea
    ∧ ea = Zpos (digits2_pos a) - 53 ∧ ea ≤ 0 ∧ Zpos ma = Zpos a * 2 ^ (- ea).
Proof.
  intros Ha. pose proof (digits2_pos_le a 53 Ha) as Hd.
  set (ea := Zpos (digits2_pos a) - 53).
  assert (Hpos : 0 < Zpos a * 2 ^ (- ea)) by (apply Z.mul_pos_pos; [lia|apply Z.pow_pos_nonneg; lia]).
  exists (Z.to_pos (Zpos a * 2 ^ (- ea))), ea.
  rewrite Z2Pos.id by done. repeat split; [|lia].
  unfold double_of_Z, binary_normalize. apply binary_round_exact.
  - rewrite fexp_digits by lia. lia.
  - lia.
  - left. split; [lia|]. rewrite Z2Pos.id by done. do 2 f_equal; lia.
Qed.

Lemma double_of_Z_pos_sign (a : positive) : double_of_Z (Zpos a) ≠ S754_zero true.
Proof.
  unfold double_of_Z, binary_normalize, binary_round, binary_round_aux.
  destruct (shl_align _ _ _) as [mz ez]. destruct (shr_fexp _ _ _ _ _) as [mrs e'].
  destruct (shr_fexp _ _ _ _ _) as [mrs' e'']. destruct (shr_m mrs'); try discriminate.
  destruct (Z.leb _ _); discriminate.
Qed.

(** Adding two non-negative integers in doubles is exact as long as the
    sum is at most 2^53. *)
Lemma double_add_exact (a b : Z) :
  0 ≤ a → 0 ≤ b → a + b ≤ 2 ^ 53 →
  double_add (double_of_Z a) (double_of_Z b) = double_of_Z (a + b).
Proof.
  intros Ha Hb Hsum. destruct a as [|pa|pa]; [|  |lia]; destruct b as [|pb|pb]; try lia.
  - reflexivity.
  - change (double_of_Z 0) with (S754_zero false). pose proof (double_of_Z_pos_sign pb) as Hs.
    change (0 + Z.pos pb) with (Z.pos pb).
    destruct (double_of_Z (Zpos pb)) as [[]| | |]; done.
  - change (double_of_Z 0) with (S754_zero false). pose proof (double_of_Z_pos_sign pa) as Hs.
    rewrite Z.add_0_r. destruct (double_of_Z (Zpos pa)) as [[]| | |]; done.
  - destruct (double_of_Z_shape pa) as (ma & ea & -> & Hea & Hea0 & Hma); [lia|].
    destruct (double_of_Z_shape pb) as (mb & eb & -> & Heb & Heb0 & Hmb); [lia|].
    unfold double_add, SFadd. cbn [cond_Zopp].
    set (ez := Z.min ea eb).
    rewrite (shl_align_value ma ea ez), (shl_align_value mb eb ez) by lia.
    assert (HM : Zpos ma * 2 ^ (ea - ez) + Zpos mb * 2 ^ (eb - ez)
                 = Zpos (pa + pb) * 2 ^ (- ez)).
    { rewrite Hma, Hmb, <- !Z.mul_assoc, <- !Z.pow_add_r by lia.
      replace (- ea + (ea - ez)) with (- ez) by lia.
      replace (- eb + (eb - ez)) with (- ez) by lia. lia. }
    rewrite HM.
    assert (Hpos : 0 < Zpos (pa + pb) * 2 ^ (- ez))
      by (apply Z.mul_pos_pos; [lia|apply Z.pow_pos_nonneg; lia]).
    destruct (Zpos (pa + pb) * 2 ^ (- ez)) as [|pM|pM] eqn:HpM; [lia|  |lia].
    change (Z.pos pa + Z.pos pb) with (Z.pos (pa + pb)).
    unfold double_of_Z, binary_normalize.
    pose proof (digits2_pos_shift (pa + pb) pM (- ez) ltac:(lia) (eq_sym HpM)) as HdM.
    set (d := Zpos (digits2_pos (pa + pb))) in *.
    assert (Hda : Zpos (digits2_pos pa) ≤ d) by (apply digits2_pos_mono; lia).
    assert (Hdb : Zpos (digits2_pos pb) ≤ d) by (apply digits2_pos_mono; lia).
    assert (Hd54 : d ≤ 54) by (apply digits2_pos_le; simpl; lia).
    destruct (Z.le_gt_cases d 53) as [Hd|Hd].
    + set (q := Z.to_pos (Zpos (pa + pb) * 2 ^ (53 - d))).
      assert (Hq : Zpos q = Zpos (pa + pb) * 2 ^ (53 - d)).
      { subst q. rewrite Z2Pos.id; [done|].
        apply Z.mul_pos_pos; [lia|apply Z.pow_pos_nonneg; lia]. }
      transitivity (S754_finite false q (d - 53));
        [apply binary_round_exact|symmetry; apply binary_round_exact].
      * rewrite HdM. rewrite fexp_digits by lia. lia.
      * lia.
      * right. split; [lia|]. rewrite Hq, <- Z.mul_assoc, <- Z.pow_add_r by lia.
        rewrite <- HpM. do 2 f_equal; lia.
      * fold d. rewrite fexp_digits by lia. lia.
      * lia.
      * left. split; [lia|]. rewrite Hq. do 2 f_equal; lia.
    + assert (Hd' : d = 54) by lia.
      assert (Hn : Zpos (pa + pb) = 2 ^ 53).
      { destruct (digits2_pos_bounds (pa + pb)) as [Hlow _]. fold d in Hlow.
        rewrite Hd' in Hlow. simpl in Hlow. lia. }
      transitivity (S754_finite false (Z.to_pos (2 ^ 52)) 1);
        [apply binary_round_exact|symmetry; apply binary_round_exact].
      * rewrite HdM. rewrite fexp_digits by lia. lia.
      * lia.
      * right. split; [lia|]. rewrite <- HpM, Hn.
        change (Zpos (Z.to_pos (2 ^ 52))) with (2 ^ 52).
        rewrite <- !Z.pow_add_r by lia. f_equal; lia.
      * fold d. rewrite fexp_digits by lia. lia.
      * lia.
      * right. split; [lia|]. rewrite Hn. reflexivity.
Qed.

Lemma sum_of_nonneg (l : list Z) : Forall (λ n, 0 ≤ n) l → 0 ≤ sum_of l.
Proof. unfold sum_of. induction 1; cbn; lia. Qed.

Lemma double_sum_exact (hits : list Z) :
  ∀ h, 0 ≤ h → Forall (λ n, 0 ≤ n) hits → h + sum_of hits ≤ 2 ^ 53 →
  double_sum (double_of_Z h) (map double_of_Z hits) = double_of_Z (h + sum_of hits).
Proof.
  induction hits as [|n hits IH]; intros h Hh Hall Hsum.
  - cbn. by rewrite Z.add_0_r.
  - apply Forall_cons in Hall as [Hn Hall]. pose proof (sum_of_nonneg hits Hall) as Hrest.
    cbn [sum_of fold_right] in Hsum. fold (sum_of hits) in Hsum.
    cbn [map double_sum fold_left]. rewrite double_add_exact by lia.
    fold (double_sum (double_of_Z (h + n)) (map double_of_Z hits)).
    rewrite IH by (done || lia). f_equal. cbn [sum_of fold_right]. fold (sum_of hits). lia.
Qed.

Lemma double_of_Z_inj (a b : Z) :
  0 ≤ a ≤ 2 ^ 53 → 0 ≤ b ≤ 2 ^ 53 → double_of_Z a = double_of_Z b → a = b.
Proof.
  assert (Hlow : ∀ a b, 0 ≤ a < 2 ^ 53 → 0 ≤ b < 2 ^ 53 →
                        double_of_Z a = double_of_Z b → a = b).
  { clear. intros [|pa|pa] [|pb|pb] Ha Hb Heq; try lia.
    - destruct (double_of_Z_shape pb) as (mb & eb & Hb' & _); [lia|].
      rewrite Hb' in Heq. discriminate.
    - destruct (double_of_Z_shape pa) as (ma & ea & Ha' & _); [lia|].
      rewrite Ha' in Heq. discriminate.
    - destruct (double_of_Z_shape pa) as (ma & ea & Ha' & _ & Hea & Hma); [lia|].
      destruct (double_of_Z_shape pb) as (mb & eb & Hb' & _ & Heb & Hmb); [lia|].
      rewrite Ha', Hb' in Heq. injection Heq as -> ->. rewrite Hmb in Hma.
      apply Z.mul_reg_r in Hma; [done|]. apply Z.pow_nonzero; lia. }
  assert (Htop : ∀ b, 0 ≤ b < 2 ^ 53 → double_of_Z (2 ^ 53) ≠ double_of_Z b).
  { clear. intros [|pb|pb] Hb Heq; try lia.
    - vm_compute in Heq. discriminate.
    - destruct (double_of_Z_shape pb) as (mb & eb & Hb' & _ & Heb & _); [lia|].
      rewrite Hb' in Heq. vm_compute in Heq. injection Heq as _ <-. lia. }
  intros Ha Hb Heq.
  destruct (decide (a = 2 ^ 53)) as [->|Hna]; destruct (decide (b = 2 ^ 53)) as [->|Hnb].
  - done.
  - by destruct (Htop b ltac:(lia)).
  - by destruct (Htop a ltac:(lia)).
  - apply Hlow; [lia|lia|done].
Qed.

(** X28.  The DataLoader batches recorded for an active query are counted
    on it: [dataLoaderBatches] grows by their number, and
    [dataLoaderCacheHits] becomes what adding their cache hits to it one
    after another gives in double arithmetic.  When the hits so far and the
    cache hits of the batches are non-negative integers whose total is at
    most 2^53, that is their exact sum: the integers from 0 to 2^53 are
    distinct doubles.  Beyond it need not be: from 2^53, two batches of one
    cache hit each leave 2^53.  Nothing else of the query and no other
    active query changes, and a batch recorded for a query that is not
    active changes no query. *)
Theorem batches_counted (queryId : string) (batches : list (string * Z * spec_float))
    (s : PerformanceMonitor.t) :
  PerformanceMonitor.activeQueries (record_batches queryId batches s)
  = match PerformanceMonitor.activeQueries s !! queryId with
    | Some metrics =>
        <[queryId :=
            QueryMetrics.with_dataLoader
              (QueryMetrics.dataLoaderBatches metrics + Z.of_nat (length batches))
              (double_sum (QueryMetrics.dataLoaderCacheHits metrics) (map snd batches))
              metrics]>
          (PerformanceMonitor.activeQueries s)
    | None => PerformanceMonitor.activeQueries s
    end
  ∧ (∀ metrics h hits,
       PerformanceMonitor.activeQueries s !! queryId = Some metrics →
       QueryMetrics.dataLoaderCacheHits metrics = double_of_Z h →
       map snd batches = map double_of_Z hits →
       0 ≤ h → Forall (λ n, 0 ≤ n) hits → h + sum_of hits ≤ 2 ^ 53 →
       ∃ metrics',
         PerformanceMonitor.activeQueries (record_batches queryId batches s) !! queryId
         = Some metrics'
         ∧ QueryMetrics.dataLoaderBatches metrics'
           = QueryMetrics.dataLoaderBatches metrics + Z.of_nat (length batches)
         ∧ QueryMetrics.dataLoaderCacheHits metrics' = double_of_Z (h + sum_of hits))
  ∧ (∀ a b, 0 ≤ a ≤ 2 ^ 53 → 0 ≤ b ≤ 2 ^ 53 → double_of_Z a = double_of_Z b → a = b).
Proof.
  assert (Hfold : PerformanceMonitor.activeQueries (record_batches queryId batches s)
                  = match PerformanceMonitor.activeQueries s !! queryId with
                    | Some metrics =>
                        <[queryId :=
                            QueryMetrics.with_dataLoader
                              (QueryMetrics.dataLoaderBatches metrics
                               + Z.of_nat (length batches))
                              (double_sum (QueryMetrics.dataLoaderCacheHits metrics)
                                 (map snd batches))
                              metrics]>
                          (PerformanceMonitor.activeQueries s)
                    | None => PerformanceMonitor.activeQueries s
                    end).
  { revert s. unfold record_batches.
    induction batches as [|[[loaderName batchSize] cacheHits] batches IH]; intros s.
    - cbn. destruct (PerformanceMonitor.activeQueries s !! queryId) as [metrics|] eqn:Hq;
        [|done].
      rewrite !Z.add_0_r, with_dataLoader_id. by rewrite insert_id.
    - cbn [fold_left fst snd]. rewrite IH. unfold PerformanceMonitor.recordDataLoaderBatch.
      destruct (PerformanceMonitor.activeQueries s !! queryId) as [metrics|] eqn:Hq.
      + cbn [PerformanceMonitor.log PerformanceMonitor.set_activeQueries
             PerformanceMonitor.activeQueries].
        rewrite lookup_insert_eq, insert_insert_eq. f_equal.
        unfold QueryMetrics.with_dataLoader, double_sum. cbn. f_equal. lia.
      + cbn [PerformanceMonitor.log PerformanceMonitor.activeQueries]. by rewrite Hq. }
  split; [exact Hfold|]. split; [|apply double_of_Z_inj].
  intros metrics h hits Hq Hh Hhits Hh0 Hall Hsum.
  rewrite Hfold, Hq, lookup_insert_eq. eexists. split; [reflexivity|].
  split; [reflexivity|]. cbn [QueryMetrics.with_dataLoader QueryMetrics.dataLoaderCacheHits].
  rewrite Hh, Hhits. by apply double_sum_exact.
Qed.

Lemma batches_counted_witness :
  let started :=
    (PerformanceMonitor.startQuery (λ _, 0) "q" document_user None None None
       (PerformanceMonitor.new ())).2 in
  (∃ metrics,
     PerformanceMonitor.activeQueries
       (record_batches "q" [("users", 10, double_of_Z 3); ("posts", 5, double_of_Z 4)] started)
       !! "q" = Some metrics
     ∧ QueryMetrics.dataLoaderBatches metrics = 2
     ∧ QueryMetrics.dataLoaderCacheHits metrics = double_of_Z 7)
  ∧ (∃ metrics,
       PerformanceMonitor.activeQueries
         (record_batches "q" [("users", 1, double_of_Z (2 ^ 53)); ("users", 1, double_of_Z 1);
                              ("users", 1, double_of_Z 1)] started) !! "q" = Some metrics
       ∧ QueryMetrics.dataLoaderCacheHits metrics = double_of_Z (2 ^ 53)
       ∧ double_of_Z (2 ^ 53) ≠ double_of_Z (2 ^ 53 + 2)).
Proof.
  cbn zeta. split.
  - destruct (batches_counted "q" [("users", 10, double_of_Z 3); ("posts", 5, double_of_Z 4)]
                (PerformanceMonitor.startQuery (λ _, 0) "q" document_user None None None
                   (PerformanceMonitor.new ())).2) as (_ & Hexact & _).
    destruct (Hexact (PerformanceMonitor.startQuery (λ _, 0) "q" document_user None None None
                        (PerformanceMonitor.new ())).1 0 [3; 4])
      as (metrics & Hq & Hbatches & Hhits).
    + vm_compute. reflexivity.
    + vm_compute. reflexivity.
    + reflexivity.
    + lia.
    + repeat constructor; lia.
    + vm_compute. discriminate.
    + exists metrics. split; [exact Hq|]. split; [exact Hbatches|exact Hhits].
  - destruct (batches_counted "q" [("users", 1, double_of_Z (2 ^ 53));
                                   ("users", 1, double_of_Z 1); ("users", 1, double_of_Z 1)]
                (PerformanceMonitor.startQuery (λ _, 0) "q" document_user None None None
                   (PerformanceMonitor.new ())).2) as (Hfold & _ & _).
    eexists. split.
    + rewrite Hfold. vm_compute. reflexivity.
    + vm_compute. split; [reflexivity|discriminate].
Defined.

(** * Properties of [SchemaComposer] *)

Lemma visit_unfold depth layers layer st :
  SchemaComposer.visit (S depth) layers layer st
  = if bool_decide (name layer ∈ SchemaComposer.visiting st) then
      Some (Throw ("Circular dependency detected: " +:+ name layer))
    else if bool_decide (name layer ∈ SchemaComposer.visited st) then Some (Normal st)
    else
      match SchemaComposer.visit_dependencies depth layers (dependencies_of layer)
              {| SchemaComposer.sorted := SchemaComposer.sorted st;
                 SchemaComposer.visited := SchemaComposer.visited st;
                 SchemaComposer.visiting := {[name layer]} ∪ SchemaComposer.visiting st |} with
      | Some (Normal st) =>
          Some (Normal {| SchemaComposer.sorted := SchemaComposer.sorted st ++ [layer];
                          SchemaComposer.visited := {[name layer]} ∪ SchemaComposer.visited st;
                          SchemaComposer.visiting := SchemaComposer.visiting st ∖ {[name layer]} |})
      | other => other
      end.
Proof.
  cbn [SchemaComposer.visit]. do 2 (destruct (bool_decide _); [done|]).
  unfold dependencies_of.
  match goal with
  | |- match ?loop _ _ with _ => _ end = match _ with _ => _ end =>
      assert (Hloop : ∀ deps st, loop deps st
                                 = SchemaComposer.visit_dependencies depth layers deps st)
  end.
  { induction deps as [|depName deps IH]; intros st1; [done|].
    cbn [SchemaComposer.visit_dependencies].
    destruct (SchemaComposer.find_layer layers depName) as [depLayer|]; [|apply IH].
    destruct (SchemaComposer.visit depth layers depLayer st1) as [[st2|e]|];
      [apply IH|done|done]. }
  by rewrite Hloop.
Qed.

Lemma visit_frame_refl st : visit_frame st st.
Proof. split; try done. - intros n Hn. by left. - exists []. by rewrite app_nil_r. Qed.

Lemma visit_frame_trans st1 st2 st3 :
  visit_frame st1 st2 → visit_frame st2 st3 → visit_frame st1 st3.
Proof.
  intros [Hv1 Hg1 Hn1 [m1 Hs1]] [Hv2 Hg2 Hn2 [m2 Hs2]]. split.
  - congruence.
  - by etrans.
  - intros n Hn. destruct (Hn2 n Hn) as [H|H]; [by apply Hn1|]. right. by rewrite <- Hv1.
  - exists (m1 ++ m2). by rewrite Hs2, Hs1, app_assoc.
Qed.

Lemma find_layer_Some layers depName depLayer :
  SchemaComposer.find_layer layers depName = Some depLayer →
  depLayer ∈ layers ∧ name depLayer = depName.
Proof.
  unfold SchemaComposer.find_layer. intros [Hin Heq]%find_some.
  split; [by apply list_elem_of_In|]. by apply String.eqb_eq.
Qed.

Lemma find_layer_None layers depName :
  SchemaComposer.find_layer layers depName = None → depName ∉ map name layers.
Proof.
  unfold SchemaComposer.find_layer. intros Hnone Hin.
  apply list_elem_of_fmap in Hin as (layer & -> & Hin).
  apply list_elem_of_In in Hin.
  pose proof (find_none _ _ Hnone _ Hin) as H. cbn in H.
  by rewrite String.eqb_refl in H.
Qed.

Lemma visit_spec_frame depth layers :
  (∀ layer st st',
     SchemaComposer.visit depth layers layer st = Some (Normal st') →
     visit_frame st st' ∧ name layer ∈ SchemaComposer.visited st')
  ∧ (∀ deps st st',
       SchemaComposer.visit_dependencies depth layers deps st = Some (Normal st') →
       visit_frame st st').
Proof.
  induction depth as [|depth [IHvisit _]].
  - assert (Hvisit : ∀ layer st st',
              SchemaComposer.visit 0 layers layer st = Some (Normal st') →
              visit_frame st st' ∧ name layer ∈ SchemaComposer.visited st') by done.
    split; [done|].
    induction deps as [|depName deps IH]; intros st st' Hrun;
      cbn [SchemaComposer.visit_dependencies] in Hrun.
    + injection Hrun as <-. apply visit_frame_refl.
    + destruct (SchemaComposer.find_layer layers depName); [done|]. by apply IH.
  - assert (Hdeps : ∀ deps st st',
              SchemaComposer.visit_dependencies depth layers deps st = Some (Normal st') →
              visit_frame st st').
    { induction deps as [|depName deps IH]; intros st st' Hrun;
      cbn [SchemaComposer.visit_dependencies] in Hrun.
      - injection Hrun as <-. apply visit_frame_refl.
      - destruct (SchemaComposer.find_layer layers depName) as [depLayer|]; [|by apply IH].
        destruct (SchemaComposer.visit depth layers depLayer st) as [[st1|e]|] eqn:Hv;
          try done.
        destruct (IHvisit _ _ _ Hv) as [Hf _].
        eapply visit_frame_trans; [exact Hf|]. by apply IH. }
    assert (Hvisit : ∀ layer st st',
              SchemaComposer.visit (S depth) layers layer st = Some (Normal st') →
              visit_frame st st' ∧ name layer ∈ SchemaComposer.visited st').
    { intros layer st st' Hrun. rewrite visit_unfold in Hrun.
      case_bool_decide as Hvisiting; [done|].
      case_bool_decide as Hvisited.
      { injection Hrun as <-. split; [apply visit_frame_refl|done]. }
      destruct (SchemaComposer.visit_dependencies depth layers _ _) as [[st1|e]|] eqn:Hloop;
        try done.
      injection Hrun as <-.
      destruct (Hdeps _ _ _ Hloop) as [Hv Hg Hn [more Hs]]. cbn in Hv, Hg, Hn, Hs.
      split; [|cbn; apply elem_of_union; left; by apply elem_of_singleton].
      split; cbn.
      - rewrite Hv. apply set_eq. intros x.
        rewrite elem_of_difference, elem_of_union, elem_of_singleton.
        split; [by intros [[?|?] ?]|]. intros Hx. split; [by right|by intros ->].
      - intros x Hx. apply elem_of_union. right. by apply Hg.
      - intros n [->%elem_of_singleton | Hin]%elem_of_union; [by right|].
        destruct (Hn n Hin) as [H|H]; [by left|]. right.
        intros Hx. apply H, elem_of_union. by right.
      - exists (more ++ [layer]). by rewrite Hs, app_assoc. }
    split; [done|].
    induction deps as [|depName deps IH]; intros st st' Hrun;
      cbn [SchemaComposer.visit_dependencies] in Hrun.
    + injection Hrun as <-. apply visit_frame_refl.
    + destruct (SchemaComposer.find_layer layers depName) as [depLayer|]; [|by apply IH].
      destruct (SchemaComposer.visit (S depth) layers depLayer st) as [[st1|e]|] eqn:Hv;
        try done.
      destruct (Hvisit _ _ _ Hv) as [Hf _].
      eapply visit_frame_trans; [exact Hf|]. by apply IH.
Qed.

Lemma snoc_split {A} (before after xs : list A) (l x : A) :
  before ++ l :: after = xs ++ [x] →
  (after = [] ∧ before = xs ∧ l = x)
  ∨ ∃ after', after = after' ++ [x] ∧ xs = before ++ l :: after'.
Proof.
  destruct after as [|a after' _] using rev_ind; intros Heq.
  - left. apply app_inj_tail in Heq as [-> ->]. done.
  - right. exists after'.
    change (before ++ l :: after' ++ [a]) with (before ++ (l :: after') ++ [a]) in Heq.
    rewrite app_assoc in Heq. apply app_inj_tail in Heq as [<- ->]. done.
Qed.

Lemma find_layer_is_Some layers depName :
  depName ∈ map name layers → is_Some (SchemaComposer.find_layer layers depName).
Proof.
  intros Hin. destruct (SchemaComposer.find_layer layers depName) eqn:Hfind; [by eexists|].
  by apply find_layer_None in Hfind.
Qed.

(** The loop over the dependencies keeps what the calls of [visit] in it
    keep, and leaves every dependency that names a layer visited. *)
Lemma visit_dependencies_ok depth layers :
  (∀ layer st st',
     layer ∈ layers → locals_ok layers st →
     SchemaComposer.visit depth layers layer st = Some (Normal st') →
     locals_ok layers st') →
  ∀ deps st st',
    locals_ok layers st →
    SchemaComposer.visit_dependencies depth layers deps st = Some (Normal st') →
    locals_ok layers st'
    ∧ ∀ depName, depName ∈ deps → depName ∈ map name layers →
                 depName ∈ SchemaComposer.visited st'.
Proof.
  intros Hvisit. induction deps as [|depName deps IH]; intros st st' Hok Hrun;
    cbn [SchemaComposer.visit_dependencies] in Hrun.
  - injection Hrun as <-. split; [done|]. intros d Hd. by apply elem_of_nil in Hd.
  - destruct (SchemaComposer.find_layer layers depName) as [depLayer|] eqn:Hfind.
    + destruct (SchemaComposer.visit depth layers depLayer st) as [[st1|e]|] eqn:Hv; try done.
      apply find_layer_Some in Hfind as [Hin Hname].
      destruct (IH st1 st' (Hvisit _ _ _ Hin Hok Hv) Hrun) as [Hok' Hdeps].
      split; [done|]. intros d [-> | Hd]%elem_of_cons Hd'; [|by apply Hdeps].
      destruct (proj1 (visit_spec_frame depth layers) _ _ _ Hv) as [_ Hvisited].
      destruct (proj2 (visit_spec_frame depth layers) _ _ _ Hrun) as [_ Hgrows _ _].
      rewrite Hname in Hvisited. by apply Hgrows.
    + destruct (IH st st' Hok Hrun) as [Hok' Hdeps].
      split; [done|]. intros d [-> | Hd]%elem_of_cons Hd'; [|by apply Hdeps].
      by apply find_layer_None in Hfind.
Qed.

Lemma visit_ok depth layers layer st st' :
  layer ∈ layers → locals_ok layers st →
  SchemaComposer.visit depth layers layer st = Some (Normal st') →
  locals_ok layers st'.
Proof.
  revert layer st st'. induction depth as [|depth IH]; intros layer st st' Hin Hok Hrun;
    [done|].
  rewrite visit_unfold in Hrun.
  case_bool_decide as Hvisiting; [done|].
  case_bool_decide as Hvisited; [by injection Hrun as <-|].
  destruct (SchemaComposer.visit_dependencies depth layers _ _) as [[st2|e]|] eqn:Hloop;
    try done.
  injection Hrun as <-.
  set (st1 := SchemaComposer.Build_Locals _ _ _) in Hloop.
  assert (Hok1 : locals_ok layers st1) by by destruct Hok.
  destruct (visit_dependencies_ok depth layers IH _ _ _ Hok1 Hloop) as [Hok2 Hdeps].
  destruct (proj2 (visit_spec_frame depth layers) _ _ _ Hloop) as [_ _ Hnew _].
  assert (Hfresh : name layer ∉ SchemaComposer.visited st2).
  { intros Hn. destruct (Hnew _ Hn) as [H|H]; [done|]. apply H. cbn.
    apply elem_of_union. left. by apply elem_of_singleton. }
  destruct Hok2 as [Hsv Hnodup Hlayers Hfirst].
  split; cbn [SchemaComposer.sorted SchemaComposer.visited].
  - intros n. rewrite map_app, elem_of_app, Hsv. cbn. rewrite list_elem_of_singleton.
    rewrite elem_of_union, elem_of_singleton. tauto.
  - rewrite map_app. cbn. apply NoDup_app. split; [done|]. split; [|apply NoDup_singleton].
    intros n Hn ->%list_elem_of_singleton. by apply Hfresh, Hsv.
  - intros l [Hl | ->%list_elem_of_singleton]%elem_of_app; [by apply Hlayers|done].
  - intros before l after depName Heq Hdep Hnamed.
    symmetry in Heq. apply snoc_split in Heq as [(-> & -> & ->)|(after' & -> & Heq)].
    + apply Hsv. by apply Hdeps.
    + by apply (Hfirst before l after' depName).
Qed.

Lemma layer_names_elem layers layer : layer ∈ layers → name layer ∈ layer_names layers.
Proof.
  intros Hin. unfold layer_names. apply elem_of_list_to_set, list_elem_of_fmap. by exists layer.
Qed.

Lemma layer_names_size layers : (size (layer_names layers) ≤ length layers)%nat.
Proof.
  unfold layer_names. rewrite <- (length_map name layers).
  induction (map name layers) as [|n names IH]; cbn.
  - by rewrite size_empty.
  - rewrite size_union_alt, size_singleton.
    assert (Hsub : list_to_set names ∖ {[n]} ⊆ (list_to_set names : gset string))
      by apply subseteq_difference_l, reflexivity.
    apply subseteq_size in Hsub. lia.
Qed.

(** [visit] returns or throws when the nesting allowed is more than the
    names that are not being visited. *)
Lemma visit_total depth layers :
  ∀ layer st,
    layer ∈ layers →
    (size (layer_names layers ∖ SchemaComposer.visiting st) < depth)%nat →
    is_Some (SchemaComposer.visit depth layers layer st).
Proof.
  induction depth as [|depth IH]; intros layer st Hin Hsize; [lia|].
  rewrite visit_unfold.
  case_bool_decide as Hvisiting; [by eexists|].
  case_bool_decide as Hvisited; [by eexists|].
  set (st1 := SchemaComposer.Build_Locals _ _ _).
  assert (Hsize1 : (size (layer_names layers ∖ SchemaComposer.visiting st1) < depth)%nat).
  { assert (layer_names layers ∖ SchemaComposer.visiting st1
            ⊂ layer_names layers ∖ SchemaComposer.visiting st) as Hsub%subset_size; [|lia].
    pose proof (layer_names_elem _ _ Hin) as Hname. subst st1. cbn. split.
    - intros x. rewrite !elem_of_difference, elem_of_union. tauto.
    - intros Hsup. specialize (Hsup (name layer)).
      rewrite !elem_of_difference, elem_of_union, elem_of_singleton in Hsup. tauto. }
  assert (Hloop : ∀ deps st2,
            SchemaComposer.visiting st2 = SchemaComposer.visiting st1 →
            is_Some (SchemaComposer.visit_dependencies depth layers deps st2)).
  { induction deps as [|depName deps IHdeps]; intros st2 Hv2;
      cbn [SchemaComposer.visit_dependencies]; [by eexists|].
    destruct (SchemaComposer.find_layer layers depName) as [depLayer|] eqn:Hfind;
      [|by apply IHdeps].
    apply find_layer_Some in Hfind as [Hdep _].
    destruct (IH depLayer st2 Hdep) as [[st3|e] Hrun]; [by rewrite Hv2| |]; rewrite Hrun;
      [|by eexists].
    apply IHdeps.
    destruct (proj1 (visit_spec_frame depth layers) _ _ _ Hrun) as [[Hv3 _ _ _] _].
    congruence. }
  destruct (Hloop (dependencies_of layer) st1 eq_refl) as [[st2|e] ->]; by eexists.
Qed.

(** [visit] throws for a name only when the name is on a chain of
    dependencies that comes back to it. *)
Lemma visit_throw depth layers :
  ∀ layer st e,
    layer ∈ layers →
    (∀ v, v ∈ SchemaComposer.visiting st → tc (depends_on layers) v (name layer)) →
    SchemaComposer.visit depth layers layer st = Some (Throw e) →
    circular_error e layers.
Proof.
  induction depth as [|depth IH]; intros layer st e Hin Hpath Hrun; [done|].
  rewrite visit_unfold in Hrun.
  case_bool_decide as Hvisiting.
  { injection Hrun as <-. exists (name layer). split; [done|]. by apply Hpath. }
  case_bool_decide as Hvisited; [done|].
  set (st1 := SchemaComposer.Build_Locals _ _ _) in Hrun.
  assert (Hloop : ∀ deps st2,
            (∀ depName, depName ∈ deps → depName ∈ dependencies_of layer) →
            SchemaComposer.visiting st2 = SchemaComposer.visiting st1 →
            SchemaComposer.visit_dependencies depth layers deps st2 = Some (Throw e) →
            circular_error e layers).
  { induction deps as [|depName deps IHdeps]; intros st2 Hdeps Hv2 Hthrow;
      cbn [SchemaComposer.visit_dependencies] in Hthrow; [done|].
    assert (Hrest : ∀ d, d ∈ deps → d ∈ dependencies_of layer)
      by (intros d Hd; apply Hdeps; by right).
    destruct (SchemaComposer.find_layer layers depName) as [depLayer|] eqn:Hfind;
      [|by apply (IHdeps st2)].
    apply find_layer_Some in Hfind as [Hdep Hname].
    destruct (SchemaComposer.visit depth layers depLayer st2) as [[st3|e']|] eqn:Hvisit;
      [| |done].
    - apply (IHdeps st3); [done| |done].
      destruct (proj1 (visit_spec_frame depth layers) _ _ _ Hvisit) as [[Hv3 _ _ _] _].
      congruence.
    - injection Hthrow as ->. apply (IH depLayer st2); [done| |done].
      assert (Hedge : depends_on layers (name layer) (name depLayer)).
      { exists layer. split; [done|]. split; [done|]. rewrite Hname.
        split; [apply Hdeps; by left|].
        rewrite <- Hname. apply list_elem_of_fmap. by exists depLayer. }
      intros v Hv. rewrite Hv2 in Hv. subst st1. cbn in Hv.
      apply elem_of_union in Hv as [->%elem_of_singleton | Hv]; [by apply tc_once|].
      eapply tc_r; [by apply Hpath|done]. }
  destruct (SchemaComposer.visit_dependencies depth layers _ st1) as [[st2|e']|] eqn:Hdeps;
    [done| |done].
  injection Hrun as ->. by apply (Hloop (dependencies_of layer) st1).
Qed.

Lemma visit_all_spec depth layers :
  (size (layer_names layers) < depth)%nat →
  ∀ prioritySorted st,
    (∀ layer, layer ∈ prioritySorted → layer ∈ layers) →
    SchemaComposer.visiting st = ∅ →
    locals_ok layers st →
    ∃ c, SchemaComposer.visit_all depth layers prioritySorted st = Some c
         ∧ match c with
           | Normal st' =>
               locals_ok layers st'
               ∧ SchemaComposer.visited st ⊆ SchemaComposer.visited st'
               ∧ ∀ layer, layer ∈ prioritySorted → name layer ∈ SchemaComposer.visited st'
           | Throw e => circular_error e layers
           end.
Proof.
  intros Hdepth. induction prioritySorted as [|layer rest IH]; intros st Hin Hempty Hok.
  - exists (Normal st). split; [done|]. split; [done|]. split; [done|].
    intros layer Hl. by apply elem_of_nil in Hl.
  - cbn [SchemaComposer.visit_all].
    assert (Hlayer : layer ∈ layers) by (apply Hin; by left).
    destruct (visit_total depth layers layer st Hlayer) as [[st1|e] Hrun].
    { rewrite Hempty. by rewrite difference_empty_L. }
    + rewrite Hrun.
      destruct (proj1 (visit_spec_frame depth layers) _ _ _ Hrun)
        as [[Hv1 Hgrows1 _ _] Hvisited].
      destruct (IH st1) as (c & Hc & Hspec).
      { intros l Hl. apply Hin. by right. }
      { congruence. }
      { by apply (visit_ok depth layers layer st). }
      exists c. split; [done|]. destruct c as [st'|e]; [|done].
      destruct Hspec as (Hok' & Hgrows & Hall).
      split; [done|]. split; [by etrans|].
      intros l [-> | Hl]%elem_of_cons; [by apply Hgrows|by apply Hall].
    + rewrite Hrun. exists (Throw e). split; [done|].
      apply (visit_throw depth layers layer st e Hlayer); [|done].
      intros v Hv. rewrite Hempty in Hv. by apply elem_of_empty in Hv.
Qed.

Lemma NoDup_map_inj {A B} (f : A → B) (l : list A) (x y : A) :
  NoDup (map f l) → x ∈ l → y ∈ l → f x = f y → x = y.
Proof.
  intros Hnodup [i Hi]%list_elem_of_lookup [j Hj]%list_elem_of_lookup Heq.
  assert (Hfi : map f l !! i = Some (f x)) by by rewrite list_lookup_fmap, Hi.
  assert (Hfj : map f l !! j = Some (f x)) by by rewrite list_lookup_fmap, Hj, Heq.
  pose proof (NoDup_lookup _ _ _ _ Hnodup Hfi Hfj) as ->. congruence.
Qed.

(** A list with the dependencies first, of layers with distinct names, has
    no chain of dependencies that comes back to its start. *)
Lemma dependencies_first_acyclic layers sorted :
  NoDup (map name layers) →
  NoDup (map name sorted) →
  (∀ n, n ∈ map name sorted ↔ n ∈ map name layers) →
  (∀ layer, layer ∈ sorted → layer ∈ layers) →
  dependencies_first layers sorted →
  ∀ n, ¬ circular layers n.
Proof.
  intros Hdistinct Hnodup Hnames Hlayers Hfirst.
  set (before_in a b :=
         ∃ i j, map name sorted !! i = Some a ∧ map name sorted !! j = Some b ∧ (j < i)%nat).
  assert (Hedge : ∀ a b, depends_on layers a b → before_in a b).
  { intros a b (layer & Hin & <- & Hdep & Hnamed).
    assert (Hsorted : layer ∈ sorted).
    { assert (name layer ∈ map name sorted) as (l & Hname & Hl)%list_elem_of_fmap.
      { apply Hnames, list_elem_of_fmap. by exists layer. }
      rewrite (NoDup_map_inj name layers layer l); auto. }
    apply list_elem_of_split in Hsorted as (before & after & ->).
    pose proof (Hfirst before layer after b eq_refl Hdep Hnamed) as [j Hj]%list_elem_of_lookup.
    exists (length before), j. rewrite map_app. cbn [map]. split; [|split].
    - rewrite <- (length_map name before). by rewrite list_lookup_middle.
    - by rewrite lookup_app_l by by eapply lookup_lt_Some.
    - apply lookup_lt_Some in Hj. by rewrite length_map in Hj. }
  assert (Htc : ∀ a b, tc (depends_on layers) a b → before_in a b).
  { induction 1 as [a b Hab|a b c Hab _ (j' & k & Hj' & Hk & Hlt)]; [by apply Hedge|].
    destruct (Hedge _ _ Hab) as (i & j & Hi & Hj & Hlt').
    pose proof (NoDup_lookup _ _ _ _ Hnodup Hj Hj'). subst j'.
    exists i, k. split; [done|]. split; [done|]. lia. }
  intros n (i & j & Hi & Hj & Hlt)%Htc.
  pose proof (NoDup_lookup _ _ _ _ Hnodup Hi Hj). lia.
Qed.

Lemma Set_add_elem_iff x y (members : list string) :
  y ∈ Set_add x members ↔ y = x ∨ y ∈ members.
Proof.
  unfold Set_add, Set_has. case_bool_decide as Hx.
  - split; [by right|]. by intros [-> | ?].
  - rewrite elem_of_app, list_elem_of_singleton. tauto.
Qed.

Lemma Set_of_elem x (l : list string) : x ∈ Set_of l ↔ x ∈ l.
Proof.
  unfold Set_of.
  assert (H : ∀ acc, x ∈ fold_left (λ s y, Set_add y s) l acc ↔ x ∈ acc ∨ x ∈ l).
  { induction l as [|y l IH]; intros acc; cbn.
    - rewrite elem_of_nil. tauto.
    - rewrite IH, Set_add_elem_iff, elem_of_cons. tauto. }
  rewrite H, elem_of_nil. tauto.
Qed.

Lemma validateDependencies_layer (names : list string) (layerName : string) (deps : list string)
    (errors : list ValidationError.IValidationError) :
  fold_left
    (λ errors depName,
       if negb (Set_has depName (Set_of names)) then
         errors ++ [dependency_error layerName depName]
       else errors) deps errors
  = errors ++ map (dependency_error layerName) (filter (λ depName, depName ∉ names) deps).
Proof.
  revert errors. induction deps as [|depName deps IH]; intros errors; cbn [fold_left].
  - cbn. by rewrite app_nil_r.
  - rewrite IH. unfold Set_has. case_bool_decide as Hin; rewrite Set_of_elem in Hin; cbn [negb].
    + by rewrite filter_cons_False by tauto.
    + rewrite filter_cons_True by done. cbn [map]. by rewrite <- app_assoc.
Qed.

Lemma validateDependencies_loop (names : list string) layers errors :
  fold_left
    (λ errors layer,
       fold_left
         (λ errors depName,
            if negb (Set_has depName (Set_of names)) then
              errors ++ [dependency_error (name layer) depName]
            else errors)
         (dependencies_of layer) errors)
    layers errors
  = errors
    ++ map (λ p, dependency_error p.1 p.2)
         (layer ← layers;
          depName ← filter (λ depName, depName ∉ names) (dependencies_of layer);
          [(name layer, depName)]).
Proof.
  revert errors. induction layers as [|layer layers IH]; intros errors; cbn [fold_left].
  - cbn. by rewrite app_nil_r.
  - rewrite validateDependencies_layer, IH, <- app_assoc. f_equal.
    cbn [mbind list_bind]. rewrite map_app. f_equal.
    induction (filter _ (dependencies_of layer)) as [|d ds IHd]; [done|].
    cbn. by rewrite <- IHd.
Qed.

Lemma validateDependencies_eq layers errors :
  SchemaComposer.validateDependencies layers errors
  = errors ++ map (λ p, dependency_error p.1 p.2) (unmet_dependencies layers).
Proof. apply (validateDependencies_loop (map name layers)). Qed.

Lemma filter_none {A} (P : A → Prop) `{∀ x, Decision (P x)} (l : list A) :
  (∀ x, x ∈ l → ¬ P x) → filter P l = [].
Proof.
  induction l as [|x l IH]; intros Hall; [done|].
  rewrite filter_cons_False by (apply Hall; by left).
  apply IH. intros y Hy. apply Hall. by right.
Qed.

Lemma unmet_nil (names : list string) (layers : list ISchemaLayer) :
  (layer ← layers;
   depName ← filter (λ depName, depName ∉ names) (dependencies_of layer);
   [(name layer, depName)]) = []
  ↔ ∀ layer depName, layer ∈ layers → depName ∈ dependencies_of layer → depName ∈ names.
Proof.
  induction layers as [|layer layers IH].
  - split; [|done]. intros _ layer depName Hin. by apply elem_of_nil in Hin.
  - cbn [mbind list_bind]. split.
    + intros [Hhere Hrest]%app_eq_nil layer' depName [-> | Hin]%elem_of_cons Hdep.
      * destruct (decide (depName ∈ names)) as [|Hout]; [done|].
        assert (Hd : depName ∈ filter (λ d, d ∉ names) (dependencies_of layer))
          by by apply list_elem_of_filter.
        destruct (filter _ (dependencies_of layer)) as [|d ds]; [by apply elem_of_nil in Hd|].
        done.
      * by apply (proj1 IH Hrest layer').
    + intros Hall. apply app_nil. split.
      * assert (Hnone : filter (λ d, d ∉ names) (dependencies_of layer) = []).
        { apply filter_none. intros d Hd Hout.
          apply Hout, (Hall layer); [by left|done]. }
        by rewrite Hnone.
      * apply IH. intros layer' depName Hin. apply Hall. by right.
Qed.

(** X29.  [validateDependencies] pushes one error for each dependency of
    each layer that no layer of the list is named after, in the order of
    the layers and of their dependencies, each naming the layer that asks;
    it pushes nothing exactly when every dependency names a layer. *)
Theorem validateDependencies_unmet (layers : list ISchemaLayer)
    (errors : list ValidationError.IValidationError) :
  SchemaComposer.validateDependencies layers errors
  = errors ++ map (λ p, dependency_error p.1 p.2) (unmet_dependencies layers)
  ∧ (SchemaComposer.validateDependencies layers errors = errors
     ↔ ∀ layer depName,
         layer ∈ layers → depName ∈ dependencies_of layer → depName ∈ map name layers).
Proof.
  split; [apply validateDependencies_eq|].
  rewrite validateDependencies_eq.
  pose proof (unmet_nil (map name layers) layers) as Hnil.
  fold (unmet_dependencies layers) in Hnil.
  rewrite <- Hnil. split.
  - intros Heq. apply (f_equal length) in Heq. rewrite length_app, length_map in Heq.
    apply length_zero_iff_nil. lia.
  - intros ->. cbn. by rewrite app_nil_r.
Qed.

(** X30.  [sortLayersByDependencies] returns or throws.  When it returns,
    the list holds one layer for each name of the layers given, each of
    them one of those layers, and every dependency of a layer that names a
    layer given comes before it; if the names of the layers are distinct,
    no chain of dependencies leads back to its start.  When it throws, the
    error names a layer on a chain of dependencies that leads back to
    it. *)
Theorem sortLayersByDependencies_sorted (layers : list ISchemaLayer) :
  ∃ c, SchemaComposer.sortLayersByDependencies layers = Some c
       ∧ match c with
         | Normal sorted =>
             NoDup (map name sorted)
             ∧ (∀ n, n ∈ map name sorted ↔ n ∈ map name layers)
             ∧ (∀ layer, layer ∈ sorted → layer ∈ layers)
             ∧ dependencies_first layers sorted
             ∧ (NoDup (map name layers) → ∀ n, ¬ circular layers n)
         | Throw e => circular_error e layers
         end.
Proof.
  unfold SchemaComposer.sortLayersByDependencies,
    SchemaComposer.sortLayersByDependencies_within.
  set (prioritySorted := Array_sort _ layers).
  assert (Hperm : prioritySorted ≡ₚ layers) by apply Array_sort_perm.
  set (st0 := SchemaComposer.Build_Locals [] ∅ ∅).
  assert (Hok0 : locals_ok layers st0).
  { split; cbn.
    - intros n. by rewrite elem_of_nil, elem_of_empty.
    - constructor.
    - intros layer Hl. by apply elem_of_nil in Hl.
    - intros before layer after depName Heq. by destruct before. }
  destruct (visit_all_spec (S (length layers)) layers) with (prioritySorted := prioritySorted)
    (st := st0) as (c & -> & Hspec); try done.
  { pose proof (layer_names_size layers). lia. }
  { intros layer Hl. by rewrite <- Hperm. }
  destruct c as [st'|e]; [|by exists (Throw e)].
  exists (Normal (SchemaComposer.sorted st')). split; [done|].
  destruct Hspec as ([Hsv Hnodup Hlayers Hfirst] & _ & Hall).
  assert (Hnames : ∀ n, n ∈ map name (SchemaComposer.sorted st') ↔ n ∈ map name layers).
  { intros n. split.
    - intros (layer & -> & Hl)%list_elem_of_fmap. apply list_elem_of_fmap.
      exists layer. split; [done|]. by apply Hlayers.
    - intros (layer & -> & Hl)%list_elem_of_fmap. apply Hsv, Hall. by rewrite Hperm. }
  do 4 (split; [done|]).
  intros Hdistinct. by apply (dependencies_first_acyclic layers (SchemaComposer.sorted st')).
Qed.
